(** * Eat Cell server: a shallow embedding of [server.js]

    The simulation core of the server (quadtree, entity model, player
    actions, and the per-tick [update]) is embedded as Rocq functions.

    Modelling conventions.
    - A JavaScript number is a real number ([R]): arithmetic is exact,
      rounding, NaN and infinities are outside the model.
    - Cell objects live in a store ([heap]); a player's [cells] array holds
      references (indexes into the store), so that the aliasing between the
      per-tick [allCells] snapshot and the players' arrays is kept.
    - [players] is the JavaScript [Map] in insertion order; inside one tick a
      player object is identified by its position in that order.
    - [Math.random()] reads the next value of an oracle [rnd : nat -> R];
      the world counts the draws made so far. *)

From Stdlib Require Import Reals Lra Lia ZArith String.
From stdpp Require Import base decidable option list pretty sorting.

Local Open Scope R_scope.

(** ** Numbers *)

#[global] Instance Rlt_decision (a b : R) : Decision (a < b) := Rlt_dec a b.
#[global] Instance Rle_decision (a b : R) : Decision (a <= b) := Rle_dec a b.
#[global] Instance Req_decision : EqDecision R := Req_dec_T.

Definition Rltb (a b : R) : bool := bool_decide (a < b).
Definition Rleb (a b : R) : bool := bool_decide (a <= b).
Definition Rgtb (a b : R) : bool := bool_decide (b < a).
Definition Rgeb (a b : R) : bool := bool_decide (b <= a).
Definition Reqb (a b : R) : bool := bool_decide (a = b).

(** [v || 1] on numbers: zero is falsy. *)
Definition or_one (v : R) : R := if Reqb v 0 then 1 else v.

(** [Math.hypot(a, b)] *)
Definition hypot (a b : R) : R := sqrt (a * a + b * b).

(** [Math.floor] *)
Definition floor (a : R) : Z := Int_part a.

(** ** Configuration *)

Definition TICK_RATE : R := 20.
Definition WORLD_SIZE : R := 6000.
Definition BASE_SPEED : R := 400.
Definition SPLIT_SPEED : R := 400.
Definition MERGE_TIME : R := 10.
Definition FOOD_COUNT : nat := 60.
Definition FOOD_RADIUS : R := 15.
Definition VIRUS_COUNT : nat := 20.
Definition VIRUS_RADIUS : R := 60.
Definition MAX_VIRUS_PIECES : Z := 16.
Definition BOT_COUNT : nat := 20.
Definition TARGET_SPEED_MULTIPLIER : R := 1.

(** ** Helpers *)

Definition cellAreaFromRadius (r : R) : R := PI * r * r.
Definition radiusFromArea (a : R) : R := sqrt (a / PI).

(** ** Entities *)

Record Cell := mkCell {
  c_x : R; c_y : R; c_radius : R; c_vx : R; c_vy : R; c_mergeTimer : R
}.

Record Food := mkFood {
  f_id : N; f_x : R; f_y : R; f_radius : R; f_color : list R;
  f_vx : R; f_vy : R; f_isEjected : bool;
  f_dead : bool  (* the [dead] property, absent (falsy) until set *)
}.

Record Virus := mkVirus { v_id : N; v_x : R; v_y : R; v_radius : R }.

Record Player := mkPlayer {
  p_id : N; p_name : string; p_skin : R; p_color : list R; p_isBot : bool;
  p_cells : list nat;          (* references into the cell store *)
  p_inputDir : R * R;
  p_mouseX : R; p_mouseY : R;
  p_hasMouseTarget : bool      (* absent (falsy) on bots *)
}.

Definition set_c_pos (x y : R) (c : Cell) : Cell :=
  mkCell x y (c_radius c) (c_vx c) (c_vy c) (c_mergeTimer c).
Definition set_c_radius (r : R) (c : Cell) : Cell :=
  mkCell (c_x c) (c_y c) r (c_vx c) (c_vy c) (c_mergeTimer c).
Definition set_c_vel (vx vy : R) (c : Cell) : Cell :=
  mkCell (c_x c) (c_y c) (c_radius c) vx vy (c_mergeTimer c).
Definition set_c_mergeTimer (t : R) (c : Cell) : Cell :=
  mkCell (c_x c) (c_y c) (c_radius c) (c_vx c) (c_vy c) t.

Definition set_f_dead (d : bool) (f : Food) : Food :=
  mkFood (f_id f) (f_x f) (f_y f) (f_radius f) (f_color f) (f_vx f) (f_vy f)
         (f_isEjected f) d.
Definition set_f_motion (x y vx vy : R) (f : Food) : Food :=
  mkFood (f_id f) x y (f_radius f) (f_color f) vx vy (f_isEjected f) (f_dead f).

Definition set_v_pos (x y : R) (v : Virus) : Virus :=
  mkVirus (v_id v) x y (v_radius v).

Definition set_p_cells (cs : list nat) (p : Player) : Player :=
  mkPlayer (p_id p) (p_name p) (p_skin p) (p_color p) (p_isBot p) cs
           (p_inputDir p) (p_mouseX p) (p_mouseY p) (p_hasMouseTarget p).
Definition set_p_inputDir (d : R * R) (p : Player) : Player :=
  mkPlayer (p_id p) (p_name p) (p_skin p) (p_color p) (p_isBot p) (p_cells p)
           d (p_mouseX p) (p_mouseY p) (p_hasMouseTarget p).
Definition set_p_mouse (mx my : R) (p : Player) : Player :=
  mkPlayer (p_id p) (p_name p) (p_skin p) (p_color p) (p_isBot p) (p_cells p)
           (p_inputDir p) mx my true.
Definition set_p_name (n : string) (p : Player) : Player :=
  mkPlayer (p_id p) n (p_skin p) (p_color p) (p_isBot p) (p_cells p)
           (p_inputDir p) (p_mouseX p) (p_mouseY p) (p_hasMouseTarget p).
Definition set_p_skin (s : R) (p : Player) : Player :=
  mkPlayer (p_id p) (p_name p) s (p_color p) (p_isBot p) (p_cells p)
           (p_inputDir p) (p_mouseX p) (p_mouseY p) (p_hasMouseTarget p).
Definition set_p_color (c : list R) (p : Player) : Player :=
  mkPlayer (p_id p) (p_name p) (p_skin p) c (p_isBot p) (p_cells p)
           (p_inputDir p) (p_mouseX p) (p_mouseY p) (p_hasMouseTarget p).

(** ** Quadtree *)

Record Box := mkBox { b_x : R; b_y : R; b_w : R; b_h : R }.

(** Objects stored in a quadtree expose [x] and [y]. *)
Class HasPos (A : Type) := { pos_x : A -> R; pos_y : A -> R }.

(** [Leaf] is a node with [divided = false], [Quad] one with
    [divided = true] and its four children [nw], [ne], [sw], [se]. *)
Inductive QuadTree (A : Type) : Type :=
| Leaf (boundary : Box) (capacity depth maxDepth : nat) (points : list A)
| Quad (boundary : Box) (capacity depth maxDepth : nat) (points : list A)
       (nw ne sw se : QuadTree A).
Arguments Leaf {A} _ _ _ _ _.
Arguments Quad {A} _ _ _ _ _ _ _ _ _.

Module QT.
Section Ops.
Context {A : Type} `{HasPos A}.

(** [new QuadTree(boundary, capacity, depth, maxDepth)] *)
Definition new (boundary : Box) (capacity depth maxDepth : nat) : QuadTree A :=
  Leaf boundary capacity depth maxDepth [].

Definition boundary (t : QuadTree A) : Box :=
  match t with Leaf b _ _ _ _ | Quad b _ _ _ _ _ _ _ _ => b end.
Definition capacity (t : QuadTree A) : nat :=
  match t with Leaf _ c _ _ _ | Quad _ c _ _ _ _ _ _ _ => c end.
Definition depth (t : QuadTree A) : nat :=
  match t with Leaf _ _ d _ _ | Quad _ _ d _ _ _ _ _ _ => d end.
Definition maxDepth (t : QuadTree A) : nat :=
  match t with Leaf _ _ _ m _ | Quad _ _ _ m _ _ _ _ _ => m end.
Definition points (t : QuadTree A) : list A :=
  match t with Leaf _ _ _ _ ps | Quad _ _ _ _ ps _ _ _ _ => ps end.

(** [this.points.push(obj)] *)
Definition push (t : QuadTree A) (obj : A) : QuadTree A :=
  match t with
  | Leaf b c d m ps => Leaf b c d m (ps ++ [obj])
  | Quad b c d m ps nw ne sw se => Quad b c d m (ps ++ [obj]) nw ne sw se
  end.

(** [subdivide()]: the four children are created empty; the node's own
    points stay where they are. *)
Definition subdivide (t : QuadTree A) : QuadTree A :=
  let b := boundary t in
  let x := b_x b in let y := b_y b in
  let hw := b_w b / 2 in
  let hh := b_h b / 2 in
  let child bx by_ :=
    new (mkBox bx by_ hw hh) (capacity t) (depth t + 1) (maxDepth t) in
  Quad b (capacity t) (depth t) (maxDepth t) (points t)
       (child (x - hw / 2) (y - hh / 2))
       (child (x + hw / 2) (y - hh / 2))
       (child (x - hw / 2) (y + hh / 2))
       (child (x + hw / 2) (y + hh / 2)).

(** The bounds test of [insert]: [true] when [obj] is outside. *)
Definition outside (b : Box) (obj : A) : bool :=
  Rltb (pos_x obj) (b_x b - b_w b / 2) ||
  Rgtb (pos_x obj) (b_x b + b_w b / 2) ||
  Rltb (pos_y obj) (b_y b - b_h b / 2) ||
  Rgtb (pos_y obj) (b_y b + b_h b / 2).

(** [insert(obj)]: returns the node after the call and the call's result.
    The recursion into freshly created children is not structural, so the
    function takes fuel; [None] means the fuel ran out. *)
Fixpoint insert (fuel : nat) (t : QuadTree A) (obj : A)
  : option (QuadTree A * bool) :=
  match fuel with
  | O => None
  | S fuel' =>
    if outside (boundary t) obj then Some (t, false)
    else if (length (points t) <? capacity t)%nat
            || (maxDepth t <=? depth t)%nat
    then Some (push t obj, true)
    else
      match (match t with Leaf _ _ _ _ _ => subdivide t | _ => t end) with
      | Leaf _ _ _ _ _ => None
      | Quad b c d m ps nw ne sw se =>
        '(nw', r1) ← insert fuel' nw obj;
        if (r1 : bool) then Some (Quad b c d m ps nw' ne sw se, true) else
        '(ne', r2) ← insert fuel' ne obj;
        if (r2 : bool) then Some (Quad b c d m ps nw' ne' sw se, true) else
        '(sw', r3) ← insert fuel' sw obj;
        if (r3 : bool) then Some (Quad b c d m ps nw' ne' sw' se, true) else
        '(se', r4) ← insert fuel' se obj;
        Some (Quad b c d m ps nw' ne' sw' se', r4)
      end
  end.

(** The pruning test of [queryRange]: [true] when the box misses the node. *)
Definition misses (range b : Box) : bool :=
  Rgtb (b_x range - b_w range / 2) (b_x b + b_w b / 2) ||
  Rltb (b_x range + b_w range / 2) (b_x b - b_w b / 2) ||
  Rgtb (b_y range - b_h range / 2) (b_y b + b_h b / 2) ||
  Rltb (b_y range + b_h range / 2) (b_y b - b_h b / 2).

(** The per-point test of [queryRange]. *)
Definition inRange (range : Box) (p : A) : bool :=
  Rgeb (pos_x p) (b_x range - b_w range / 2) &&
  Rleb (pos_x p) (b_x range + b_w range / 2) &&
  Rgeb (pos_y p) (b_y range - b_h range / 2) &&
  Rleb (pos_y p) (b_y range + b_h range / 2).

(** [queryRange(range, found)] *)
Fixpoint queryRange (t : QuadTree A) (range : Box) (found : list A) : list A :=
  if misses range (boundary t) then found
  else
    let found1 :=
      fold_left (fun acc p => if inRange range p then acc ++ [p] else acc)
                (points t) found in
    match t with
    | Leaf _ _ _ _ _ => found1
    | Quad _ _ _ _ _ nw ne sw se =>
      queryRange se range
        (queryRange sw range (queryRange ne range (queryRange nw range found1)))
    end.

End Ops.
End QT.

(** ** World state *)

Record World := mkWorld {
  players : list Player;   (* the [players] map, in insertion order *)
  heap : list Cell;        (* the cell objects, by reference *)
  foods : list Food;
  viruses : list Virus;
  nextPlayerId : N;
  nextFoodId : N;
  nextVirusId : N;
  nextBotId : N;
  draws : nat              (* calls of [Math.random()] made so far *)
}.

Definition set_players (ps : list Player) (w : World) : World :=
  mkWorld ps (heap w) (foods w) (viruses w)
          (nextPlayerId w) (nextFoodId w) (nextVirusId w) (nextBotId w) (draws w).
Definition set_heap (h : list Cell) (w : World) : World :=
  mkWorld (players w) h (foods w) (viruses w)
          (nextPlayerId w) (nextFoodId w) (nextVirusId w) (nextBotId w) (draws w).
Definition set_foods (fs : list Food) (w : World) : World :=
  mkWorld (players w) (heap w) fs (viruses w)
          (nextPlayerId w) (nextFoodId w) (nextVirusId w) (nextBotId w) (draws w).
Definition set_viruses (vs : list Virus) (w : World) : World :=
  mkWorld (players w) (heap w) (foods w) vs
          (nextPlayerId w) (nextFoodId w) (nextVirusId w) (nextBotId w) (draws w).
Definition set_nextPlayerId (n : N) (w : World) : World :=
  mkWorld (players w) (heap w) (foods w) (viruses w)
          n (nextFoodId w) (nextVirusId w) (nextBotId w) (draws w).
Definition set_nextFoodId (n : N) (w : World) : World :=
  mkWorld (players w) (heap w) (foods w) (viruses w)
          (nextPlayerId w) n (nextVirusId w) (nextBotId w) (draws w).
Definition set_nextVirusId (n : N) (w : World) : World :=
  mkWorld (players w) (heap w) (foods w) (viruses w)
          (nextPlayerId w) (nextFoodId w) n (nextBotId w) (draws w).
Definition set_nextBotId (n : N) (w : World) : World :=
  mkWorld (players w) (heap w) (foods w) (viruses w)
          (nextPlayerId w) (nextFoodId w) (nextVirusId w) n (draws w).
Definition set_draws (n : nat) (w : World) : World :=
  mkWorld (players w) (heap w) (foods w) (viruses w)
          (nextPlayerId w) (nextFoodId w) (nextVirusId w) (nextBotId w) n.

(** The state before [initWorld()]. *)
Definition emptyWorld : World := mkWorld [] [] [] [] 1%N 1%N 1%N 10000%N 0.

(** Creating a cell object: it is appended to the store and its reference
    returned. *)
Definition alloc (c : Cell) (w : World) : nat * World :=
  (length (heap w), set_heap (heap w ++ [c]) w).

(** Writing through a reference. *)
Definition store (ref : nat) (c : Cell) (w : World) : World :=
  set_heap (<[ref := c]> (heap w)) w.

(** Replacing the player object at a position of the map. *)
Definition set_player (pi : nat) (p : Player) (w : World) : World :=
  set_players (<[pi := p]> (players w)) w.

(** [players.get(id)], as a position in the map. *)
Definition players_index (id : N) (ps : list Player) : option nat :=
  fst <$> list_find (fun p => p_id p = id) ps.

(** [players.set(id, player)]: an existing key keeps its place. *)
Definition players_set (id : N) (p : Player) (ps : list Player) : list Player :=
  match players_index id ps with
  | Some i => <[i := p]> ps
  | None => ps ++ [p]
  end.

(** [players.delete(id)] *)
Definition players_delete (id : N) (ps : list Player) : list Player :=
  filter (fun p => p_id p <> id) ps.

Section Server.

(** The values returned by successive calls of [Math.random()]. *)
Variable rnd : nat -> R.

Definition random (w : World) : R * World :=
  (rnd (draws w), set_draws (S (draws w)) w).

(** [randPos()] *)
Definition randPos (w : World) : R * World :=
  let '(r, w) := random w in ((r - 0.5) * WORLD_SIZE, w).

(** ** World generation *)

(** [createFood(isEjected, x, y, vx, vy)]; [None] for [x] or [y] stands
    for an omitted argument, whose default [randPos()] is evaluated at the
    call, before the body. *)
Definition createFood (isEjected : bool) (ox oy : option R) (vx vy : R)
           (w : World) : Food * World :=
  let '(x, w) := match ox with Some x => (x, w) | None => randPos w end in
  let '(y, w) := match oy with Some y => (y, w) | None => randPos w end in
  let id := nextFoodId w in
  let w := set_nextFoodId (N.succ id) w in
  let '(color, w) :=
    if isEjected then ([1; 1; 1], w)
    else
      let '(r, w) := random w in
      let '(g, w) := random w in
      let '(b, w) := random w in
      ([r; g; b], w) in
  (mkFood id x y FOOD_RADIUS color vx vy isEjected false, w).

(** [createVirus()] with both positions defaulted. *)
Definition createVirus (w : World) : Virus * World :=
  let '(x, w) := randPos w in
  let '(y, w) := randPos w in
  let id := nextVirusId w in
  (mkVirus id x y VIRUS_RADIUS, set_nextVirusId (N.succ id) w).

Definition pushFood (w : World) : World :=
  let '(f, w) := createFood false None None 0 0 w in
  set_foods (foods w ++ [f]) w.

Definition pushVirus (w : World) : World :=
  let '(v, w) := createVirus w in
  set_viruses (viruses w ++ [v]) w.

(** [initWorld()] *)
Definition initWorld (w : World) : World :=
  let w := set_viruses [] (set_foods [] w) in
  let w := Nat.iter FOOD_COUNT pushFood w in
  Nat.iter VIRUS_COUNT pushVirus w.

(** ** Players and bots *)

(** The cell of a new player; [x] then [y] are drawn. *)
Definition firstCell (w : World) : nat * World :=
  let '(x, w) := randPos w in
  let '(y, w) := randPos w in
  alloc (mkCell x y 40 0 0 MERGE_TIME) w.

(** [createPlayer(id)] with [skin] defaulted. *)
Definition createPlayer (id : N) (w : World) : Player * World :=
  let '(r, w) := random w in
  let '(g, w) := random w in
  let '(b, w) := random w in
  let '(c, w) := firstCell w in
  (mkPlayer id ("Player " ++ pretty id) (-1) [r; g; b] false [c]
            (0, 0) 0 0 false, w).

(** [createBot(id)] *)
Definition createBot (id : N) (w : World) : Player * World :=
  let '(r, w) := random w in
  let '(g, w) := random w in
  let '(b, w) := random w in
  let '(c, w) := firstCell w in
  (mkPlayer id ("Bot_" ++ pretty id) (-1) [r; g; b] true [c]
            (0, 0) 0 0 false, w).

Definition spawnBot (w : World) : World :=
  let id := nextBotId w in
  let w := set_nextBotId (N.succ id) w in
  let '(bot, w) := createBot id w in
  set_players (players_set id bot (players w)) w.

(** [spawnBots()] *)
Definition spawnBots (w : World) : World := Nat.iter BOT_COUNT spawnBot w.

(** The [connection] handler of the socket server, without its sends. *)
Definition connect (w : World) : World :=
  let id := nextPlayerId w in
  let w := set_nextPlayerId (N.succ id) w in
  let '(player, w) := createPlayer id w in
  set_players (players_set id player (players w)) w.

(** The [close] handler of a connection whose player is [id]. *)
Definition close (id : N) (w : World) : World :=
  set_players (players_delete id (players w)) w.

(** ** Game logic *)

(** The body of the loop of [splitPlayer] for one cell. *)
Definition splitCell (dx dy len : R) (ref : nat) (acc : World * list nat)
  : World * list nat :=
  let '(w, newCells) := acc in
  match heap w !! ref with
  | None => acc
  | Some cell =>
    if Rltb (c_radius cell) 10 then acc
    else
      let newRadius := c_radius cell * 0.5 in
      let cell := set_c_radius newRadius cell in
      let cell := set_c_mergeTimer MERGE_TIME cell in
      let spacing := newRadius * 2.5 in
      let cell := set_c_pos (c_x cell - (dx / len) * spacing * 0.3)
                            (c_y cell - (dy / len) * spacing * 0.3) cell in
      let w := store ref cell w in
      let '(new, w) :=
        alloc (mkCell (c_x cell + (dx / len) * spacing)
                      (c_y cell + (dy / len) * spacing)
                      newRadius
                      ((dx / len) * SPLIT_SPEED)
                      ((dy / len) * SPLIT_SPEED)
                      MERGE_TIME) w in
      (w, newCells ++ [new])
  end.

(** [splitPlayer(player)], the player given by its position in the map. *)
Definition splitPlayer (pi : nat) (w : World) : World :=
  match players w !! pi with
  | None => w
  | Some player =>
    let '(dx, dy) := p_inputDir player in
    let len := or_one (hypot dx dy) in
    let '(w, newCells) :=
      fold_left (fun acc ref => splitCell dx dy len ref acc)
                (p_cells player) (w, []) in
    if (0 <? length newCells)%nat
    then set_player pi (set_p_cells (p_cells player ++ newCells) player) w
    else w
  end.

(** The body of the loop of [ejectMass] for one cell. *)
Definition ejectCell (dx dy len : R) (w : World) (ref : nat) : World :=
  match heap w !! ref with
  | None => w
  | Some cell =>
    if Rltb (c_radius cell) 35 then w
    else
      let area := cellAreaFromRadius (c_radius cell) in
      let ejectArea := cellAreaFromRadius FOOD_RADIUS * 2 in
      let newArea := area - ejectArea in
      if Rleb newArea 0 then w
      else
        let cell := set_c_radius (radiusFromArea newArea) cell in
        let w := store ref cell w in
        let speed := 900 in
        let fx := c_x cell + (dx / len) * (c_radius cell + FOOD_RADIUS + 2) in
        let fy := c_y cell + (dy / len) * (c_radius cell + FOOD_RADIUS + 2) in
        let '(f, w) :=
          createFood true (Some fx) (Some fy)
                     ((dx / len) * speed) ((dy / len) * speed) w in
        set_foods (foods w ++ [f]) w
  end.

(** [ejectMass(player)] *)
Definition ejectMass (pi : nat) (w : World) : World :=
  match players w !! pi with
  | None => w
  | Some player =>
    let '(dx, dy) := p_inputDir player in
    let len := or_one (hypot dx dy) in
    if Reqb len 0 then w
    else fold_left (ejectCell dx dy len) (p_cells player) w
  end.

(** The number of fragments of an exploding cell. *)
Definition pieceCount (totalArea : R) : Z :=
  Z.min MAX_VIRUS_PIECES (Z.max 8 (floor (totalArea / 2000))).

(** The body of the loop of [explodeCellIntoMany] for fragment [i]. *)
Definition explodePiece (cell : Cell) (pieces : Z) (pieceRadius minDistance : R)
           (acc : World * list nat) (i : nat) : World * list nat :=
  let '(w, newCells) := acc in
  let angle := (2 * PI * INR i) / IZR pieces in
  let speed := 200 in
  let '(r, w) := random w in
  let distance := minDistance * (0.8 + r * 0.4) in
  let offsetX := cos angle * distance in
  let offsetY := sin angle * distance in
  let '(new, w) :=
    alloc (mkCell (c_x cell + offsetX) (c_y cell + offsetY) pieceRadius
                  (cos angle * speed) (sin angle * speed)
                  (MERGE_TIME * 1.2)) w in
  (w, newCells ++ [new]).

(** [explodeCellIntoMany(player, cell)], the cell given by reference. *)
Definition explodeCellIntoMany (pi : nat) (ref : nat) (w : World) : World :=
  match players w !! pi, heap w !! ref with
  | Some _, Some cell =>
    let totalArea := cellAreaFromRadius (c_radius cell) in
    let pieces := pieceCount totalArea in
    let pieceArea := totalArea / IZR pieces in
    let pieceRadius := radiusFromArea pieceArea in
    let minDistance := pieceRadius * 3 in
    let '(w, newCells) :=
      fold_left (explodePiece cell pieces pieceRadius minDistance)
                (seq 0 (Z.to_nat pieces)) (w, []) in
    match players w !! pi with
    | Some player =>
      let kept := filter (fun c => c <> ref) (p_cells player) in
      set_player pi (set_p_cells (kept ++ newCells) player) w
    | None => w
    end
  | _, _ => w
  end.

(** ** Bot AI *)

(** A candidate [{x, y, dist2}] replaces the current best when there is
    none or when it is strictly nearer. *)
Definition nearer (x y dist2 : R) (best : option (R * R * R))
  : option (R * R * R) :=
  match best with
  | None => Some (x, y, dist2)
  | Some (_, _, d) => if Rltb dist2 d then Some (x, y, dist2) else best
  end.

(** The scan of one cell of another player in [botThink]. *)
Definition botSeesCell (w : World) (my : Cell)
           (acc : option (R * R * R) * option (R * R * R)) (ref : nat)
  : option (R * R * R) * option (R * R * R) :=
  let '(target, flee) := acc in
  match heap w !! ref with
  | None => acc
  | Some c =>
    let dx := c_x c - c_x my in
    let dy := c_y c - c_y my in
    let dist2 := dx * dx + dy * dy in
    if Rgtb (c_radius c) (c_radius my * 1.2)
    then (target, nearer (c_x c) (c_y c) dist2 flee)
    else if Rltb (c_radius c) (c_radius my * 0.8)
    then (nearer (c_x c) (c_y c) dist2 target, flee)
    else acc
  end.

(** [botThink(bot)] *)
Definition botThink (pi : nat) (w : World) : World :=
  match players w !! pi with
  | None => w
  | Some bot =>
    match p_cells bot with
    | [] => w
    | r0 :: _ =>
      match heap w !! r0 with
      | None => w
      | Some my =>
        let target :=
          fold_left
            (fun target f =>
               let dx := f_x f - c_x my in
               let dy := f_y f - c_y my in
               nearer (f_x f) (f_y f) (dx * dx + dy * dy) target)
            (foods w) None in
        let '(target, flee) :=
          fold_left
            (fun acc '(i, p) =>
               if (i =? pi)%nat then acc
               else fold_left (botSeesCell w my) (p_cells p) acc)
            (imap pair (players w)) (target, None) in
        let '(vx, vy) :=
          match flee, target with
          | Some (fx, fy, _), _ => (c_x my - fx, c_y my - fy)
          | None, Some (tx, ty, _) => (tx - c_x my, ty - c_y my)
          | None, None => (0, 0)
          end in
        let len := or_one (hypot vx vy) in
        let w := set_player pi (set_p_inputDir (vx / len, vy / len) bot) w in
        match target with
        | None => w
        | Some _ =>
          let '(r, w) := random w in
          if Rltb r 0.01 then splitPlayer pi w else w
        end
      end
    end
  end.

(** ** Message handling *)

(** A decoded message. [MInput None] is an [input] whose [dir] is not an
    array; the elements of [dir] are given after [Number(v) || 0].
    [MOther] stands for every other [type] (and for text that is not
    JSON, which is dropped the same way). *)
Inductive Msg :=
| MJoin (name : option string) (skin : option R) (color : option (list R))
| MInput (dir : option (list R))
| MSplit
| MEject
| MOther.

(** [handleMessage(ws, raw)]; [id] is [clients.get(ws)], [None] when the
    socket is unknown. *)
Definition handleMessage (id : option N) (msg : Msg) (w : World) : World :=
  match id with
  | None => w
  | Some id =>
    if (id =? 0)%N then w
    else
      match players_index id (players w) with
      | None => w
      | Some pi =>
        match players w !! pi with
        | None => w
        | Some player =>
          match msg with
          | MJoin name skin color =>
            let player :=
              match name with
              | Some n =>
                if (0 <? String.length n)%nat
                then set_p_name (substring 0 16 n) player else player
              | None => player
              end in
            let player :=
              match skin with
              | Some s => set_p_skin s player
              | None => player
              end in
            let player :=
              match color with
              | Some c => set_p_color c player
              | None => player
              end in
            set_player pi player w
          | MInput (Some [d0; d1]) =>
            let player := set_p_inputDir (d0, d1) player in
            let dirLen := sqrt (d0 ^ 2 + d1 ^ 2) in
            let player :=
              if Rgtb dirLen 0 then
                match p_cells player with
                | [] => player
                | r0 :: _ =>
                  match heap w !! r0 with
                  | None => player
                  | Some firstCell =>
                    let mouseDistance := 100 in
                    set_p_mouse (c_x firstCell + d0 * mouseDistance)
                                (c_y firstCell + d1 * mouseDistance) player
                  end
                end
              else player in
            set_player pi player w
          | MInput _ => w
          | MSplit => splitPlayer pi w
          | MEject => ejectMass pi w
          | MOther => w
          end
        end
      end
  end.

(** ** The tick *)

(** The positions of the [players] map, for a loop over
    [players.values()] whose body replaces player objects' fields. *)
Definition playerIndexes (w : World) : list nat := seq 0 (length (players w)).

(** *** Bots *)
Definition thinkBots (w : World) : World :=
  fold_left
    (fun w pi =>
       match players w !! pi with
       | Some p => if p_isBot p then botThink pi w else w
       | None => w
       end)
    (playerIndexes w) w.

(** *** Ejected food *)
Definition moveFood (dt : R) (f : Food) : Food :=
  if f_isEjected f
  then set_f_motion (f_x f + f_vx f * dt) (f_y f + f_vy f * dt)
                    (f_vx f * 0.85) (f_vy f * 0.85) f
  else f.

Definition moveFoods (dt : R) (w : World) : World :=
  set_foods (map (moveFood dt) (foods w)) w.

(** *** Movement *)
Definition worldHalf : R := WORLD_SIZE / 2.

(** The body of the movement loop for one cell [c] of player [p]. *)
Definition moveCell (dt : R) (p : Player) (c : Cell) : Cell :=
  let sizeFactor := sqrt (c_radius c / 40) in
  let speed := BASE_SPEED / sizeFactor in
  let c :=
    if p_hasMouseTarget p then
      let dx := p_mouseX p - c_x c in
      let dy := p_mouseY p - c_y c in
      let distToMouse := sqrt (dx * dx + dy * dy) in
      if Rgtb distToMouse (c_radius c * 0.5) then
        let normX := dx / distToMouse in
        let normY := dy / distToMouse in
        set_c_vel (c_vx c + normX * speed * dt * TARGET_SPEED_MULTIPLIER)
                  (c_vy c + normY * speed * dt * TARGET_SPEED_MULTIPLIER) c
      else set_c_vel (c_vx c * 0.7) (c_vy c * 0.7) c
    else
      let '(dx, dy) := p_inputDir p in
      let dirLen := or_one (hypot dx dy) in
      set_c_vel (c_vx c + (dx / dirLen) * speed * dt)
                (c_vy c + (dy / dirLen) * speed * dt) c in
  let c := set_c_pos (c_x c + c_vx c * dt) (c_y c + c_vy c * dt) c in
  let c := set_c_vel (c_vx c * 0.86) (c_vy c * 0.86) c in
  let c :=
    set_c_pos
      (Rmax (- worldHalf + c_radius c) (Rmin (worldHalf - c_radius c) (c_x c)))
      (Rmax (- worldHalf + c_radius c) (Rmin (worldHalf - c_radius c) (c_y c)))
      c in
  set_c_mergeTimer (c_mergeTimer c - dt) c.

Definition moveRef (dt : R) (p : Player) (w : World) (ref : nat) : World :=
  match heap w !! ref with
  | Some c => store ref (moveCell dt p c) w
  | None => w
  end.

Definition movePlayer (dt : R) (w : World) (p : Player) : World :=
  fold_left (moveRef dt p) (p_cells p) w.

Definition movePlayers (dt : R) (w : World) : World :=
  fold_left (movePlayer dt) (players w) w.

(** *** Spatial index *)

(** [insert] with the fuel a node of this depth needs. *)
Definition qtInsert {A} `{HasPos A} (t : QuadTree A) (obj : A) : QuadTree A :=
  match QT.insert (S (QT.maxDepth t - QT.depth t)) t obj with
  | Some (t', _) => t'
  | None => t
  end.

Definition worldBox : Box := mkBox 0 0 WORLD_SIZE WORLD_SIZE.

(** A reference to a food object held by the index: the position of the
    object in [foods] and the object as it was when inserted. [x] and [y]
    do not change while the index lives; [dead] and [radius] are read
    from the live object. *)
#[global] Instance food_pos : HasPos (nat * Food) :=
  {| pos_x := fun e => f_x (snd e); pos_y := fun e => f_y (snd e) |}.

Definition buildFoodTree (w : World) : QuadTree (nat * Food) :=
  fold_left qtInsert (imap pair (foods w)) (QT.new worldBox 10 0 8).

(** *** Eating food *)

(** The body of the loop over [nearby] for the cell [ref]. *)
Definition eatFood (ref : nat) (w : World) (e : nat * Food) : World :=
  match foods w !! (fst e), heap w !! ref with
  | Some f, Some c =>
    if f_dead f then w
    else
      let dx := c_x c - f_x f in
      let dy := c_y c - f_y f in
      if Rltb (dx * dx + dy * dy) ((c_radius c + f_radius f) ^ 2) then
        let areaC := cellAreaFromRadius (c_radius c) in
        let areaF := cellAreaFromRadius (f_radius f) in
        let w := store ref (set_c_radius (radiusFromArea (areaC + areaF)) c) w in
        set_foods (<[fst e := set_f_dead true f]> (foods w)) w
      else w
  | _, _ => w
  end.

Definition cellRange (c : Cell) : Box :=
  mkBox (c_x c) (c_y c) (c_radius c * 4) (c_radius c * 4).

Definition eatFoodsCell (qtFood : QuadTree (nat * Food)) (w : World) (ref : nat)
  : World :=
  match heap w !! ref with
  | Some c =>
    let nearby := QT.queryRange qtFood (cellRange c) [] in
    fold_left (eatFood ref) nearby w
  | None => w
  end.

Definition eatFoods (qtFood : QuadTree (nat * Food)) (w : World) : World :=
  fold_left (fun w p => fold_left (eatFoodsCell qtFood) (p_cells p) w)
            (players w) w.

(** [while (foods.length < FOOD_COUNT) foods.push(createFood(false))];
    every round adds one pellet, so [FOOD_COUNT] rounds are enough
    ([refill_done]). *)
Fixpoint refill (fuel : nat) (w : World) : World :=
  match fuel with
  | O => w
  | S fuel' =>
    if (length (foods w) <? FOOD_COUNT)%nat then refill fuel' (pushFood w)
    else w
  end.

Definition replenish (w : World) : World :=
  let w := set_foods (filter (fun f => f_dead f = false) (foods w)) w in
  refill FOOD_COUNT w.

(** *** Cells eating cells *)

(** An element [{player, cell, x, y, radius}] of [allCells]: the player
    by its position in the map, the cell by reference, and the copies of
    the cell's position and radius taken when the element was built. *)
Record Item := mkItem {
  i_player : nat; i_cell : nat; i_x : R; i_y : R; i_radius : R
}.

(** A reference to an element of [allCells] held by the index: its
    position in [allCells] and the element (which is never modified). *)
#[global] Instance item_pos : HasPos (nat * Item) :=
  {| pos_x := fun e => i_x (snd e); pos_y := fun e => i_y (snd e) |}.

Definition collectCells (w : World) : list Item :=
  fold_left
    (fun acc '(pi, p) =>
       fold_left
         (fun acc ref =>
            match heap w !! ref with
            | Some c => acc ++ [mkItem pi ref (c_x c) (c_y c) (c_radius c)]
            | None => acc
            end)
         (p_cells p) acc)
    (imap pair (players w)) [].

Definition buildCellTree (allCells : list Item) : QuadTree (nat * Item) :=
  fold_left qtInsert (imap pair allCells) (QT.new worldBox 8 0 8).

(** [array.indexOf(ref)] *)
Definition indexOf (ref : nat) (l : list nat) : option nat :=
  fst <$> list_find (fun r => r = ref) l.

(** What a successful eat does: the eater [refA] takes the area of
    [refB], and [refB] leaves the cells of player [pB] if it is still
    among them. *)
Definition consume (refA refB pB : nat) (cA cB : Cell) (w : World) : World :=
  let areaA := cellAreaFromRadius (c_radius cA) in
  let areaB := cellAreaFromRadius (c_radius cB) in
  let newArea := areaA + areaB in
  let w := store refA (set_c_radius (radiusFromArea newArea) cA) w in
  match players w !! pB with
  | Some playerB =>
    match indexOf refB (p_cells playerB) with
    | Some cellIndex =>
      set_player pB (set_p_cells (delete cellIndex (p_cells playerB)) playerB) w
    | None => w
    end
  | None => w
  end.

(** The body of the loop over [nearby] for the element [item], the
    [k]-th of [allCells]. *)
Definition eatCell (k : nat) (item : Item) (w : World) (other : nat * Item)
  : World :=
  if (fst other =? k)%nat then w
  else
    let pA := i_player item in
    let pB := i_player (snd other) in
    if (pA =? pB)%nat then w
    else
      match heap w !! i_cell item, heap w !! i_cell (snd other) with
      | Some cA, Some cB =>
        if Rleb (c_radius cA) (c_radius cB * 1.15) then w
        else
          let dx := c_x cA - c_x cB in
          let dy := c_y cA - c_y cB in
          let dist2 := dx * dx + dy * dy in
          let minDist := c_radius cA - c_radius cB * 0.25 in
          if Rltb dist2 (minDist * minDist)
          then consume (i_cell item) (i_cell (snd other)) pB cA cB w
          else w
      | _, _ => w
      end.

Definition eatCellsItem (qtCells : QuadTree (nat * Item)) (w : World)
           (e : nat * Item) : World :=
  let '(k, item) := e in
  match heap w !! i_cell item with
  | Some cA =>
    let nearby := QT.queryRange qtCells (cellRange cA) [] in
    fold_left (eatCell k item) nearby w
  | None => w
  end.

Definition eatCells (w : World) : World :=
  let allCells := collectCells w in
  let qtCells := buildCellTree allCells in
  fold_left (eatCellsItem qtCells) (imap pair allCells) w.

(** *** Viruses *)

(** The body of the loop over [viruses] for the cell [ref] of the player
    at [pi]. *)
Definition hitVirus (pi ref : nat) (w : World) (vi : nat) : World :=
  match heap w !! ref, viruses w !! vi with
  | Some c, Some v =>
    let dx := c_x c - v_x v in
    let dy := c_y c - v_y v in
    if Rltb (dx * dx + dy * dy) ((c_radius c + v_radius v) ^ 2) then
      if Rgtb (c_radius c) (v_radius v * 1.1) then
        let w := explodeCellIntoMany pi ref w in
        let '(x, w) := randPos w in
        let '(y, w) := randPos w in
        set_viruses (<[vi := set_v_pos x y v]> (viruses w)) w
      else w
    else w
  | _, _ => w
  end.

Definition hitViruses (pi : nat) (w : World) (ref : nat) : World :=
  fold_left (hitVirus pi ref) (seq 0 (length (viruses w))) w.

(** The loop over [p.cells] runs over the array the player had when the
    loop started: an explosion gives the player a new array. *)
Definition virusesPlayer (w : World) (pi : nat) : World :=
  match players w !! pi with
  | Some p => fold_left (hitViruses pi) (p_cells p) w
  | None => w
  end.

Definition virusPass (w : World) : World :=
  fold_left virusesPlayer (playerIndexes w) w.

(** *** Merging own cells *)

(** The body of the inner loop for the pair [(i, j)]: the world after it
    and the value [j] has after the loop's [j++]. *)
Definition mergePair (pi i j : nat) (w : World) : World * nat :=
  match players w !! pi with
  | None => (w, S j)
  | Some p =>
    match p_cells p !! i, p_cells p !! j with
    | Some ra, Some rb =>
      match heap w !! ra, heap w !! rb with
      | Some a, Some b =>
        if Rgtb (c_mergeTimer a) 0 || Rgtb (c_mergeTimer b) 0 then (w, S j)
        else
          let dx := c_x a - c_x b in
          let dy := c_y a - c_y b in
          let dist2 := dx * dx + dy * dy in
          if Rltb dist2 ((c_radius a + c_radius b) ^ 2) then
            let areaA := cellAreaFromRadius (c_radius a) in
            let areaB := cellAreaFromRadius (c_radius b) in
            let w := store ra (set_c_radius (radiusFromArea (areaA + areaB)) a) w in
            (set_player pi (set_p_cells (delete j (p_cells p)) p) w, j)
          else (w, S j)
      | _, _ => (w, S j)
      end
    | _, _ => (w, S j)
    end
  end.

Definition cellCount (pi : nat) (w : World) : nat :=
  match players w !! pi with
  | Some p => length (p_cells p)
  | None => 0
  end.

(** [for (let j = ...; j < p.cells.length; j++)]: every round either
    advances [j] or shortens the array, so [cellCount - j] rounds are
    enough ([mergeInner_fuel]). *)
Fixpoint mergeInner (fuel : nat) (pi i j : nat) (w : World) : World :=
  match fuel with
  | O => w
  | S fuel' =>
    if (j <? cellCount pi w)%nat then
      let '(w', j') := mergePair pi i j w in
      mergeInner fuel' pi i j' w'
    else w
  end.

(** [for (let i = 0; i < p.cells.length; i++)] *)
Fixpoint mergeOuter (fuel : nat) (pi i : nat) (w : World) : World :=
  match fuel with
  | O => w
  | S fuel' =>
    if (i <? cellCount pi w)%nat then
      mergeOuter fuel' pi (S i) (mergeInner (cellCount pi w) pi i (S i) w)
    else w
  end.

Definition mergePlayer (w : World) (pi : nat) : World :=
  if (cellCount pi w <=? 1)%nat then w
  else mergeOuter (cellCount pi w) pi 0 w.

Definition mergePass (w : World) : World :=
  fold_left mergePlayer (playerIndexes w) w.

(** *** [update(dt)]

    The passes in the order of the source. [broadcastState()] only reads
    the world and is not part of the state transformer. *)
Definition update (dt : R) (w : World) : World :=
  let w := thinkBots w in
  let w := moveFoods dt w in
  let w := movePlayers dt w in
  let qtFood := buildFoodTree w in
  let w := eatFoods qtFood w in
  let w := replenish w in
  let w := eatCells w in
  let w := virusPass w in
  mergePass w.

(** [calculateScoreFromCells(cells)] *)
Definition calculateScoreFromCells (w : World) (cells : list nat) : Z :=
  match cells with
  | [] => 0%Z
  | _ =>
    let totalArea :=
      fold_left
        (fun totalArea ref =>
           match heap w !! ref with
           | Some cell => totalArea + cellAreaFromRadius (c_radius cell)
           | None => totalArea
           end)
        cells 0 in
    floor (totalArea / 10)
  end.

End Server.

(** ** Example data

    Concrete cells, pellets and worlds on which the theorems below are
    instantiated. *)

Definition exCell (x y r : R) (t : R) : Cell := mkCell x y r 0 0 t.
Definition exFood (x y : R) : Food := mkFood 1 x y FOOD_RADIUS [1; 1; 1] 0 0 false false.
Definition exPlayer (id : N) (cells : list nat) : Player :=
  mkPlayer id "Player" (-1) [0; 0; 0] false cells (0, 0) 0 0 false.

(** One player with a radius-40 cell on a pellet. *)
Definition exWorldFood : World :=
  mkWorld [exPlayer 1 [0%nat]] [exCell 0 0 40 10] [exFood 0 0] [] 2 2 1 10000 0.

(** Two players, a radius-12 cell over a radius-10 cell. *)
Definition exWorldEat : World :=
  mkWorld [exPlayer 1 [0%nat]; exPlayer 2 [1%nat]]
          [exCell 0 0 12 10; exCell 1 0 10 10] [] [] 3 1 1 10000 0.

(** One player with two overlapping cells whose merge timers have run out. *)
Definition exWorldMerge : World :=
  mkWorld [exPlayer 1 [0%nat; 1%nat]]
          [exCell 0 0 20 (-1); exCell 10 0 20 0] [] [] 2 1 1 10000 0.

(** One player steering along [(1, 0)] with one radius-40 cell. *)
Definition exWorldSplit : World :=
  mkWorld [mkPlayer 1 "Player" (-1) [0; 0; 0] false [0%nat] (1, 0) 0 0 false]
          [exCell 0 0 40 3] [] [] 2 1 1 10000 0.

(** ** Derived quantities *)

(** The total area of the cells behind a list of references. *)
Definition cellsArea (w : World) (refs : list nat) : R :=
  foldr (fun ref acc =>
           match heap w !! ref with
           | Some c => cellAreaFromRadius (c_radius c) + acc
           | None => acc
           end) 0 refs.

(** The total area of the cells of the player at position [pi]. *)
Definition playerArea (pi : nat) (w : World) : R :=
  match players w !! pi with
  | Some p => cellsArea w (p_cells p)
  | None => 0
  end.

(** ** Quadtree: derived notions *)

Section QuadTreeSpec.
Context {A : Type} `{HasPos A}.

(** Every object held by a tree, node by node. *)
Fixpoint qt_elems (t : QuadTree A) : list A :=
  match t with
  | Leaf _ _ _ _ ps => ps
  | Quad _ _ _ _ ps nw ne sw se =>
    ps ++ qt_elems nw ++ qt_elems ne ++ qt_elems sw ++ qt_elems se
  end.

(** The children of a node are one level deeper and share its
    [maxDepth], as [subdivide] makes them. *)
Fixpoint qt_wf (t : QuadTree A) : Prop :=
  match t with
  | Leaf _ _ _ _ _ => True
  | Quad _ _ d m _ nw ne sw se =>
    (QT.depth nw = (d + 1)%nat /\ QT.maxDepth nw = m /\ qt_wf nw) /\
    (QT.depth ne = (d + 1)%nat /\ QT.maxDepth ne = m /\ qt_wf ne) /\
    (QT.depth sw = (d + 1)%nat /\ QT.maxDepth sw = m /\ qt_wf sw) /\
    (QT.depth se = (d + 1)%nat /\ QT.maxDepth se = m /\ qt_wf se)
  end.

(** Every object held at or below a node lies within the node's
    boundary. *)
Fixpoint qt_bounded (t : QuadTree A) : Prop :=
  match t with
  | Leaf b _ _ _ ps => Forall (fun p => QT.outside b p = false) ps
  | Quad b _ _ _ ps nw ne sw se =>
    Forall (fun p => QT.outside b p = false)
           (ps ++ qt_elems nw ++ qt_elems ne ++ qt_elems sw ++ qt_elems se) /\
    qt_bounded nw /\ qt_bounded ne /\ qt_bounded sw /\ qt_bounded se
  end.

(** One [insert] call of a sequence: the tree after it, and its result
    appended to the results so far. *)
Definition insertStep (acc : QuadTree A * list bool) (obj : A)
  : QuadTree A * list bool :=
  let '(t, results) := acc in
  match QT.insert (S (QT.maxDepth t - QT.depth t)) t obj with
  | Some (t', r) => (t', results ++ [r])
  | None => (t, results ++ [false])
  end.

(** A sequence of [insert] calls on a tree, with the result of each. *)
Definition insertAll (t : QuadTree A) (objs : list A) : QuadTree A * list bool :=
  fold_left insertStep objs (t, []).

(** The children of a node are its four quadrants, as [subdivide] makes
    them. *)
Fixpoint qt_grid (t : QuadTree A) : Prop :=
  match t with
  | Leaf _ _ _ _ _ => True
  | Quad b _ _ _ _ nw ne sw se =>
    let hw := b_w b / 2 in
    let hh := b_h b / 2 in
    (QT.boundary nw = mkBox (b_x b - hw / 2) (b_y b - hh / 2) hw hh /\ qt_grid nw) /\
    (QT.boundary ne = mkBox (b_x b + hw / 2) (b_y b - hh / 2) hw hh /\ qt_grid ne) /\
    (QT.boundary sw = mkBox (b_x b - hw / 2) (b_y b + hh / 2) hw hh /\ qt_grid sw) /\
    (QT.boundary se = mkBox (b_x b + hw / 2) (b_y b + hh / 2) hw hh /\ qt_grid se)
  end.

(** The node on which [insert] recurses: subdivided if it was not. *)
Definition divided (t : QuadTree A) : QuadTree A :=
  match t with Leaf _ _ _ _ _ => QT.subdivide t | _ => t end.

End QuadTreeSpec.

(** Points of the plane as quadtree objects. *)
#[global] Instance point_pos : HasPos (R * R) := {| pos_x := fst; pos_y := snd |}.

(** ** Merge gating *)

(** The cell behind [ref] is still barred from merging. *)
Definition gated (w : World) (ref : nat) : bool :=
  match heap w !! ref with
  | Some c => Rgtb (c_mergeTimer c) 0
  | None => false
  end.

(** What a merge sweep of the player at [pi] leaves alone: which cells are
    gated, the gated cells themselves, and their places among the
    player's cells. *)
Definition mergeKeeps (pi : nat) (w w' : World) : Prop :=
  (forall r, gated w' r = gated w r) /\
  (forall r c, heap w !! r = Some c -> 0 < c_mergeTimer c -> heap w' !! r = Some c) /\
  (forall p, players w !! pi = Some p ->
             exists p', players w' !! pi = Some p' /\
                        filter (fun r => gated w r = true) (p_cells p')
                        = filter (fun r => gated w r = true) (p_cells p)).

(** Two cells that the merge test accepts: both timers have run out and
    the circles overlap. *)
Definition mergeReady (w : World) (ra rb : nat) : Prop :=
  exists a b,
    heap w !! ra = Some a /\ heap w !! rb = Some b /\
    c_mergeTimer a <= 0 /\ c_mergeTimer b <= 0 /\
    0 <= c_radius a /\ 0 <= c_radius b /\
    (c_x a - c_x b) * (c_x a - c_x b) + (c_y a - c_y b) * (c_y a - c_y b)
      < (c_radius a + c_radius b) ^ 2.

(** The sweep of the player at [pi] stands before the pair [(i, j)] and has
    not yet tested the cells [ra] and [rb] against each other. *)
Definition mergeWaiting (pi ra rb i j : nat) (w : World) : Prop :=
  exists p ka kb,
    players w !! pi = Some p /\ NoDup (p_cells p) /\
    p_cells p !! ka = Some ra /\ p_cells p !! kb = Some rb /\
    (ka < kb)%nat /\
    ((i < ka)%nat \/ (ka = i /\ (j <= kb)%nat)) /\
    mergeReady w ra rb.

(** One of the two cells is no longer among the cells of the player. *)
Definition mergedAway (pi ra rb : nat) (w : World) : Prop :=
  exists p, players w !! pi = Some p /\ (ra ∉ p_cells p \/ rb ∉ p_cells p).

(** One player with three cells in a row, each overlapping the next, all
    merge timers run out. *)
Definition exWorldThree : World :=
  mkWorld [exPlayer 1 [0%nat; 1%nat; 2%nat]]
          [exCell 0 0 20 (-1); exCell 30 0 20 (-1); exCell 60 0 20 (-1)]
          [] [] 2 1 1 10000 0.

(** A cell at the origin moving right at 100 units per second. *)
Definition exCellMoving : Cell := mkCell 0 0 40 100 0 10.

(** One player whose radius-70 cell lies on a virus. *)
Definition exWorldVirus : World :=
  mkWorld [exPlayer 1 [0%nat]] [exCell 0 0 70 10] []
          [mkVirus 1 0 0 VIRUS_RADIUS] 2 1 2 10000 0.

(** ** What a tick leaves alone *)

(** A player object after some steps: same identity, same mouse target. *)
Definition keepsMouse (p p' : Player) : Prop :=
  p_id p' = p_id p /\
  p_isBot p' = p_isBot p /\
  p_hasMouseTarget p' = p_hasMouseTarget p /\
  p_mouseX p' = p_mouseX p /\
  p_mouseY p' = p_mouseY p.

(** The players of [w'] are those of [w], place by place, with the same
    mouse targets. *)
Definition steady (w w' : World) : Prop :=
  Forall2 keepsMouse (players w) (players w').

(** [steady], and the pellets are untouched. *)
Definition quiet (w w' : World) : Prop :=
  steady w w' /\ foods w' = foods w.





(** What the food pass leaves alone: the players, and the number of
    pellets (a pellet that is eaten stays in place, marked dead). *)
Definition foodPassKeeps (w w' : World) : Prop :=
  players w' = players w /\ length (foods w') = length (foods w).

(** ** A run of the server

    The oracle that always answers one half, and the world in which the
    first player connects, ejects mass and leaves. *)
Definition rndHalf : nat -> R := fun _ => 1 / 2.

Definition exWorldJoined : World := connect rndHalf (initWorld rndHalf emptyWorld).

Definition exWorldEjected : World :=
  close 1 (handleMessage rndHalf (Some 1%N) MEject exWorldJoined).

(** A player whose mouse target is set, with one radius-40 cell. *)
Definition exPlayerTarget : Player :=
  mkPlayer 1 "Player" (-1) [0; 0; 0] false [0%nat] (1, 0) 100 0 true.

Definition exWorldTarget : World :=
  mkWorld [exPlayerTarget] [exCell 0 0 40 10] [] [] 2 1 1 10000 0.

(** ** World containment *)









(** * Further definitions

    The rest of the model: the leaderboard, the events of the socket
    server, and the notions used to state what the remaining code keeps. *)

(** ** Quadtree: node sizes *)

Section QuadTreeSizes.
Context {A : Type} `{HasPos A}.

(** No node lies deeper than [maxDepth]; a node above [maxDepth] holds at
    most [capacity] objects, and exactly [capacity] once it is divided;
    the children have the capacity of their parent. *)
Fixpoint qt_capped (t : QuadTree A) : Prop :=
  match t with
  | Leaf _ c d m ps => (d <= m)%nat /\ ((d < m)%nat -> (length ps <= c)%nat)
  | Quad _ c d m ps nw ne sw se =>
    (d < m)%nat /\ length ps = c /\
    (QT.capacity nw = c /\ qt_capped nw) /\
    (QT.capacity ne = c /\ qt_capped ne) /\
    (QT.capacity sw = c /\ qt_capped sw) /\
    (QT.capacity se = c /\ qt_capped se)
  end.

End QuadTreeSizes.

(** ** Leaderboard *)

(** [Array.prototype.sort] is stable, and the comparator
    [(a, b) => b.score - a.score] orders by descending score: the result is
    the one list that is sorted by descending score and keeps items of
    equal score in their original order. It is computed here by insertion:
    an item goes before the first item whose score is not larger. *)
Fixpoint insertByScore {A} (score : A -> Z) (x : A) (l : list A) : list A :=
  match l with
  | [] => [x]
  | y :: ys =>
    if (score x <? score y)%Z then y :: insertByScore score x ys else x :: l
  end.

Definition sortByScore {A} (score : A -> Z) (l : list A) : list A :=
  foldr (insertByScore score) [] l.

(** [getLeaderboard()]: [{name, score}] as a pair. The scores are integers
    ([calculateScoreFromCells] ends in [Math.floor]), on which
    [Math.round] is the identity. *)
Definition getLeaderboard (w : World) : list (string * Z) :=
  map (fun item : Player * Z => (p_name (fst item), snd item))
      (take 10
         (sortByScore snd
            (map (fun p => (p, calculateScoreFromCells w (p_cells p)))
                 (players w)))).

(** The test of the loop of [splitPlayer]: the reference holds a cell of
    radius at least 10. *)
Definition splittable (w : World) (ref : nat) : bool :=
  match heap w !! ref with
  | Some c => negb (Rltb (c_radius c) 10)
  | None => false
  end.

(** What [botThink] looks at from the cell [my]: a candidate
    [{x, y, dist2}] for a point, the live cells of the other players in
    the order of the scan, those that are threats (more than 1.2 times the
    radius of [my]) and the prey (the pellets, then the other cells below
    0.8 times that radius). *)
Definition botCandidate (my : Cell) (x y : R) : R * R * R :=
  (x, y, (x - c_x my) * (x - c_x my) + (y - c_y my) * (y - c_y my)).

Definition botOthers (pi : nat) (w : World) (ips : list (nat * Player)) : list Cell :=
  concat (map (fun '(i, p) =>
                 if (i =? pi)%nat then []
                 else omap (fun r => heap w !! r) (p_cells p)) ips).

Definition isThreat (my c : Cell) : bool := Rgtb (c_radius c) (c_radius my * 1.2).
Definition isPrey (my c : Cell) : bool :=
  negb (isThreat my c) && Rltb (c_radius c) (c_radius my * 0.8).

Definition botThreats (pi : nat) (w : World) (my : Cell) : list (R * R * R) :=
  map (fun c => botCandidate my (c_x c) (c_y c))
      (filter (fun c => isThreat my c = true) (botOthers pi w (imap pair (players w)))).

Definition botPrey (pi : nat) (w : World) (my : Cell) : list (R * R * R) :=
  map (fun f => botCandidate my (f_x f) (f_y f)) (foods w) ++
  map (fun c => botCandidate my (c_x c) (c_y c))
      (filter (fun c => isPrey my c = true) (botOthers pi w (imap pair (players w)))).

(** One round of the search for the nearest candidate. *)
Definition nearerC (best : option (R * R * R)) (e : R * R * R) : option (R * R * R) :=
  nearer (fst (fst e)) (snd (fst e)) (snd e) best.

(** [e] is an element of [l] that no element of [l] is nearer than. *)
Definition nearestOf (e : R * R * R) (l : list (R * R * R)) : Prop :=
  e ∈ l /\ forall e', e' ∈ l -> snd e <= snd e'.

(** A bot with one cell and a pellet 100 units to its right. *)
Definition exWorldBot : World :=
  mkWorld [mkPlayer 10000 "Bot_10000" (-1) [0; 0; 0] true [0%nat] (0, 0) 0 0 false]
          [exCell 0 0 40 10] [exFood 100 0] [] 1 2 1 10001 0.

(** ** The server as a whole

    Everything that changes the state once the module is loaded:
    connections, their closing, the messages and the ticks of
    [update(dt)]. ([spawnBots()] is defined and never called.) *)
Inductive ServerEvent :=
| SConnect
| SClose (id : N)
| SMessage (id : option N) (msg : Msg)
| STick (dt : R).

Definition serve (rnd : nat -> R) (w : World) (e : ServerEvent) : World :=
  match e with
  | SConnect => connect rnd w
  | SClose id => close id w
  | SMessage id msg => handleMessage rnd id msg w
  | STick dt => update rnd dt w
  end.

Definition serveAll (rnd : nat -> R) (events : list ServerEvent) (w : World) : World :=
  fold_left (serve rnd) events w.

(** The state after the module is loaded: [initWorld()] on the initial
    values of the globals. *)
Definition boot (rnd : nat -> R) : World := initWorld rnd emptyWorld.

(** The references held by the players, in the order of the map. *)
Definition ownedRefs (ps : list Player) : list nat := concat (map p_cells ps).

(** What holds of every state the server reaches ([serveAll_sane]). *)
Record sane (w : World) : Prop := mkSane {
  sane_cells : Forall (fun c => 5 <= c_radius c) (heap w);
  sane_owned :
    NoDup (ownedRefs (players w)) /\
    Forall (fun r => (r < length (heap w))%nat) (ownedRefs (players w));
  sane_players :
    NoDup (map p_id (players w)) /\
    Forall (fun p => (0 < p_id p < nextPlayerId w)%N /\ p_isBot p = false) (players w);
  sane_foods :
    NoDup (map f_id (foods w)) /\
    Forall (fun f => (f_id f < nextFoodId w)%N /\ f_radius f = FOOD_RADIUS) (foods w);
  sane_viruses :
    length (viruses w) = VIRUS_COUNT /\
    NoDup (map v_id (viruses w)) /\
    Forall (fun v => (v_id v < nextVirusId w)%N /\ v_radius v = VIRUS_RADIUS) (viruses w);
  sane_next : (0 < nextPlayerId w)%N
}.

(** ** Totals *)

Definition total {A} (f : A -> R) (l : list A) : R :=
  foldr (fun x acc => f x + acc) 0 l.

(** The area of all cell objects, and the area of the pellets that have
    not been eaten. *)
Definition heapArea (w : World) : R :=
  total (fun c => cellAreaFromRadius (c_radius c)) (heap w).

Definition liveFoodArea (w : World) : R :=
  total (fun f => if f_dead f then 0 else cellAreaFromRadius (f_radius f)) (foods w).

(** Every cell has one owner at most, and every owned reference is live. *)
Definition owned (w : World) : Prop :=
  NoDup (ownedRefs (players w)) /\
  Forall (fun r => (r < length (heap w))%nat) (ownedRefs (players w)).

(** What a tick may change of a player object: the cells array, and the
    direction when the player is a bot. *)
Definition keepsRecord (p p' : Player) : Prop :=
  p' = set_p_cells (p_cells p')
         (if p_isBot p then set_p_inputDir (p_inputDir p') p else p).

(** Two records of one cell object with the same position and velocity. *)
Definition samePlace (c c' : Cell) : Prop :=
  c_x c' = c_x c /\ c_y c' = c_y c /\ c_vx c' = c_vx c /\ c_vy c' = c_vy c.


(** One player whose radius-70 cell touches two viruses at once. *)
Definition exWorldTwoViruses : World :=
  mkWorld [exPlayer 1 [0%nat]] [exCell 0 0 70 10] []
          [mkVirus 1 0 0 VIRUS_RADIUS; mkVirus 2 10 0 VIRUS_RADIUS] 2 1 3 10000 0.

(** * Proofs *)

(** ** Numbers *)

Lemma Rltb_true (a b : R) : a < b -> Rltb a b = true.
Proof. intros. unfold Rltb. by apply bool_decide_eq_true_2. Qed.
Lemma Rltb_false (a b : R) : b <= a -> Rltb a b = false.
Proof. intros. unfold Rltb. apply bool_decide_eq_false_2. lra. Qed.
Lemma Rleb_true (a b : R) : a <= b -> Rleb a b = true.
Proof. intros. unfold Rleb. by apply bool_decide_eq_true_2. Qed.
Lemma Rleb_false (a b : R) : b < a -> Rleb a b = false.
Proof. intros. unfold Rleb. apply bool_decide_eq_false_2. lra. Qed.
Lemma Rgtb_true (a b : R) : b < a -> Rgtb a b = true.
Proof. intros. unfold Rgtb. by apply bool_decide_eq_true_2. Qed.
Lemma Rgtb_false (a b : R) : a <= b -> Rgtb a b = false.
Proof. intros. unfold Rgtb. apply bool_decide_eq_false_2. lra. Qed.
Lemma Rgeb_true (a b : R) : b <= a -> Rgeb a b = true.
Proof. intros. unfold Rgeb. by apply bool_decide_eq_true_2. Qed.
Lemma Rgeb_false (a b : R) : a < b -> Rgeb a b = false.
Proof. intros. unfold Rgeb. apply bool_decide_eq_false_2. lra. Qed.
Lemma Reqb_true (a b : R) : a = b -> Reqb a b = true.
Proof. intros. unfold Reqb. by apply bool_decide_eq_true_2. Qed.
Lemma Reqb_false (a b : R) : a <> b -> Reqb a b = false.
Proof. intros. unfold Reqb. by apply bool_decide_eq_false_2. Qed.

Lemma Rltb_spec (a b : R) : Rltb a b = true <-> a < b.
Proof. unfold Rltb. apply bool_decide_eq_true. Qed.
Lemma Rleb_spec (a b : R) : Rleb a b = true <-> a <= b.
Proof. unfold Rleb. apply bool_decide_eq_true. Qed.
Lemma Rgtb_spec (a b : R) : Rgtb a b = true <-> b < a.
Proof. unfold Rgtb. apply bool_decide_eq_true. Qed.
Lemma Rgeb_spec (a b : R) : Rgeb a b = true <-> b <= a.
Proof. unfold Rgeb. apply bool_decide_eq_true. Qed.

(** Deciding the comparisons of a goal between concrete numbers. *)
Ltac rcmp :=
  repeat first
    [ rewrite Rltb_true by (simpl; lra) | rewrite Rltb_false by (simpl; lra)
    | rewrite Rleb_true by (simpl; lra) | rewrite Rleb_false by (simpl; lra)
    | rewrite Rgtb_true by (simpl; lra) | rewrite Rgtb_false by (simpl; lra)
    | rewrite Rgeb_true by (simpl; lra) | rewrite Rgeb_false by (simpl; lra)
    | rewrite Reqb_false by (simpl; lra) | rewrite Reqb_true by (simpl; lra) ].

Lemma or_one_0 : or_one 0 = 1.
Proof. unfold or_one. by rewrite Reqb_true. Qed.

Lemma or_one_neq (v : R) : v <> 0 -> or_one v = v.
Proof. intros. unfold or_one. by rewrite Reqb_false. Qed.

Lemma or_one_nonzero (v : R) : or_one v <> 0.
Proof.
  unfold or_one, Reqb. case_bool_decide; lra.
Qed.

Lemma hypot_0 : hypot 0 0 = 0.
Proof. unfold hypot. replace (0 * 0 + 0 * 0) with 0 by ring. apply sqrt_0. Qed.

(** ** Lists *)

Lemma filter_all {A} (P : A -> Prop) `{forall x, Decision (P x)} (l : list A) :
  Forall P l -> filter P l = l.
Proof.
  induction 1 as [|x l Hx Hl IH]; [done|].
  rewrite filter_cons_True by done. by f_equal.
Qed.

(** ** Area and radius *)

Lemma radiusFromArea_sum (a b : R) :
  radiusFromArea (cellAreaFromRadius a + cellAreaFromRadius b)
  = sqrt (a * a + b * b).
Proof.
  unfold cellAreaFromRadius, radiusFromArea.
  assert (HPI := PI_RGT_0).
  f_equal. field. lra.
Qed.

Lemma area_sum (a b : R) :
  cellAreaFromRadius (radiusFromArea (cellAreaFromRadius a + cellAreaFromRadius b))
  = cellAreaFromRadius a + cellAreaFromRadius b.
Proof.
  rewrite radiusFromArea_sum. unfold cellAreaFromRadius.
  rewrite Rmult_assoc, sqrt_sqrt by nra. ring.
Qed.

Lemma area_radiusFromArea (a : R) :
  0 <= a -> cellAreaFromRadius (radiusFromArea a) = a.
Proof.
  intros Ha. unfold cellAreaFromRadius, radiusFromArea.
  assert (HPI := PI_RGT_0).
  rewrite Rmult_assoc, sqrt_sqrt.
  - field. lra.
  - apply Rmult_le_pos; [lra|]. left. by apply Rinv_0_lt_compat.
Qed.

Lemma area_nonneg (r : R) : 0 <= cellAreaFromRadius r.
Proof.
  unfold cellAreaFromRadius. assert (HPI := PI_RGT_0).
  rewrite Rmult_assoc. apply Rmult_le_pos; [lra|]. nra.
Qed.

(** ** The store *)

Lemma heap_store_eq (ref : nat) (c c0 : Cell) (w : World) :
  heap w !! ref = Some c0 -> heap (store ref c w) !! ref = Some c.
Proof.
  intros Hl. unfold store. simpl.
  apply list_lookup_insert_eq. by eapply lookup_lt_Some.
Qed.

Lemma heap_store_ne (ref ref' : nat) (c : Cell) (w : World) :
  ref <> ref' -> heap (store ref c w) !! ref' = heap w !! ref'.
Proof. intros. unfold store. simpl. by apply list_lookup_insert_ne. Qed.

Lemma heap_store_length (ref : nat) (c : Cell) (w : World) :
  length (heap (store ref c w)) = length (heap w).
Proof. unfold store. simpl. apply length_insert. Qed.

(** ** Area conservation of eating and merging *)

Lemma eatFood_hit (ref : nat) (w : World) (e : nat * Food) (f : Food) (c : Cell) :
  foods w !! fst e = Some f ->
  heap w !! ref = Some c ->
  f_dead f = false ->
  (c_x c - f_x f) * (c_x c - f_x f) + (c_y c - f_y f) * (c_y c - f_y f)
    < (c_radius c + f_radius f) ^ 2 ->
  eatFood ref w e =
    set_foods (<[fst e := set_f_dead true f]> (foods w))
      (store ref
         (set_c_radius
            (radiusFromArea (cellAreaFromRadius (c_radius c)
                             + cellAreaFromRadius (f_radius f))) c) w).
Proof.
  intros Hf Hc Hd Hlt. unfold eatFood. rewrite Hf, Hc, Hd.
  by rewrite Rltb_true.
Qed.

Lemma eatCell_hit (k : nat) (item : Item) (w : World) (other : nat * Item)
      (cA cB : Cell) :
  fst other <> k ->
  i_player item <> i_player (snd other) ->
  heap w !! i_cell item = Some cA ->
  heap w !! i_cell (snd other) = Some cB ->
  c_radius cB * 1.15 < c_radius cA ->
  (c_x cA - c_x cB) * (c_x cA - c_x cB) + (c_y cA - c_y cB) * (c_y cA - c_y cB)
    < (c_radius cA - c_radius cB * 0.25) * (c_radius cA - c_radius cB * 0.25) ->
  eatCell k item w other
  = consume (i_cell item) (i_cell (snd other)) (i_player (snd other)) cA cB w.
Proof.
  intros Hk Hp HA HB Hr Hd. unfold eatCell.
  destruct (Nat.eqb_spec (fst other) k) as [|_]; [done|].
  destruct (Nat.eqb_spec (i_player item) (i_player (snd other))) as [|_]; [done|].
  rewrite HA, HB. rewrite Rleb_false by done. by rewrite Rltb_true.
Qed.

Lemma consume_heap (refA refB pB : nat) (cA cB : Cell) (w : World) :
  heap (consume refA refB pB cA cB w)
  = <[refA := set_c_radius
                (radiusFromArea (cellAreaFromRadius (c_radius cA)
                                 + cellAreaFromRadius (c_radius cB))) cA]> (heap w).
Proof.
  unfold consume. simpl.
  destruct (players w !! pB) as [playerB|]; [|done].
  by destruct (indexOf refB (p_cells playerB)).
Qed.

Lemma mergePair_hit (pi i j : nat) (w : World) (p : Player) (ra rb : nat)
      (a b : Cell) :
  players w !! pi = Some p ->
  p_cells p !! i = Some ra ->
  p_cells p !! j = Some rb ->
  heap w !! ra = Some a ->
  heap w !! rb = Some b ->
  c_mergeTimer a <= 0 ->
  c_mergeTimer b <= 0 ->
  (c_x a - c_x b) * (c_x a - c_x b) + (c_y a - c_y b) * (c_y a - c_y b)
    < (c_radius a + c_radius b) ^ 2 ->
  mergePair pi i j w
  = (set_player pi (set_p_cells (delete j (p_cells p)) p)
       (store ra
          (set_c_radius
             (radiusFromArea (cellAreaFromRadius (c_radius a)
                              + cellAreaFromRadius (c_radius b))) a) w),
     j).
Proof.
  intros Hp Hi Hj Ha Hb Hta Htb Hd. unfold mergePair.
  rewrite Hp, Hi, Hj, Ha, Hb.
  rewrite !Rgtb_false by done. simpl. by rewrite Rltb_true.
Qed.

(** C1. Every consumption or merge event conserves area: when a cell eats
    a pellet, when it eats a cell of another player, and when two cells of
    one player merge, the area of the resulting cell is the sum of the two
    areas (its radius is [radiusFromArea] of that sum). *)
Theorem C1_area_conservation :
  (forall (ref : nat) (w : World) (e : nat * Food) (f : Food) (c : Cell),
      foods w !! fst e = Some f ->
      heap w !! ref = Some c ->
      f_dead f = false ->
      (c_x c - f_x f) * (c_x c - f_x f) + (c_y c - f_y f) * (c_y c - f_y f)
        < (c_radius c + f_radius f) ^ 2 ->
      exists c',
        heap (eatFood ref w e) !! ref = Some c' /\
        c_radius c' = radiusFromArea (cellAreaFromRadius (c_radius c)
                                      + cellAreaFromRadius (f_radius f)) /\
        cellAreaFromRadius (c_radius c')
        = cellAreaFromRadius (c_radius c) + cellAreaFromRadius (f_radius f))
  /\
  (forall (k : nat) (item : Item) (w : World) (other : nat * Item) (cA cB : Cell),
      fst other <> k ->
      i_player item <> i_player (snd other) ->
      heap w !! i_cell item = Some cA ->
      heap w !! i_cell (snd other) = Some cB ->
      c_radius cB * 1.15 < c_radius cA ->
      (c_x cA - c_x cB) * (c_x cA - c_x cB) + (c_y cA - c_y cB) * (c_y cA - c_y cB)
        < (c_radius cA - c_radius cB * 0.25) * (c_radius cA - c_radius cB * 0.25) ->
      exists c',
        heap (eatCell k item w other) !! i_cell item = Some c' /\
        c_radius c' = radiusFromArea (cellAreaFromRadius (c_radius cA)
                                      + cellAreaFromRadius (c_radius cB)) /\
        cellAreaFromRadius (c_radius c')
        = cellAreaFromRadius (c_radius cA) + cellAreaFromRadius (c_radius cB))
  /\
  (forall (pi i j : nat) (w : World) (p : Player) (ra rb : nat) (a b : Cell),
      players w !! pi = Some p ->
      p_cells p !! i = Some ra ->
      p_cells p !! j = Some rb ->
      heap w !! ra = Some a ->
      heap w !! rb = Some b ->
      c_mergeTimer a <= 0 ->
      c_mergeTimer b <= 0 ->
      (c_x a - c_x b) * (c_x a - c_x b) + (c_y a - c_y b) * (c_y a - c_y b)
        < (c_radius a + c_radius b) ^ 2 ->
      exists a',
        heap (fst (mergePair pi i j w)) !! ra = Some a' /\
        c_radius a' = radiusFromArea (cellAreaFromRadius (c_radius a)
                                      + cellAreaFromRadius (c_radius b)) /\
        cellAreaFromRadius (c_radius a')
        = cellAreaFromRadius (c_radius a) + cellAreaFromRadius (c_radius b)).
Proof.
  split; [|split].
  - intros ref w e f c Hf Hc Hd Hlt.
    rewrite (eatFood_hit _ _ _ _ _ Hf Hc Hd Hlt). simpl.
    eexists. split; [by eapply heap_store_eq|]. simpl.
    split; [done|apply area_sum].
  - intros k item w other cA cB Hk Hp HA HB Hr Hd.
    rewrite (eatCell_hit _ _ _ _ _ _ Hk Hp HA HB Hr Hd), consume_heap.
    eexists. split.
    + apply list_lookup_insert_eq. by eapply lookup_lt_Some.
    + simpl. split; [done|apply area_sum].
  - intros pi i j w p ra rb a b Hp Hi Hj Ha Hb Hta Htb Hd.
    rewrite (mergePair_hit _ _ _ _ _ _ _ _ _ Hp Hi Hj Ha Hb Hta Htb Hd). simpl.
    eexists. split.
    + apply list_lookup_insert_eq. by eapply lookup_lt_Some.
    + simpl. split; [done|apply area_sum].
Qed.

Lemma C1_area_conservation_witness :
  (exists c',
      heap (eatFood 0 exWorldFood (0%nat, exFood 0 0)) !! 0%nat = Some c' /\
      cellAreaFromRadius (c_radius c')
      = cellAreaFromRadius 40 + cellAreaFromRadius FOOD_RADIUS)
  /\
  (exists c',
      heap (eatCell 0 (mkItem 0 0 0 0 12) exWorldEat (1%nat, mkItem 1 1 1 0 10))
        !! 0%nat = Some c' /\
      cellAreaFromRadius (c_radius c')
      = cellAreaFromRadius 12 + cellAreaFromRadius 10)
  /\
  (exists a',
      heap (fst (mergePair 0 0 1 exWorldMerge)) !! 0%nat = Some a' /\
      cellAreaFromRadius (c_radius a')
      = cellAreaFromRadius 20 + cellAreaFromRadius 20).
Proof.
  destruct C1_area_conservation as (Hfood & Heat & Hmerge).
  split; [|split].
  - destruct (Hfood 0%nat exWorldFood (0%nat, exFood 0 0) (exFood 0 0)
                    (exCell 0 0 40 10)) as (c' & H1 & _ & H3);
      [reflexivity | reflexivity | reflexivity
       | simpl; unfold FOOD_RADIUS; lra | ].
    exists c'. split; [exact H1 | exact H3].
  - destruct (Heat 0%nat (mkItem 0 0 0 0 12) exWorldEat (1%nat, mkItem 1 1 1 0 10)
                   (exCell 0 0 12 10) (exCell 1 0 10 10)) as (c' & H1 & _ & H3);
      [simpl; lia | simpl; lia | reflexivity | reflexivity
       | simpl; lra | simpl; lra | ].
    exists c'. split; [exact H1 | exact H3].
  - destruct (Hmerge 0%nat 0%nat 1%nat exWorldMerge (exPlayer 1 [0%nat; 1%nat])
                     0%nat 1%nat (exCell 0 0 20 (-1)) (exCell 10 0 20 0))
      as (a' & H1 & _ & H3);
      [reflexivity | reflexivity | reflexivity | reflexivity | reflexivity
       | simpl; lra | simpl; lra | simpl; lra | ].
    exists a'. split; [exact H1 | exact H3].
Defined.

(** ** Split *)

Lemma splitCell_big (dx dy len : R) (ref : nat) (w : World) (news : list nat)
      (cell : Cell) :
  heap w !! ref = Some cell ->
  10 <= c_radius cell ->
  splitCell dx dy len ref (w, news)
  = (set_heap
       (<[ref := mkCell (c_x cell - dx / len * (c_radius cell * 0.5 * 2.5) * 0.3)
                        (c_y cell - dy / len * (c_radius cell * 0.5 * 2.5) * 0.3)
                        (c_radius cell * 0.5) (c_vx cell) (c_vy cell) MERGE_TIME]>
          (heap w)
        ++ [mkCell (c_x cell - dx / len * (c_radius cell * 0.5 * 2.5) * 0.3
                    + dx / len * (c_radius cell * 0.5 * 2.5))
                   (c_y cell - dy / len * (c_radius cell * 0.5 * 2.5) * 0.3
                    + dy / len * (c_radius cell * 0.5 * 2.5))
                   (c_radius cell * 0.5)
                   (dx / len * SPLIT_SPEED) (dy / len * SPLIT_SPEED) MERGE_TIME]) w,
     news ++ [length (heap w)]).
Proof.
  intros Hc Hr. unfold splitCell. rewrite Hc, Rltb_false by done.
  unfold alloc, store. simpl. by rewrite length_insert.
Qed.

Lemma splitCell_small (dx dy len : R) (ref : nat) (acc : World * list nat)
      (cell : Cell) :
  heap (fst acc) !! ref = Some cell ->
  c_radius cell < 10 ->
  splitCell dx dy len ref acc = acc.
Proof.
  intros Hc Hr. destruct acc as [w news]. simpl in Hc.
  unfold splitCell. by rewrite Hc, Rltb_true.
Qed.

(** C2 (as amended). A split of a cell of radius at least 10 leaves the
    original and the new cell with half the radius each, so their combined
    area is half the area of the original cell; both get the merge timer
    [MERGE_TIME]. *)
Theorem C2_split_halves_area
        (dx dy len : R) (ref : nat) (w : World) (news : list nat) (cell : Cell) :
  heap w !! ref = Some cell ->
  10 <= c_radius cell ->
  exists c1 c2,
    let w' := fst (splitCell dx dy len ref (w, news)) in
    snd (splitCell dx dy len ref (w, news)) = news ++ [length (heap w)] /\
    heap w' !! ref = Some c1 /\
    heap w' !! length (heap w) = Some c2 /\
    c_radius c1 = c_radius cell * 0.5 /\
    c_radius c2 = c_radius cell * 0.5 /\
    c_mergeTimer c1 = MERGE_TIME /\
    c_mergeTimer c2 = MERGE_TIME /\
    cellAreaFromRadius (c_radius c1) + cellAreaFromRadius (c_radius c2)
    = cellAreaFromRadius (c_radius cell) / 2.
Proof.
  intros Hc Hr. rewrite (splitCell_big _ _ _ _ _ _ _ Hc Hr).
  pose proof (lookup_lt_Some _ _ _ Hc) as Hlt.
  do 2 eexists. simpl. split; [done|]. split; [|split].
  - rewrite lookup_app_l by (by rewrite length_insert).
    by apply list_lookup_insert_eq.
  - rewrite lookup_app_r by (rewrite length_insert; lia).
    rewrite length_insert, Nat.sub_diag. done.
  - simpl. repeat split; try done. unfold cellAreaFromRadius.
    replace 0.5 with (/ 2) by lra. field.
Qed.

Lemma C2_split_halves_area_witness :
  exists c1 c2,
    let w' := fst (splitCell 1 0 1 0 (exWorldSplit, [])) in
    snd (splitCell 1 0 1 0 (exWorldSplit, [])) = [] ++ [1%nat] /\
    heap w' !! 0%nat = Some c1 /\
    heap w' !! 1%nat = Some c2 /\
    c_radius c1 = 40 * 0.5 /\
    c_radius c2 = 40 * 0.5 /\
    c_mergeTimer c1 = MERGE_TIME /\
    c_mergeTimer c2 = MERGE_TIME /\
    cellAreaFromRadius (c_radius c1) + cellAreaFromRadius (c_radius c2)
    = cellAreaFromRadius 40 / 2.
Proof.
  apply (C2_split_halves_area 1 0 1 0%nat exWorldSplit [] (exCell 0 0 40 3)).
  - reflexivity.
  - simpl. lra.
Defined.

Lemma hypot_1_0 : hypot 1 0 = 1.
Proof. unfold hypot. replace (1 * 1 + 0 * 0) with 1 by ring. apply sqrt_1. Qed.

Lemma splitPlayer_exWorldSplit :
  splitPlayer 0 exWorldSplit
  = mkWorld [mkPlayer 1 "Player" (-1) [0; 0; 0] false [0%nat; 1%nat] (1, 0) 0 0 false]
            [mkCell (0 - 1 / 1 * (40 * 0.5 * 2.5) * 0.3)
                    (0 - 0 / 1 * (40 * 0.5 * 2.5) * 0.3)
                    (40 * 0.5) 0 0 MERGE_TIME;
             mkCell (0 - 1 / 1 * (40 * 0.5 * 2.5) * 0.3 + 1 / 1 * (40 * 0.5 * 2.5))
                    (0 - 0 / 1 * (40 * 0.5 * 2.5) * 0.3 + 0 / 1 * (40 * 0.5 * 2.5))
                    (40 * 0.5) (1 / 1 * SPLIT_SPEED) (0 / 1 * SPLIT_SPEED) MERGE_TIME]
            [] [] 2 1 1 10000 0.
Proof.
  unfold splitPlayer. simpl players. simpl lookup. cbv iota beta.
  simpl p_inputDir. cbv iota beta.
  rewrite hypot_1_0, or_one_neq by lra.
  simpl p_cells. simpl fold_left. rcmp. reflexivity.
Qed.

(** C2 (as stated) fails: splitting the radius-40 cell of a player that
    steers along [(1, 0)] gives two cells of radius 20, whose combined area
    is not the area of the original cell. *)
Lemma C2_counterexample :
  playerArea 0 (splitPlayer 0 exWorldSplit) <> playerArea 0 exWorldSplit.
Proof.
  rewrite splitPlayer_exWorldSplit.
  unfold playerArea, cellsArea, cellAreaFromRadius. simpl.
  assert (HPI := PI_RGT_0). nra.
Qed.

(** ** The eat rule of the cell-vs-cell pass *)










(** ** Quadtree *)

(** Case analysis on the next recursive [insert] call of a hypothesis. *)
Tactic Notation "insert_child" hyp(H) ident(E) ident(t') ident(r) :=
  match type of H with
  | context [QT.insert ?f ?c ?o] =>
    destruct (QT.insert f c o) as [[t' r]|] eqn:E; simpl in H; [|discriminate H]
  end.

Section QuadTreeFacts.
Context {A : Type} `{HasPos A}.

Lemma push_depth (t : QuadTree A) (obj : A) : QT.depth (QT.push t obj) = QT.depth t.
Proof. by destruct t. Qed.
Lemma push_maxDepth (t : QuadTree A) (obj : A) :
  QT.maxDepth (QT.push t obj) = QT.maxDepth t.
Proof. by destruct t. Qed.
Lemma push_boundary (t : QuadTree A) (obj : A) :
  QT.boundary (QT.push t obj) = QT.boundary t.
Proof. by destruct t. Qed.
Lemma push_wf (t : QuadTree A) (obj : A) : qt_wf t -> qt_wf (QT.push t obj).
Proof. by destruct t. Qed.

Lemma bounded_elems (t : QuadTree A) (p : A) :
  qt_bounded t -> p ∈ qt_elems t -> QT.outside (QT.boundary t) p = false.
Proof.
  destruct t; simpl; [|intros (Hb & _)]; try intros Hb;
    rewrite Forall_forall in Hb; apply Hb.
Qed.

Lemma bounded_quad b c d m ps (nw ne sw se : QuadTree A) :
  qt_bounded (Quad b c d m ps nw ne sw se) <->
  (forall p, p ∈ qt_elems (Quad b c d m ps nw ne sw se) ->
             QT.outside b p = false) /\
  qt_bounded nw /\ qt_bounded ne /\ qt_bounded sw /\ qt_bounded se.
Proof. simpl. by rewrite Forall_forall. Qed.

Lemma push_bounded (t : QuadTree A) (obj : A) :
  QT.outside (QT.boundary t) obj = false ->
  qt_bounded t -> qt_bounded (QT.push t obj).
Proof.
  intros Ho. destruct t; simpl in *.
  - intros Hb. apply Forall_app. split; [done|]. by constructor.
  - intros (Hb & ?). split; [|done].
    rewrite Forall_forall in *. intros p Hp.
    rewrite !elem_of_app, list_elem_of_singleton in Hp.
    destruct Hp as [[Hp| ->]|Hp]; [|done|];
      apply Hb; rewrite !elem_of_app; tauto.
Qed.

Lemma push_elems (t : QuadTree A) (obj p : A) :
  p ∈ qt_elems (QT.push t obj) <-> p = obj \/ p ∈ qt_elems t.
Proof.
  destruct t; simpl; rewrite ?elem_of_app, ?list_elem_of_singleton; tauto.
Qed.

Lemma subdivide_wf (t : QuadTree A) : qt_wf (QT.subdivide t).
Proof. unfold QT.subdivide. simpl. tauto. Qed.


Lemma divided_wf (t : QuadTree A) : qt_wf t -> qt_wf (divided t).
Proof. destruct t; [intros _; apply subdivide_wf|done]. Qed.

Lemma divided_bounded (t : QuadTree A) : qt_bounded t -> qt_bounded (divided t).
Proof.
  destruct t; [|done]. simpl. intros Hb. rewrite !app_nil_r.
  repeat split; try done; by constructor.
Qed.

Lemma divided_elems (t : QuadTree A) (p : A) :
  p ∈ qt_elems (divided t) <-> p ∈ qt_elems t.
Proof. destruct t; [|done]. simpl. by rewrite !app_nil_r. Qed.

Lemma divided_fields (t : QuadTree A) :
  QT.boundary (divided t) = QT.boundary t /\
  QT.depth (divided t) = QT.depth t /\
  QT.maxDepth (divided t) = QT.maxDepth t.
Proof. by destruct t. Qed.

Lemma insert_unfold (fuel : nat) (t : QuadTree A) (obj : A) :
  QT.insert (S fuel) t obj =
  if QT.outside (QT.boundary t) obj then Some (t, false)
  else if (length (QT.points t) <? QT.capacity t)%nat
          || (QT.maxDepth t <=? QT.depth t)%nat
  then Some (QT.push t obj, true)
  else
    match divided t with
    | Leaf _ _ _ _ _ => None
    | Quad b c d m ps nw ne sw se =>
      '(nw', r1) ← QT.insert fuel nw obj;
      if (r1 : bool) then Some (Quad b c d m ps nw' ne sw se, true) else
      '(ne', r2) ← QT.insert fuel ne obj;
      if (r2 : bool) then Some (Quad b c d m ps nw' ne' sw se, true) else
      '(sw', r3) ← QT.insert fuel sw obj;
      if (r3 : bool) then Some (Quad b c d m ps nw' ne' sw' se, true) else
      '(se', r4) ← QT.insert fuel se obj;
      Some (Quad b c d m ps nw' ne' sw' se', r4)
    end.
Proof. reflexivity. Qed.

(** [insert] keeps the shape invariants, keeps every object within the
    boundary of its node, and adds the object exactly when it returns
    [true]. *)
Lemma insert_spec (fuel : nat) :
  forall (t : QuadTree A) (obj : A) (t' : QuadTree A) (r : bool),
    QT.insert fuel t obj = Some (t', r) ->
    (QT.boundary t' = QT.boundary t /\
     QT.depth t' = QT.depth t /\
     QT.maxDepth t' = QT.maxDepth t) /\
    (qt_wf t -> qt_wf t') /\
    (qt_bounded t -> qt_bounded t') /\
    (forall p, p ∈ qt_elems t' <-> (r = true /\ p = obj) \/ p ∈ qt_elems t).
Proof.
  induction fuel as [|fuel IH]; intros t obj t' r Hins; [done|].
  rewrite insert_unfold in Hins.
  destruct (QT.outside (QT.boundary t) obj) eqn:Hout.
  { inversion Hins; subst. repeat split; try done; intuition congruence. }
  destruct ((length (QT.points t) <? QT.capacity t)%nat
            || (QT.maxDepth t <=? QT.depth t)%nat).
  { inversion Hins; subst.
    split; [by rewrite push_boundary, push_depth, push_maxDepth|].
    split; [apply push_wf|]. split; [by apply push_bounded|].
    intros p. rewrite push_elems. intuition congruence. }
  pose proof (divided_wf t) as Hdwf.
  pose proof (divided_bounded t) as Hdb.
  pose proof (divided_elems t) as Hde.
  pose proof (divided_fields t) as (Hf1 & Hf2 & Hf3).
  destruct (divided t) as [|b c d m ps nw ne sw se]; [done|].
  rewrite bounded_quad in Hdb.
  simpl in Hf1, Hf2, Hf3, Hde, Hdwf. subst b.
  (* the four parts, once the objects of the result are known *)
  assert (Hfin : forall nw' ne' sw' se' r,
    QT.depth nw' = QT.depth nw -> QT.maxDepth nw' = QT.maxDepth nw ->
    QT.depth ne' = QT.depth ne -> QT.maxDepth ne' = QT.maxDepth ne ->
    QT.depth sw' = QT.depth sw -> QT.maxDepth sw' = QT.maxDepth sw ->
    QT.depth se' = QT.depth se -> QT.maxDepth se' = QT.maxDepth se ->
    (qt_wf nw -> qt_wf nw') -> (qt_wf ne -> qt_wf ne') ->
    (qt_wf sw -> qt_wf sw') -> (qt_wf se -> qt_wf se') ->
    (qt_bounded nw -> qt_bounded nw') -> (qt_bounded ne -> qt_bounded ne') ->
    (qt_bounded sw -> qt_bounded sw') -> (qt_bounded se -> qt_bounded se') ->
    (forall p, p ∈ qt_elems (Quad (QT.boundary t) c d m ps nw' ne' sw' se') <->
               (r = true /\ p = obj) \/
               p ∈ qt_elems (Quad (QT.boundary t) c d m ps nw ne sw se)) ->
    (QT.boundary (Quad (QT.boundary t) c d m ps nw' ne' sw' se') = QT.boundary t /\
     QT.depth (Quad (QT.boundary t) c d m ps nw' ne' sw' se') = QT.depth t /\
     QT.maxDepth (Quad (QT.boundary t) c d m ps nw' ne' sw' se') = QT.maxDepth t) /\
    (qt_wf t -> qt_wf (Quad (QT.boundary t) c d m ps nw' ne' sw' se')) /\
    (qt_bounded t -> qt_bounded (Quad (QT.boundary t) c d m ps nw' ne' sw' se')) /\
    (forall p, p ∈ qt_elems (Quad (QT.boundary t) c d m ps nw' ne' sw' se') <->
               (r = true /\ p = obj) \/ p ∈ qt_elems t)).
  { intros nw' ne' sw' se' r0 D1 M1 D2 M2 D3 M3 D4 M4 W1 W2 W3 W4 B1 B2 B3 B4 El.
    split; [done|]. split; [|split].
    - intros Hw. specialize (Hdwf Hw). simpl.
      rewrite D1, M1, D2, M2, D3, M3, D4, M4. tauto.
    - intros Hb. destruct (Hdb Hb) as (Hall & ? & ? & ? & ?).
      apply bounded_quad. split; [|tauto].
      intros p Hp. apply El in Hp as [[_ ->]|Hp]; [done|by apply Hall].
    - intros p. rewrite El, Hde. tauto. }
  insert_child Hins E1 nw' r1.
  apply IH in E1 as ((B1 & D1 & M1) & W1 & Bd1 & El1).
  destruct r1.
  { inversion Hins; subst. apply Hfin; try done.
    intros p. simpl. rewrite !elem_of_app, El1. tauto. }
  insert_child Hins E2 ne' r2.
  apply IH in E2 as ((B2 & D2 & M2) & W2 & Bd2 & El2).
  destruct r2.
  { inversion Hins; subst. apply Hfin; try done.
    intros p. simpl. rewrite !elem_of_app, El1, El2. intuition congruence. }
  insert_child Hins E3 sw' r3.
  apply IH in E3 as ((B3 & D3 & M3) & W3 & Bd3 & El3).
  destruct r3.
  { inversion Hins; subst. apply Hfin; try done.
    intros p. simpl. rewrite !elem_of_app, El1, El2, El3. intuition congruence. }
  insert_child Hins E4 se' r4.
  apply IH in E4 as ((B4 & D4 & M4) & W4 & Bd4 & El4).
  inversion Hins; subst. apply Hfin; try done.
  intros p. simpl. rewrite !elem_of_app, El1, El2, El3, El4. intuition congruence.
Qed.

(** [insert] returns: a node at depth [d] needs no more than
    [maxDepth - d + 1] nested calls. *)
Lemma insert_total (fuel : nat) :
  forall (t : QuadTree A) (obj : A),
    qt_wf t ->
    (QT.maxDepth t - QT.depth t < fuel)%nat ->
    is_Some (QT.insert fuel t obj).
Proof.
  induction fuel as [|fuel IH]; intros t obj Hwf Hfuel; [lia|].
  rewrite insert_unfold.
  destruct (QT.outside (QT.boundary t) obj); [done|].
  destruct (Nat.ltb_spec (length (QT.points t)) (QT.capacity t)); [done|].
  destruct (Nat.leb_spec (QT.maxDepth t) (QT.depth t)); [done|]. simpl.
  pose proof (divided_wf t Hwf) as Hdwf.
  pose proof (divided_fields t) as (Hf1 & Hf2 & Hf3).
  destruct (divided t) as [|b c d m ps nw ne sw se] eqn:Hdiv;
    [destruct t; simpl in Hdiv; discriminate Hdiv|].
  simpl in Hf2, Hf3, Hdwf.
  destruct Hdwf as ((D1 & M1 & W1) & (D2 & M2 & W2) & (D3 & M3 & W3) & (D4 & M4 & W4)).
  destruct (IH nw obj W1) as [[nw' r1] E1]; [lia|]. rewrite E1. simpl.
  destruct r1; [done|].
  destruct (IH ne obj W2) as [[ne' r2] E2]; [lia|]. rewrite E2. simpl.
  destruct r2; [done|].
  destruct (IH sw obj W3) as [[sw' r3] E3]; [lia|]. rewrite E3. simpl.
  destruct r3; [done|].
  destruct (IH se obj W4) as [[se' r4] E4]; [lia|]. rewrite E4. simpl.
  done.
Qed.

(** *** Range queries *)

Lemma query_points (range : Box) (ps found : list A) :
  fold_left (fun acc p => if QT.inRange range p then acc ++ [p] else acc) ps found
  = found ++ filter (fun p => QT.inRange range p = true) ps.
Proof.
  revert found. induction ps as [|p ps IH]; intros found; simpl.
  - by rewrite app_nil_r.
  - rewrite IH. destruct (QT.inRange range p) eqn:Hp.
    + rewrite filter_cons_True by done. by rewrite <- app_assoc.
    + rewrite filter_cons_False; [done|]. by rewrite Hp.
Qed.

Lemma not_misses (range b : Box) (p : A) :
  QT.outside b p = false -> QT.inRange range p = true ->
  QT.misses range b = false.
Proof.
  unfold QT.outside, QT.inRange, QT.misses.
  rewrite !orb_false_iff, !andb_true_iff.
  intros (((H1 & H2) & H3) & H4) (((G1 & G2) & G3) & G4).
  apply Rgeb_spec in G1, G3. apply Rleb_spec in G2, G4.
  unfold Rltb, Rgtb in *.
  apply bool_decide_eq_false in H1, H2, H3, H4.
  repeat split; apply bool_decide_eq_false; lra.
Qed.

Lemma query_mono (t : QuadTree A) (range : Box) :
  forall (found : list A) (p : A),
    p ∈ found -> p ∈ QT.queryRange t range found.
Proof.
  induction t as [b c d m ps|b c d m ps nw IH1 ne IH2 sw IH3 se IH4];
    intros found p Hp; simpl; destruct (QT.misses range b); try done;
    rewrite query_points.
  - apply elem_of_app. by left.
  - apply IH4, IH3, IH2, IH1, elem_of_app. by left.
Qed.

(** A query returns every object of the tree that lies in the box. *)
Lemma query_complete (t : QuadTree A) (range : Box) :
  forall (found : list A) (p : A),
    qt_bounded t -> p ∈ qt_elems t -> QT.inRange range p = true ->
    p ∈ QT.queryRange t range found.
Proof.
  induction t as [b c d m ps|b c d m ps nw IH1 ne IH2 sw IH3 se IH4];
    intros found p Hb Hp Hin.
  - simpl in *. rewrite Forall_forall in Hb.
    rewrite (not_misses range b p) by auto.
    rewrite query_points, elem_of_app, list_elem_of_filter. by right.
  - pose proof (bounded_elems _ _ Hb Hp) as Hout.
    destruct Hb as (_ & B1 & B2 & B3 & B4).
    simpl in *. rewrite (not_misses range b p) by auto.
    rewrite query_points. rewrite !elem_of_app in Hp.
    destruct Hp as [Hp|[Hp|[Hp|[Hp|Hp]]]].
    + apply query_mono, query_mono, query_mono, query_mono.
      rewrite elem_of_app, list_elem_of_filter. by right.
    + by apply query_mono, query_mono, query_mono, IH1.
    + by apply query_mono, query_mono, IH2.
    + by apply query_mono, IH3.
    + by apply IH4.
Qed.


(** *** Sequences of inserts *)

Lemma insertAll_spec (objs : list A) :
  forall (t : QuadTree A) (rs : list bool),
    qt_wf t -> qt_bounded t ->
    let t' := fst (fold_left insertStep objs (t, rs)) in
    let rs' := snd (fold_left insertStep objs (t, rs)) in
    qt_wf t' /\ qt_bounded t' /\
    (forall p, p ∈ qt_elems t -> p ∈ qt_elems t') /\
    (forall k obj, objs !! k = Some obj ->
                   rs' !! (length rs + k)%nat = Some true ->
                   obj ∈ qt_elems t') /\
    (forall k, (k < length rs)%nat -> rs' !! k = rs !! k).
Proof.
  induction objs as [|o objs IH]; intros t rs Hwf Hb.
  { simpl. repeat split; try done. }
  destruct (insert_total (S (QT.maxDepth t - QT.depth t)) t o Hwf)
    as [[t1 r1] E1]; [lia|].
  change (fold_left insertStep (o :: objs) (t, rs))
    with (fold_left insertStep objs (insertStep (t, rs) o)).
  replace (insertStep (t, rs) o) with (t1, rs ++ [r1])
    by (unfold insertStep; by rewrite E1).
  apply insert_spec in E1 as (_ & W1 & B1 & El1).
  destruct (IH t1 (rs ++ [r1]) (W1 Hwf) (B1 Hb)) as (W2 & B2 & Mono & Hit & Keep).
  split; [done|]. split; [done|]. split; [|split].
  - intros p Hp. apply Mono, El1. by right.
  - intros [|k] obj Hk Hr.
    + simpl in Hk. inversion Hk; subst.
      rewrite Keep in Hr by (rewrite length_app; simpl; lia).
      rewrite Nat.add_0_r, lookup_app_r, Nat.sub_diag in Hr by lia.
      simpl in Hr. inversion Hr; subst.
      apply Mono, El1. by left.
    + simpl in Hk. apply (Hit k); [done|].
      rewrite length_app. simpl.
      by replace (length rs + 1 + k)%nat with (length rs + S k)%nat by lia.
  - intros k Hk. rewrite Keep by (rewrite length_app; lia).
    by rewrite lookup_app_l.
Qed.

(** C9. For a quadtree built from an empty root by a sequence of
    [insert] calls and for every query box, [queryRange] returns every
    object whose [insert] succeeded and whose center lies in the box:
    the broad phase has no false negatives. *)
Theorem C9_query_no_false_negatives
        (b : Box) (cap maxd : nat) (objs : list A) (range : Box)
        (k : nat) (obj : A) :
  let built := insertAll (QT.new b cap 0 maxd) objs in
  objs !! k = Some obj ->
  snd built !! k = Some true ->
  QT.inRange range obj = true ->
  obj ∈ QT.queryRange (fst built) range [].
Proof.
  intros built Hk Hr Hin.
  destruct (insertAll_spec objs (QT.new b cap 0 maxd) [])
    as (_ & Hb & _ & Hit & _); [done|by constructor|].
  apply query_complete; [exact Hb|eapply Hit; eauto|done].
Qed.

End QuadTreeFacts.

Lemma C9_query_no_false_negatives_witness :
  let objs : list (R * R) := [(10, 10); (-20, 30)] in
  let built := insertAll (QT.new (mkBox 0 0 100 100) 1 0 8) objs in
  (-20, 30) ∈ QT.queryRange (fst built) (mkBox (-20) 30 10 10) [].
Proof.
  intros objs built.
  apply (C9_query_no_false_negatives
           (mkBox 0 0 100 100) 1 8 objs (mkBox (-20) 30 10 10) 1 (-20, 30)).
  - reflexivity.
  - unfold insertAll, objs, insertStep. simpl.
    unfold QT.outside. simpl. rcmp. simpl.
    unfold QT.outside. simpl. rcmp. simpl.
    reflexivity.
  - unfold QT.inRange. simpl. rcmp. reflexivity.
Defined.

(** *** Which inserts succeed *)

Section QuadTreeGrid.
Context {A : Type} `{HasPos A}.

Lemma push_grid (t : QuadTree A) (obj : A) : qt_grid t -> qt_grid (QT.push t obj).
Proof. by destruct t. Qed.

Lemma divided_grid (t : QuadTree A) : qt_grid t -> qt_grid (divided t).
Proof. destruct t; [|done]. intros _. simpl. tauto. Qed.

Lemma insert_grid (fuel : nat) :
  forall (t : QuadTree A) (obj : A) (t' : QuadTree A) (r : bool),
    QT.insert fuel t obj = Some (t', r) -> qt_grid t -> qt_grid t'.
Proof.
  induction fuel as [|fuel IH]; intros t obj t' r Hins Hg; [done|].
  rewrite insert_unfold in Hins.
  destruct (QT.outside (QT.boundary t) obj); [by inversion Hins; subst|].
  destruct ((length (QT.points t) <? QT.capacity t)%nat
            || (QT.maxDepth t <=? QT.depth t)%nat).
  { inversion Hins; subst. by apply push_grid. }
  pose proof (divided_grid t Hg) as Hdg.
  destruct (divided t) as [|b c d m ps nw ne sw se]; [done|].
  destruct Hdg as ((B1 & G1) & (B2 & G2) & (B3 & G3) & (B4 & G4)).
  insert_child Hins E1 nw' r1.
  pose proof (IH _ _ _ _ E1 G1) as G1'.
  apply insert_spec in E1 as ((B1' & _) & _). rewrite <- B1' in B1.
  destruct r1; [inversion Hins; subst; simpl; tauto|].
  insert_child Hins E2 ne' r2.
  pose proof (IH _ _ _ _ E2 G2) as G2'.
  apply insert_spec in E2 as ((B2' & _) & _). rewrite <- B2' in B2.
  destruct r2; [inversion Hins; subst; simpl; tauto|].
  insert_child Hins E3 sw' r3.
  pose proof (IH _ _ _ _ E3 G3) as G3'.
  apply insert_spec in E3 as ((B3' & _) & _). rewrite <- B3' in B3.
  destruct r3; [inversion Hins; subst; simpl; tauto|].
  insert_child Hins E4 se' r4.
  pose proof (IH _ _ _ _ E4 G4) as G4'.
  apply insert_spec in E4 as ((B4' & _) & _). rewrite <- B4' in B4.
  inversion Hins; subst; simpl; tauto.
Qed.

Lemma outside_false (b : Box) (obj : A) :
  QT.outside b obj = false <->
  b_x b - b_w b / 2 <= pos_x obj <= b_x b + b_w b / 2 /\
  b_y b - b_h b / 2 <= pos_y obj <= b_y b + b_h b / 2.
Proof.
  unfold QT.outside, Rltb, Rgtb. rewrite !orb_false_iff, !bool_decide_eq_false.
  split; intros; lra.
Qed.

(** An object within the boundary of a node is within one of its four
    quadrants. *)
Lemma quadrant_cover (b : Box) (obj : A) :
  QT.outside b obj = false ->
  let hw := b_w b / 2 in
  let hh := b_h b / 2 in
  QT.outside (mkBox (b_x b - hw / 2) (b_y b - hh / 2) hw hh) obj = true ->
  QT.outside (mkBox (b_x b + hw / 2) (b_y b - hh / 2) hw hh) obj = true ->
  QT.outside (mkBox (b_x b - hw / 2) (b_y b + hh / 2) hw hh) obj = true ->
  QT.outside (mkBox (b_x b + hw / 2) (b_y b + hh / 2) hw hh) obj = false.
Proof.
  intros Hin hw hh H1 H2 H3. apply outside_false in Hin.
  apply not_false_iff_true in H1, H2, H3.
  rewrite outside_false in H1, H2, H3. apply outside_false.
  subst hw hh. simpl in *. lra.
Qed.

(** [insert] succeeds on every object within the boundary of the node. *)
Lemma insert_inside (fuel : nat) :
  forall (t : QuadTree A) (obj : A),
    qt_wf t -> qt_grid t ->
    (QT.maxDepth t - QT.depth t < fuel)%nat ->
    QT.outside (QT.boundary t) obj = false ->
    exists t', QT.insert fuel t obj = Some (t', true).
Proof.
  induction fuel as [|fuel IH]; intros t obj Hwf Hg Hfuel Hin; [lia|].
  rewrite insert_unfold, Hin.
  destruct (Nat.ltb_spec (length (QT.points t)) (QT.capacity t)); [by eexists|].
  destruct (Nat.leb_spec (QT.maxDepth t) (QT.depth t)); [by eexists|]. simpl.
  pose proof (divided_wf t Hwf) as Hdwf.
  pose proof (divided_grid t Hg) as Hdg.
  pose proof (divided_fields t) as (Hf1 & Hf2 & Hf3).
  destruct (divided t) as [|b c d m ps nw ne sw se] eqn:Hdiv;
    [destruct t; simpl in Hdiv; discriminate Hdiv|].
  simpl in Hf1, Hf2, Hf3, Hdwf. subst b.
  destruct Hdwf as ((D1 & M1 & W1) & (D2 & M2 & W2) & (D3 & M3 & W3) & (D4 & M4 & W4)).
  destruct Hdg as ((B1 & G1) & (B2 & G2) & (B3 & G3) & (B4 & G4)).
  assert (Hchild : forall ch : QuadTree A,
    qt_wf ch -> qt_grid ch -> QT.depth ch = (d + 1)%nat -> QT.maxDepth ch = m ->
    (exists ch', QT.insert fuel ch obj = Some (ch', true)) \/
    (QT.outside (QT.boundary ch) obj = true /\
     exists ch', QT.insert fuel ch obj = Some (ch', false))).
  { intros ch Wc Gc Dc Mc.
    destruct (QT.outside (QT.boundary ch) obj) eqn:Ho.
    - right. split; [done|]. exists ch.
      destruct fuel as [|fuel']; [lia|]. by rewrite insert_unfold, Ho.
    - left. apply IH; try done. lia. }
  destruct (Hchild nw W1 G1 D1 M1) as [[nw' E1]|[O1 [nw' E1]]]; rewrite E1; simpl;
    [by eexists|].
  destruct (Hchild ne W2 G2 D2 M2) as [[ne' E2]|[O2 [ne' E2]]]; rewrite E2; simpl;
    [by eexists|].
  destruct (Hchild sw W3 G3 D3 M3) as [[sw' E3]|[O3 [sw' E3]]]; rewrite E3; simpl;
    [by eexists|].
  destruct (Hchild se W4 G4 D4 M4) as [[se' E4]|[O4 [se' E4]]]; rewrite E4; simpl;
    [by eexists|].
  exfalso. rewrite B1 in O1. rewrite B2 in O2. rewrite B3 in O3. rewrite B4 in O4.
  rewrite (quadrant_cover (QT.boundary t) obj Hin O1 O2 O3) in O4. discriminate.
Qed.

(** The result of [insert] tells whether the object is within the
    boundary of the node. *)
Lemma insert_result (t : QuadTree A) (obj : A) (t' : QuadTree A) (r : bool) :
  qt_wf t -> qt_grid t ->
  QT.insert (S (QT.maxDepth t - QT.depth t)) t obj = Some (t', r) ->
  r = negb (QT.outside (QT.boundary t) obj).
Proof.
  intros Hwf Hg E. destruct (QT.outside (QT.boundary t) obj) eqn:Ho.
  - rewrite insert_unfold, Ho in E. by inversion E.
  - destruct (insert_inside (S (QT.maxDepth t - QT.depth t)) t obj Hwf Hg)
      as [t'' E']; [lia|done|].
    rewrite E in E'. by inversion E'.
Qed.

(** The results of a sequence of inserts: each tells whether its object
    is within the boundary of the root. *)
Lemma insertAll_results (objs : list A) :
  forall (t : QuadTree A) (rs : list bool),
    qt_wf t -> qt_grid t ->
    snd (fold_left insertStep objs (t, rs))
    = rs ++ map (fun o => negb (QT.outside (QT.boundary t) o)) objs.
Proof.
  induction objs as [|o objs IH]; intros t rs Hwf Hg.
  { simpl. by rewrite app_nil_r. }
  destruct (insert_total (S (QT.maxDepth t - QT.depth t)) t o Hwf)
    as [[t1 r1] E1]; [lia|].
  change (fold_left insertStep (o :: objs) (t, rs))
    with (fold_left insertStep objs (insertStep (t, rs) o)).
  replace (insertStep (t, rs) o) with (t1, rs ++ [r1])
    by (unfold insertStep; by rewrite E1).
  pose proof (insert_result t o t1 r1 Hwf Hg E1) as Hr.
  pose proof (insert_grid _ _ _ _ _ E1 Hg) as Hg1.
  apply insert_spec in E1 as ((B1 & _) & W1 & _).
  rewrite IH by auto. rewrite B1, Hr, <- app_assoc. done.
Qed.

Lemma insertAll_tree (objs : list A) :
  forall (t : QuadTree A) (rs : list bool),
    fst (fold_left insertStep objs (t, rs)) = fold_left qtInsert objs t.
Proof.
  induction objs as [|o objs IH]; intros t rs; [done|].
  change (fold_left insertStep (o :: objs) (t, rs))
    with (fold_left insertStep objs (insertStep (t, rs) o)).
  change (fold_left qtInsert (o :: objs) t)
    with (fold_left qtInsert objs (qtInsert t o)).
  unfold insertStep, qtInsert.
  destruct (QT.insert _ t o) as [[t1 r1]|]; apply IH.
Qed.

(** The index built from an empty root returns every inserted object that
    lies within the root's boundary and in the query box. *)
Lemma built_query_complete (b : Box) (cap maxd : nat) (objs : list A)
      (range : Box) (obj : A) :
  obj ∈ objs ->
  QT.outside b obj = false ->
  QT.inRange range obj = true ->
  obj ∈ QT.queryRange (fold_left qtInsert objs (QT.new b cap 0 maxd)) range [].
Proof.
  intros Hobj Hin Hrange.
  apply list_elem_of_lookup in Hobj as [k Hk].
  rewrite <- (insertAll_tree objs (QT.new b cap 0 maxd) []).
  destruct (insertAll_spec objs (QT.new b cap 0 maxd) [])
    as (_ & Hb & _ & Hit & _); [done|by constructor|].
  apply query_complete; [exact Hb| |done].
  apply (Hit k); [done|].
  rewrite insertAll_results by done. simpl.
  rewrite list_lookup_fmap, Hk. simpl. by rewrite Hin.
Qed.

End QuadTreeGrid.

(** ** Merging own cells *)

Lemma players_store (ref : nat) (c : Cell) (w : World) :
  players (store ref c w) = players w.
Proof. done. Qed.

Lemma heap_set_player (pi : nat) (p : Player) (w : World) :
  heap (set_player pi p w) = heap w.
Proof. done. Qed.

Lemma players_set_player_eq (pi : nat) (p p0 : Player) (w : World) :
  players w !! pi = Some p0 -> players (set_player pi p w) !! pi = Some p.
Proof.
  intros Hp. unfold set_player. simpl.
  apply list_lookup_insert_eq. by eapply lookup_lt_Some.
Qed.

Lemma players_set_player_ne (pi pi' : nat) (p : Player) (w : World) :
  pi <> pi' -> players (set_player pi p w) !! pi' = players w !! pi'.
Proof. intros. unfold set_player. simpl. by apply list_lookup_insert_ne. Qed.

Lemma cellCount_lookup (pi : nat) (w : World) (p : Player) :
  players w !! pi = Some p -> cellCount pi w = length (p_cells p).
Proof. intros Hp. unfold cellCount. by rewrite Hp. Qed.

Lemma mergePair_gated (pi i j : nat) (w : World) (p : Player) (ra rb : nat)
      (a b : Cell) :
  players w !! pi = Some p ->
  p_cells p !! i = Some ra ->
  p_cells p !! j = Some rb ->
  heap w !! ra = Some a ->
  heap w !! rb = Some b ->
  0 < c_mergeTimer a \/ 0 < c_mergeTimer b ->
  mergePair pi i j w = (w, S j).
Proof.
  intros Hp Hi Hj Ha Hb Ht. unfold mergePair. rewrite Hp, Hi, Hj, Ha, Hb.
  destruct Ht as [Ht|Ht].
  - by rewrite (Rgtb_true _ _ Ht).
  - rewrite (Rgtb_true _ _ Ht). by rewrite orb_true_r.
Qed.

(** What one round of the inner loop can do: nothing, or a merge of two
    cells whose timers have both run out. *)
Lemma mergePair_cases (pi i j : nat) (w : World) :
  mergePair pi i j w = (w, S j) \/
  exists p ra rb a b,
    players w !! pi = Some p /\
    p_cells p !! i = Some ra /\ p_cells p !! j = Some rb /\
    heap w !! ra = Some a /\ heap w !! rb = Some b /\
    c_mergeTimer a <= 0 /\ c_mergeTimer b <= 0 /\
    mergePair pi i j w
    = (set_player pi (set_p_cells (delete j (p_cells p)) p)
         (store ra
            (set_c_radius
               (radiusFromArea (cellAreaFromRadius (c_radius a)
                                + cellAreaFromRadius (c_radius b))) a) w),
       j).
Proof.
  unfold mergePair.
  destruct (players w !! pi) as [p|] eqn:Hp; [|by left].
  destruct (p_cells p !! i) as [ra|] eqn:Hi; [|by left].
  destruct (p_cells p !! j) as [rb|] eqn:Hj; [|by left].
  destruct (heap w !! ra) as [a|] eqn:Ha; [|by left].
  destruct (heap w !! rb) as [b|] eqn:Hb; [|by left].
  destruct (Rle_lt_dec (c_mergeTimer a) 0) as [Hta|Hta];
    [|rewrite (Rgtb_true _ _ Hta); by left].
  destruct (Rle_lt_dec (c_mergeTimer b) 0) as [Htb|Htb];
    [|rewrite (Rgtb_true _ _ Htb), orb_true_r; by left].
  rewrite (Rgtb_false _ _ Hta), (Rgtb_false _ _ Htb). simpl.
  destruct (Rltb _ _); [|by left].
  right. by exists p, ra, rb, a, b.
Qed.

(** One round of the inner loop brings [cellCount - j] down by one. *)
Lemma mergePair_measure (pi i j : nat) (w : World) :
  (j < cellCount pi w)%nat ->
  (cellCount pi (fst (mergePair pi i j w)) - snd (mergePair pi i j w)
   = cellCount pi w - j - 1)%nat.
Proof.
  intros Hj.
  destruct (mergePair_cases pi i j w)
    as [->|(p & ra & rb & a & b & Hp & _ & _ & _ & _ & _ & _ & ->)]; simpl.
  - lia.
  - rewrite (cellCount_lookup _ _ _ Hp) in *.
    erewrite cellCount_lookup; [|by eapply players_set_player_eq]. simpl.
    rewrite length_delete; [lia|]. by apply lookup_lt_is_Some_2.
Qed.

Lemma mergePair_cellCount (pi i j : nat) (w : World) :
  (cellCount pi (fst (mergePair pi i j w)) <= cellCount pi w)%nat.
Proof.
  destruct (mergePair_cases pi i j w)
    as [->|(p & ra & rb & a & b & Hp & _ & Hj & _ & _ & _ & _ & ->)]; simpl.
  - lia.
  - rewrite (cellCount_lookup _ _ _ Hp).
    erewrite cellCount_lookup; [|by eapply players_set_player_eq]. simpl.
    rewrite length_delete; [lia|]. by eexists.
Qed.

(** The inner loop has run to its end when [cellCount - j] rounds of fuel
    are given: more fuel changes nothing. *)
Lemma mergeInner_fuel (pi i : nat) (fuel : nat) :
  forall (j : nat) (w : World) (fuel' : nat),
    (cellCount pi w - j <= fuel)%nat -> (fuel <= fuel')%nat ->
    mergeInner fuel' pi i j w = mergeInner fuel pi i j w.
Proof.
  induction fuel as [|fuel IH]; intros j w fuel' Hm Hf.
  - destruct fuel' as [|fuel']; [done|]. simpl.
    destruct (Nat.ltb_spec j (cellCount pi w)); [lia|done].
  - destruct fuel' as [|fuel']; [lia|]. simpl.
    destruct (Nat.ltb_spec j (cellCount pi w)) as [Hj|]; [|done].
    pose proof (mergePair_measure pi i j w Hj) as Hdec.
    destruct (mergePair pi i j w) as [w' j']. simpl in Hdec.
    apply IH; lia.
Qed.

Lemma mergeInner_cellCount (pi i : nat) (fuel : nat) :
  forall (j : nat) (w : World),
    (cellCount pi (mergeInner fuel pi i j w) <= cellCount pi w)%nat.
Proof.
  induction fuel as [|fuel IH]; intros j w; simpl; [lia|].
  destruct (j <? cellCount pi w)%nat; [|lia].
  pose proof (mergePair_cellCount pi i j w) as Hle.
  destruct (mergePair pi i j w) as [w' j']. simpl in Hle.
  specialize (IH j' w'). lia.
Qed.

(** The outer loop has run to its end when [cellCount - i] rounds of fuel
    are given. *)
Lemma mergeOuter_fuel (pi : nat) (fuel : nat) :
  forall (i : nat) (w : World) (fuel' : nat),
    (cellCount pi w - i <= fuel)%nat -> (fuel <= fuel')%nat ->
    mergeOuter fuel' pi i w = mergeOuter fuel pi i w.
Proof.
  induction fuel as [|fuel IH]; intros i w fuel' Hm Hf.
  - destruct fuel' as [|fuel']; [done|]. simpl.
    destruct (Nat.ltb_spec i (cellCount pi w)); [lia|done].
  - destruct fuel' as [|fuel']; [lia|]. simpl.
    destruct (Nat.ltb_spec i (cellCount pi w)) as [Hi|]; [|done].
    pose proof (mergeInner_cellCount pi i (cellCount pi w) (S i) w).
    apply IH; lia.
Qed.

Lemma filter_delete_False {A} (P : A -> Prop) `{forall x, Decision (P x)}
      (l : list A) (j : nat) (x : A) :
  l !! j = Some x -> ~ P x -> filter P (delete j l) = filter P l.
Proof.
  revert j. induction l as [|y l IH]; intros [|j] Hj Hn; simpl in *; try done.
  - inversion Hj; subst. by rewrite filter_cons_False.
  - rewrite !filter_cons. by rewrite (IH j).
Qed.

Lemma list_filter_ext_iff {A} (P Q : A -> Prop)
      `{forall x, Decision (P x)} `{forall x, Decision (Q x)} (l : list A) :
  (forall x, P x <-> Q x) -> filter P l = filter Q l.
Proof.
  intros HPQ. induction l as [|x l IH]; [done|].
  rewrite !filter_cons, IH.
  destruct (decide (P x)) as [HP|HP], (decide (Q x)) as [HQ|HQ]; try done;
    exfalso; apply HPQ in HP || apply HPQ in HQ; done.
Qed.

Lemma mergeKeeps_refl (pi : nat) (w : World) : mergeKeeps pi w w.
Proof. repeat split; try done. intros p Hp. by exists p. Qed.

Lemma mergeKeeps_trans (pi : nat) (w1 w2 w3 : World) :
  mergeKeeps pi w1 w2 -> mergeKeeps pi w2 w3 -> mergeKeeps pi w1 w3.
Proof.
  intros (G1 & H1 & P1) (G2 & H2 & P2). split; [|split].
  - intros r. by rewrite G2, G1.
  - intros r c Hr Ht. apply H2; [|done]. by apply H1.
  - intros p Hp. destruct (P1 p Hp) as (p' & Hp' & F1).
    destruct (P2 p' Hp') as (p'' & Hp'' & F2).
    exists p''. split; [done|]. rewrite <- F1.
    rewrite (list_filter_ext_iff _ (fun r => gated w2 r = true) (p_cells p''))
      by (intros r; by rewrite G1).
    rewrite (list_filter_ext_iff _ (fun r => gated w2 r = true) (p_cells p'))
      by (intros r; by rewrite G1).
    done.
Qed.

Lemma mergePair_keeps (pi i j : nat) (w : World) :
  mergeKeeps pi w (fst (mergePair pi i j w)).
Proof.
  destruct (mergePair_cases pi i j w)
    as [->|(p & ra & rb & a & b & Hp & Hi & Hj & Ha & Hb & Hta & Htb & ->)];
    [apply mergeKeeps_refl|]. simpl.
  assert (Hgate : forall r,
    gated (set_player pi (set_p_cells (delete j (p_cells p)) p)
             (store ra (set_c_radius
                          (radiusFromArea (cellAreaFromRadius (c_radius a)
                                           + cellAreaFromRadius (c_radius b))) a) w)) r
    = gated w r).
  { intros r. unfold gated. rewrite heap_set_player.
    destruct (decide (ra = r)) as [<-|Hne].
    - erewrite heap_store_eq by done. by rewrite Ha.
    - by rewrite heap_store_ne. }
  split; [done|]. split.
  - intros r c Hr Ht. rewrite heap_set_player.
    destruct (decide (ra = r)) as [<-|Hne].
    + rewrite Ha in Hr. inversion Hr; subst. lra.
    + by rewrite heap_store_ne.
  - intros p0 Hp0. rewrite Hp in Hp0. inversion Hp0; subst p0.
    eexists. split; [by eapply players_set_player_eq|]. simpl.
    apply (filter_delete_False _ _ _ rb); [done|].
    unfold gated. rewrite Hb. rewrite Rgtb_false by done. done.
Qed.

Lemma mergeInner_keeps (pi i : nat) (fuel : nat) :
  forall (j : nat) (w : World), mergeKeeps pi w (mergeInner fuel pi i j w).
Proof.
  induction fuel as [|fuel IH]; intros j w; simpl; [apply mergeKeeps_refl|].
  destruct (j <? cellCount pi w)%nat; [|apply mergeKeeps_refl].
  pose proof (mergePair_keeps pi i j w) as Hk.
  destruct (mergePair pi i j w) as [w' j']. simpl in Hk.
  eapply mergeKeeps_trans; [exact Hk|apply IH].
Qed.

Lemma mergeOuter_keeps (pi : nat) (fuel : nat) :
  forall (i : nat) (w : World), mergeKeeps pi w (mergeOuter fuel pi i w).
Proof.
  induction fuel as [|fuel IH]; intros i w; simpl; [apply mergeKeeps_refl|].
  destruct (i <? cellCount pi w)%nat; [|apply mergeKeeps_refl].
  eapply mergeKeeps_trans; [apply mergeInner_keeps|apply IH].
Qed.

Lemma mergePlayer_keeps (pi : nat) (w : World) : mergeKeeps pi w (mergePlayer w pi).
Proof.
  unfold mergePlayer. destruct (cellCount pi w <=? 1)%nat;
    [apply mergeKeeps_refl|apply mergeOuter_keeps].
Qed.

Lemma mergeInner_S (fuel pi i j : nat) (w : World) :
  mergeInner (S fuel) pi i j w
  = if (j <? cellCount pi w)%nat
    then mergeInner fuel pi i (snd (mergePair pi i j w)) (fst (mergePair pi i j w))
    else w.
Proof. simpl. by destruct (mergePair pi i j w). Qed.

Lemma mergeOuter_S (fuel pi i : nat) (w : World) :
  mergeOuter (S fuel) pi i w
  = if (i <? cellCount pi w)%nat
    then mergeOuter fuel pi (S i) (mergeInner (cellCount pi w) pi i (S i) w)
    else w.
Proof. done. Qed.

Lemma mergePlayer_two (pi : nat) (w : World) (p : Player) (ra rb : nat) (a b : Cell) :
  players w !! pi = Some p ->
  p_cells p = [ra; rb] ->
  heap w !! ra = Some a ->
  heap w !! rb = Some b ->
  c_mergeTimer a <= 0 ->
  c_mergeTimer b <= 0 ->
  (c_x a - c_x b) * (c_x a - c_x b) + (c_y a - c_y b) * (c_y a - c_y b)
    < (c_radius a + c_radius b) ^ 2 ->
  mergePlayer w pi
  = set_player pi (set_p_cells [ra] p)
      (store ra
         (set_c_radius
            (radiusFromArea (cellAreaFromRadius (c_radius a)
                             + cellAreaFromRadius (c_radius b))) a) w).
Proof.
  intros Hp Hcells Ha Hb Hta Htb Hd.
  set (w' := set_player pi (set_p_cells [ra] p) _).
  assert (Hc : cellCount pi w = 2%nat)
    by (by rewrite (cellCount_lookup _ _ _ Hp), Hcells).
  assert (Hc' : cellCount pi w' = 1%nat).
  { erewrite cellCount_lookup; [|by eapply players_set_player_eq]. done. }
  assert (Hpair : mergePair pi 0 1 w = (w', 1%nat)).
  { rewrite (mergePair_hit pi 0 1 w p ra rb a b) by (rewrite ?Hcells; done).
    by rewrite Hcells. }
  unfold mergePlayer. rewrite Hc. change (2 <=? 1)%nat with false. cbv iota.
  rewrite mergeOuter_S, Hc. change (0 <? 2)%nat with true. cbv iota.
  rewrite mergeInner_S, Hc, Hpair. change (1 <? 2)%nat with true. cbv iota.
  change (fst (w', 1%nat)) with w'. change (snd (w', 1%nat)) with 1%nat.
  rewrite mergeInner_S, Hc'. change (1 <? 1)%nat with false. cbv iota.
  by rewrite mergeOuter_S, Hc'.
Qed.

(** *** Two ready cells do not both survive a sweep *)

Lemma NoDup_delete_notin {A} (l : list A) (j : nat) (x : A) :
  NoDup l -> l !! j = Some x -> x ∉ delete j l.
Proof.
  intros Hnd Hj Hin. apply list_elem_of_lookup in Hin as [k Hk].
  destruct (Nat.lt_ge_cases k j) as [Hlt|Hge].
  - rewrite list_lookup_delete_lt in Hk by done.
    pose proof (NoDup_lookup _ _ _ _ Hnd Hk Hj). lia.
  - rewrite list_lookup_delete_ge in Hk by done.
    pose proof (NoDup_lookup _ _ _ _ Hnd Hk Hj). lia.
Qed.

Lemma notin_delete {A} (l : list A) (j : nat) (x : A) :
  x ∉ l -> x ∉ delete j l.
Proof.
  intros Hx Hin. apply Hx. eapply elem_of_sublist; [done|]. apply sublist_delete.
Qed.

Lemma lookup_delete_shift {A} (l : list A) (j k : nat) (x : A) :
  l !! k = Some x -> k <> j ->
  delete j l !! (if (k <? j)%nat then k else pred k) = Some x.
Proof.
  intros Hk Hne. destruct (Nat.ltb_spec k j) as [Hlt|Hge].
  - by rewrite list_lookup_delete_lt.
  - rewrite list_lookup_delete_ge by lia.
    by replace (S (pred k)) with k by lia.
Qed.

Lemma grown_radius (a b : R) :
  0 <= a -> a <= radiusFromArea (cellAreaFromRadius a + cellAreaFromRadius b).
Proof.
  intros Ha. rewrite radiusFromArea_sum.
  rewrite <- (sqrt_square a) at 1 by done.
  apply sqrt_le_1_alt. nra.
Qed.

(** Growing one stored cell in place keeps a ready pair ready. *)
Lemma mergeReady_store (w : World) (ra rb x : nat) (c : Cell) (r : R) :
  heap w !! x = Some c ->
  (x = ra \/ x = rb -> c_radius c <= r) ->
  mergeReady w ra rb -> mergeReady (store x (set_c_radius r c) w) ra rb.
Proof.
  intros Hx Hr (a & b & Ha & Hb & Hta & Htb & Hra & Hrb & Hd).
  assert (Hlen : (x < length (heap w))%nat) by by eapply lookup_lt_Some.
  assert (Hget : forall y d, y = ra \/ y = rb -> heap w !! y = Some d ->
            exists d', heap (store x (set_c_radius r c) w) !! y = Some d' /\
                       c_x d' = c_x d /\ c_y d' = c_y d /\
                       c_mergeTimer d' = c_mergeTimer d /\
                       c_radius d <= c_radius d').
  { intros y d Hy Hyd. unfold store. simpl. destruct (decide (x = y)) as [->|Hne].
    - rewrite list_lookup_insert_eq by done.
      assert (d = c) as -> by congruence.
      eexists. split; [done|]. destruct c. simpl in *. auto. 
    - rewrite list_lookup_insert_ne by done.
      exists d. repeat split; [done|lra]. }
  destruct (Hget ra a (or_introl eq_refl) Ha) as (a' & Ha' & Hax & Hay & Hat & Har).
  destruct (Hget rb b (or_intror eq_refl) Hb) as (b' & Hb' & Hbx & Hby & Hbt & Hbr).
  exists a', b'. rewrite Hax, Hay, Hbx, Hby, Hat, Hbt.
  repeat split; try done; try lra.
  eapply Rlt_le_trans; [exact Hd|]. nra.
Qed.

Lemma mergedAway_pair (pi ra rb i j : nat) (w : World) :
  mergedAway pi ra rb w -> mergedAway pi ra rb (fst (mergePair pi i j w)).
Proof.
  intros (p & Hp & Hout).
  destruct (mergePair_cases pi i j w)
    as [->|(p0 & xa & xb & a & b & Hp0 & _ & _ & _ & _ & _ & _ & ->)]; simpl.
  - by exists p.
  - assert (p0 = p) as -> by congruence.
    eexists. split; [by eapply players_set_player_eq|]. simpl.
    destruct Hout; [left|right]; by apply notin_delete.
Qed.

(** One round of the inner loop keeps the invariant: the pair is still
    ahead of the sweep, or one of the two cells is gone. *)
Lemma mergePair_waiting (pi ra rb i j : nat) (w : World) :
  (i < j)%nat ->
  mergedAway pi ra rb w \/ mergeWaiting pi ra rb i j w ->
  mergedAway pi ra rb (fst (mergePair pi i j w)) \/
  mergeWaiting pi ra rb i (snd (mergePair pi i j w)) (fst (mergePair pi i j w)).
Proof.
  intros Hij [Hgone|Hwait]; [left; by apply mergedAway_pair|].
  destruct Hwait as (p & ka & kb & Hp & Hnd & Hka & Hkb & Hlt & Hpos & Hready).
  destruct (decide (ka = i /\ kb = j)) as [[-> ->]|Hother].
  { (* the sweep tests the two cells against each other: they merge *)
    destruct Hready as (a & b & Ha & Hb & Hta & Htb & _ & _ & Hd).
    rewrite (mergePair_hit pi i j w p ra rb a b) by done. simpl.
    left. eexists. split; [by eapply players_set_player_eq|]. simpl.
    right. by apply NoDup_delete_notin. }
  destruct (mergePair_cases pi i j w)
    as [->|(p0 & xa & xb & a & b & Hp0 & Hxa & Hxb & Ha & Hb & _ & _ & ->)]; simpl.
  - right. exists p, ka, kb. do 5 (split; [done|]). split; [lia|done].
  - assert (p0 = p) as -> by congruence.
    destruct (decide (ka = j)) as [->|Hnea].
    { left. eexists. split; [by eapply players_set_player_eq|]. simpl.
      left. by apply NoDup_delete_notin. }
    destruct (decide (kb = j)) as [->|Hneb].
    { left. eexists. split; [by eapply players_set_player_eq|]. simpl.
      right. by apply NoDup_delete_notin. }
    right.
    exists (set_p_cells (delete j (p_cells p)) p),
           (if (ka <? j)%nat then ka else pred ka),
           (if (kb <? j)%nat then kb else pred kb).
    split; [by eapply players_set_player_eq|]. simpl.
    split; [eapply sublist_NoDup; [exact Hnd|apply sublist_delete]|].
    split; [by apply lookup_delete_shift|].
    split; [by apply lookup_delete_shift|].
    split; [destruct (Nat.ltb_spec ka j), (Nat.ltb_spec kb j); lia|].
    split; [destruct (Nat.ltb_spec ka j), (Nat.ltb_spec kb j); lia|].
    change (mergeReady
              (store xa
                 (set_c_radius
                    (radiusFromArea (cellAreaFromRadius (c_radius a)
                                     + cellAreaFromRadius (c_radius b))) a) w)
              ra rb).
    apply mergeReady_store; [done| |done].
    intros Hx. apply grown_radius.
    destruct Hready as (a0 & b0 & Ha0 & Hb0 & _ & _ & Hra0 & Hrb0 & _).
    destruct Hx as [->| ->]; congruence.
Qed.

(** The inner loop for row [i], run to its end, leaves the pair ahead of
    row [i + 1] or one of the two cells gone. *)
Lemma mergeInner_waiting (pi ra rb i : nat) (fuel : nat) :
  forall (j : nat) (w : World),
    (i < j)%nat -> (cellCount pi w - j <= fuel)%nat ->
    mergedAway pi ra rb w \/ mergeWaiting pi ra rb i j w ->
    mergedAway pi ra rb (mergeInner fuel pi i j w) \/
    mergeWaiting pi ra rb (S i) (S (S i)) (mergeInner fuel pi i j w).
Proof.
  assert (Hexit : forall j w,
    (cellCount pi w <= j)%nat ->
    mergedAway pi ra rb w \/ mergeWaiting pi ra rb i j w ->
    mergedAway pi ra rb w \/ mergeWaiting pi ra rb (S i) (S (S i)) w).
  { intros j w Hj [Hgone|Hwait]; [by left|right].
    destruct Hwait as (p & ka & kb & Hp & Hnd & Hka & Hkb & Hlt & Hpos & Hready).
    rewrite (cellCount_lookup _ _ _ Hp) in Hj.
    pose proof (lookup_lt_Some _ _ _ Hkb) as Hlen.
    exists p, ka, kb. do 5 (split; [done|]). split; [lia|done]. }
  induction fuel as [|fuel IH]; intros j w Hij Hm Hinv.
  - simpl. apply (Hexit j); [lia|done].
  - simpl. destruct (Nat.ltb_spec j (cellCount pi w)) as [Hj|Hj];
      [|by apply (Hexit j)].
    pose proof (mergePair_measure pi i j w Hj) as Hdec.
    pose proof (mergePair_waiting pi ra rb i j w Hij Hinv) as Hnext.
    assert (Hj' : snd (mergePair pi i j w) = j \/ snd (mergePair pi i j w) = S j).
    { destruct (mergePair_cases pi i j w)
        as [->|(? & ? & ? & ? & ? & _ & _ & _ & _ & _ & _ & _ & ->)]; simpl; auto. }
    destruct (mergePair pi i j w) as [w' j']. simpl in *.
    apply IH; [lia|lia|done].
Qed.

Lemma mergeOuter_waiting (pi ra rb : nat) (fuel : nat) :
  forall (i : nat) (w : World),
    (cellCount pi w - i <= fuel)%nat ->
    mergedAway pi ra rb w \/ mergeWaiting pi ra rb i (S i) w ->
    mergedAway pi ra rb (mergeOuter fuel pi i w).
Proof.
  assert (Hexit : forall i w,
    (cellCount pi w <= i)%nat ->
    mergedAway pi ra rb w \/ mergeWaiting pi ra rb i (S i) w ->
    mergedAway pi ra rb w).
  { intros i w Hi [Hgone|Hwait]; [done|].
    destruct Hwait as (p & ka & kb & Hp & Hnd & Hka & Hkb & Hlt & Hpos & Hready).
    rewrite (cellCount_lookup _ _ _ Hp) in Hi.
    pose proof (lookup_lt_Some _ _ _ Hkb) as Hlen. lia. }
  induction fuel as [|fuel IH]; intros i w Hm Hinv.
  - simpl. apply (Hexit i); [lia|done].
  - simpl. destruct (Nat.ltb_spec i (cellCount pi w)) as [Hi|Hi];
      [|by apply (Hexit i)].
    pose proof (mergeInner_cellCount pi i (cellCount pi w) (S i) w) as Hle.
    apply IH; [lia|].
    apply mergeInner_waiting; [lia|lia|done].
Qed.

(** Two cells of a player that overlap with both timers run out are not
    both among the player's cells after the sweep. *)
Lemma mergePlayer_away (pi : nat) (w : World) (p : Player) (i j ra rb : nat)
      (a b : Cell) :
  players w !! pi = Some p ->
  NoDup (p_cells p) ->
  p_cells p !! i = Some ra -> p_cells p !! j = Some rb -> (i < j)%nat ->
  heap w !! ra = Some a -> heap w !! rb = Some b ->
  c_mergeTimer a <= 0 -> c_mergeTimer b <= 0 ->
  0 <= c_radius a -> 0 <= c_radius b ->
  (c_x a - c_x b) * (c_x a - c_x b) + (c_y a - c_y b) * (c_y a - c_y b)
    < (c_radius a + c_radius b) ^ 2 ->
  exists p', players (mergePlayer w pi) !! pi = Some p' /\
             (ra ∉ p_cells p' \/ rb ∉ p_cells p').
Proof.
  intros Hp Hnd Hi Hj Hij Ha Hb Hta Htb Hra Hrb Hd.
  assert (Hc : cellCount pi w = length (p_cells p)) by by apply cellCount_lookup.
  pose proof (lookup_lt_Some _ _ _ Hj) as Hlen.
  unfold mergePlayer. destruct (Nat.leb_spec (cellCount pi w) 1) as [Hle|_]; [lia|].
  apply (mergeOuter_waiting pi ra rb); [lia|].
  right. exists p, i, j. do 5 (split; [done|]). split; [lia|].
  by exists a, b.
Qed.

(** Far-apart cells: the round only advances [j]. *)
Lemma mergePair_apart (pi i j : nat) (w : World) (p : Player) (ra rb : nat)
      (a b : Cell) :
  players w !! pi = Some p ->
  p_cells p !! i = Some ra ->
  p_cells p !! j = Some rb ->
  heap w !! ra = Some a ->
  heap w !! rb = Some b ->
  (c_radius a + c_radius b) ^ 2
    <= (c_x a - c_x b) * (c_x a - c_x b) + (c_y a - c_y b) * (c_y a - c_y b) ->
  mergePair pi i j w = (w, S j).
Proof.
  intros Hp Hi Hj Ha Hb Hd. unfold mergePair. rewrite Hp, Hi, Hj, Ha, Hb.
  destruct (_ || _); [done|]. simpl. by rewrite Rltb_false.
Qed.

(** C4. In the same-owner merge sweep a pair of cells is skipped while
    either merge timer is above zero, and a whole sweep leaves every such
    cell as it is and where it is among the player's cells. Once both
    timers are at or below zero and the cells overlap
    ([distance^2 < (ra + rb)^2]), the round for the pair [(i, j)] puts the
    combined area into the lower-indexed cell and removes the
    higher-indexed one, and the loop looks at position [j] again; the sweep
    of a player with exactly these two cells merges them. Among more cells
    the two need not merge with each other, since a lower-indexed cell may
    absorb one of them first, but two overlapping cells of non-negative
    radius with both timers run out are never both left among the player's
    cells by the sweep. *)
Theorem C4_merge_gating (pi : nat) (w : World) (p : Player) :
  players w !! pi = Some p ->
  (forall i j ra rb a b,
      p_cells p !! i = Some ra -> p_cells p !! j = Some rb ->
      heap w !! ra = Some a -> heap w !! rb = Some b ->
      0 < c_mergeTimer a \/ 0 < c_mergeTimer b ->
      mergePair pi i j w = (w, S j)) /\
  mergeKeeps pi w (mergePlayer w pi) /\
  (forall i j ra rb a b,
      p_cells p !! i = Some ra -> p_cells p !! j = Some rb ->
      heap w !! ra = Some a -> heap w !! rb = Some b ->
      c_mergeTimer a <= 0 -> c_mergeTimer b <= 0 ->
      (c_x a - c_x b) * (c_x a - c_x b) + (c_y a - c_y b) * (c_y a - c_y b)
        < (c_radius a + c_radius b) ^ 2 ->
      mergePair pi i j w
      = (set_player pi (set_p_cells (delete j (p_cells p)) p)
           (store ra
              (set_c_radius
                 (radiusFromArea (cellAreaFromRadius (c_radius a)
                                  + cellAreaFromRadius (c_radius b))) a) w),
         j)) /\
  (forall ra rb a b,
      p_cells p = [ra; rb] ->
      heap w !! ra = Some a -> heap w !! rb = Some b ->
      c_mergeTimer a <= 0 -> c_mergeTimer b <= 0 ->
      (c_x a - c_x b) * (c_x a - c_x b) + (c_y a - c_y b) * (c_y a - c_y b)
        < (c_radius a + c_radius b) ^ 2 ->
      mergePlayer w pi
      = set_player pi (set_p_cells [ra] p)
          (store ra
             (set_c_radius
                (radiusFromArea (cellAreaFromRadius (c_radius a)
                                 + cellAreaFromRadius (c_radius b))) a) w)) /\
  (forall i j ra rb a b,
      NoDup (p_cells p) ->
      p_cells p !! i = Some ra -> p_cells p !! j = Some rb -> (i < j)%nat ->
      heap w !! ra = Some a -> heap w !! rb = Some b ->
      c_mergeTimer a <= 0 -> c_mergeTimer b <= 0 ->
      0 <= c_radius a -> 0 <= c_radius b ->
      (c_x a - c_x b) * (c_x a - c_x b) + (c_y a - c_y b) * (c_y a - c_y b)
        < (c_radius a + c_radius b) ^ 2 ->
      exists p', players (mergePlayer w pi) !! pi = Some p' /\
                 (ra ∉ p_cells p' \/ rb ∉ p_cells p')).
Proof.
  intros Hp. split; [|split; [|split; [|split]]].
  - intros. by eapply mergePair_gated.
  - apply mergePlayer_keeps.
  - intros. by eapply mergePair_hit.
  - intros. by eapply mergePlayer_two.
  - intros. by eapply mergePlayer_away.
Qed.

Lemma C4_merge_gating_witness :
  mergePlayer exWorldMerge 0
  = set_player 0 (set_p_cells [0%nat] (exPlayer 1 [0%nat; 1%nat]))
      (store 0
         (set_c_radius
            (radiusFromArea (cellAreaFromRadius 20 + cellAreaFromRadius 20))
            (exCell 0 0 20 (-1))) exWorldMerge).
Proof.
  refine (proj1 (proj2 (proj2 (proj2
            (C4_merge_gating 0 exWorldMerge (exPlayer 1 [0%nat; 1%nat]) _))))
            0%nat 1%nat (exCell 0 0 20 (-1)) (exCell 10 0 20 0) _ _ _ _ _ _).
  - reflexivity.
  - reflexivity.
  - reflexivity.
  - reflexivity.
  - simpl. lra.
  - simpl. lra.
  - simpl. lra.
Defined.

(** The sweep of three cells in a row, A at 0, B at 30 and C at 60, all of
    radius 20 with their timers run out: A absorbs B, and the grown A does
    not reach C. *)
Lemma mergePass_three :
  mergePass exWorldThree
  = set_player 0 (set_p_cells [0%nat; 2%nat] (exPlayer 1 [0%nat; 1%nat; 2%nat]))
      (store 0
         (set_c_radius
            (radiusFromArea (cellAreaFromRadius 20 + cellAreaFromRadius 20))
            (exCell 0 0 20 (-1))) exWorldThree).
Proof.
  set (p := exPlayer 1 [0%nat; 1%nat; 2%nat]).
  set (grown := set_c_radius
                  (radiusFromArea (cellAreaFromRadius 20 + cellAreaFromRadius 20))
                  (exCell 0 0 20 (-1))).
  set (w1 := set_player 0 (set_p_cells [0%nat; 2%nat] p) (store 0 grown exWorldThree)).
  assert (Hc : cellCount 0 exWorldThree = 3%nat) by done.
  assert (Hc1 : cellCount 0 w1 = 2%nat) by done.
  assert (Hpair : mergePair 0 0 1 exWorldThree = (w1, 1%nat)).
  { rewrite (mergePair_hit 0 0 1 exWorldThree p 0 1
               (exCell 0 0 20 (-1)) (exCell 30 0 20 (-1)));
      try done; simpl; lra. }
  assert (Hfar : mergePair 0 0 1 w1 = (w1, 2%nat)).
  { apply (mergePair_apart 0 0 1 w1 (set_p_cells [0%nat; 2%nat] p) 0 2
             grown (exCell 60 0 20 (-1))); try done.
    unfold grown. simpl c_radius. simpl c_x. simpl c_y.
    rewrite radiusFromArea_sum.
    assert (Hs : sqrt (20 * 20 + 20 * 20) <= 30).
    { rewrite <- (sqrt_square 30) by lra. apply sqrt_le_1_alt. lra. }
    assert (H0 : 0 <= sqrt (20 * 20 + 20 * 20)) by apply sqrt_pos.
    nra. }
  change (mergePass exWorldThree) with (mergePlayer exWorldThree 0).
  unfold mergePlayer. rewrite Hc. change (3 <=? 1)%nat with false. cbv iota.
  rewrite mergeOuter_S, Hc. change (0 <? 3)%nat with true. cbv iota.
  rewrite mergeInner_S, Hc, Hpair. change (1 <? 3)%nat with true.
  cbv iota. cbn [fst snd].
  rewrite mergeInner_S, Hc1, Hfar. change (1 <? 2)%nat with true.
  cbv iota. cbn [fst snd].
  rewrite mergeInner_S, Hc1. change (2 <? 2)%nat with false. cbv iota.
  rewrite mergeOuter_S, Hc1. change (1 <? 2)%nat with true. cbv iota.
  rewrite mergeInner_S, Hc1. change (2 <? 2)%nat with false. cbv iota.
  rewrite mergeOuter_S, Hc1. change (2 <? 2)%nat with false. by cbv iota.
Qed.

Lemma C4_counterexample :
  let w := exWorldThree in
  let w' := mergePass w in
  let B := exCell 30 0 20 (-1) in
  let C := exCell 60 0 20 (-1) in
  (exists p, players w !! 0%nat = Some p /\
             p_cells p !! 1%nat = Some 1%nat /\ p_cells p !! 2%nat = Some 2%nat) /\
  heap w !! 1%nat = Some B /\ heap w !! 2%nat = Some C /\
  c_mergeTimer B <= 0 /\ c_mergeTimer C <= 0 /\
  (c_x B - c_x C) * (c_x B - c_x C) + (c_y B - c_y C) * (c_y B - c_y C)
    < (c_radius B + c_radius C) ^ 2 /\
  (exists p', players w' !! 0%nat = Some p' /\ p_cells p' = [0%nat; 2%nat]) /\
  heap w' !! 1%nat = Some B /\ heap w' !! 2%nat = Some C /\
  ~ (exists p' b', players w' !! 0%nat = Some p' /\ (2%nat ∉ p_cells p') /\
                   heap w' !! 1%nat = Some b' /\
                   cellAreaFromRadius (c_radius b')
                   = cellAreaFromRadius (c_radius B) + cellAreaFromRadius (c_radius C)).
Proof.
  cbv zeta. rewrite mergePass_three.
  split; [by eexists|].
  do 2 (split; [done|]).
  do 2 (split; [simpl; lra|]).
  split; [simpl; lra|].
  split; [by eexists|].
  do 2 (split; [done|]).
  intros (p' & b' & Hp' & Hout & _). apply Hout.
  assert (p' = set_p_cells [0%nat; 2%nat] (exPlayer 1 [0%nat; 1%nat; 2%nat]))
    as -> by (simpl in Hp'; congruence).
  simpl. apply list_elem_of_In. simpl. auto.
Qed.

(** ** Movement *)


Lemma clamp_id (lo hi x : R) : lo <= x <= hi -> Rmax lo (Rmin hi x) = x.
Proof.
  intros [H1 H2]. rewrite Rmin_right by done. by rewrite Rmax_right.
Qed.

Lemma moveCell_radius (dt : R) (p : Player) (c : Cell) :
  c_radius (moveCell dt p c) = c_radius c.
Proof.
  unfold moveCell. destruct (p_hasMouseTarget p); [destruct (Rgtb _ _)|];
    try destruct (p_inputDir p); done.
Qed.

(** What the movement of one cell computes, step by step. *)
Lemma moveCell_spec (dt : R) (p : Player) (c : Cell) :
  let c' := moveCell dt p c in
  let lo := - worldHalf + c_radius c in
  let hi := worldHalf - c_radius c in
  exists vx vy : R,
    c_vx c' = vx * 0.86 /\
    c_vy c' = vy * 0.86 /\
    c_x c' = Rmax lo (Rmin hi (c_x c + vx * dt)) /\
    c_y c' = Rmax lo (Rmin hi (c_y c + vy * dt)) /\
    c_radius c' = c_radius c /\
    c_mergeTimer c' = c_mergeTimer c - dt /\
    (p_hasMouseTarget p = false ->
     let speed := BASE_SPEED / sqrt (c_radius c / 40) in
     let dirLen := or_one (hypot (fst (p_inputDir p)) (snd (p_inputDir p))) in
     vx = c_vx c + fst (p_inputDir p) / dirLen * speed * dt /\
     vy = c_vy c + snd (p_inputDir p) / dirLen * speed * dt) /\
    (p_hasMouseTarget p = true ->
     let speed := BASE_SPEED / sqrt (c_radius c / 40) in
     let dx := p_mouseX p - c_x c in
     let dy := p_mouseY p - c_y c in
     let distToMouse := sqrt (dx * dx + dy * dy) in
     (c_radius c * 0.5 < distToMouse ->
      vx = c_vx c + dx / distToMouse * speed * dt * TARGET_SPEED_MULTIPLIER /\
      vy = c_vy c + dy / distToMouse * speed * dt * TARGET_SPEED_MULTIPLIER) /\
     (distToMouse <= c_radius c * 0.5 ->
      vx = c_vx c * 0.7 /\ vy = c_vy c * 0.7)).
Proof.
  intros c' lo hi. subst c' lo hi. unfold moveCell.
  destruct (p_hasMouseTarget p) eqn:Hm.
  - destruct (Rle_lt_dec
                (sqrt ((p_mouseX p - c_x c) * (p_mouseX p - c_x c)
                       + (p_mouseY p - c_y c) * (p_mouseY p - c_y c)))
                (c_radius c * 0.5)) as [Hd|Hd].
    + rewrite (Rgtb_false _ _ Hd). simpl. do 2 eexists.
      repeat (split; [reflexivity|]). split; [done|].
      intros _. split; [intros; lra|done].
    + rewrite (Rgtb_true _ _ Hd). simpl. do 2 eexists.
      repeat (split; [reflexivity|]). split; [done|].
      intros _. split; [done|intros; lra].
  - destruct (p_inputDir p) as [dx dy]. simpl. do 2 eexists.
    repeat (split; [reflexivity|]). split; [done|]. done.
Qed.

(** C5 (as amended). In the movement of a cell the position is integrated
    with the velocity after acceleration and before drag: the new position
    is the clamp of [position + v * dt] where [v] is the velocity the drag
    is then applied to (the final velocity is [v * 0.86]). The clamp to the
    world bounds follows the drag, and only the merge timer's decrement
    comes after it. *)
Theorem C5_move_order (dt : R) (p : Player) (c : Cell) :
  let c' := moveCell dt p c in
  let lo := - worldHalf + c_radius c in
  let hi := worldHalf - c_radius c in
  exists vx vy : R,
    c_vx c' = vx * 0.86 /\
    c_vy c' = vy * 0.86 /\
    c_x c' = Rmax lo (Rmin hi (c_x c + vx * dt)) /\
    c_y c' = Rmax lo (Rmin hi (c_y c + vy * dt)) /\
    c_radius c' = c_radius c /\
    c_mergeTimer c' = c_mergeTimer c - dt /\
    (p_hasMouseTarget p = false ->
     let speed := BASE_SPEED / sqrt (c_radius c / 40) in
     let dirLen := or_one (hypot (fst (p_inputDir p)) (snd (p_inputDir p))) in
     vx = c_vx c + fst (p_inputDir p) / dirLen * speed * dt /\
     vy = c_vy c + snd (p_inputDir p) / dirLen * speed * dt) /\
    (p_hasMouseTarget p = true ->
     let speed := BASE_SPEED / sqrt (c_radius c / 40) in
     let dx := p_mouseX p - c_x c in
     let dy := p_mouseY p - c_y c in
     let distToMouse := sqrt (dx * dx + dy * dy) in
     (c_radius c * 0.5 < distToMouse ->
      vx = c_vx c + dx / distToMouse * speed * dt * TARGET_SPEED_MULTIPLIER /\
      vy = c_vy c + dy / distToMouse * speed * dt * TARGET_SPEED_MULTIPLIER) /\
     (distToMouse <= c_radius c * 0.5 ->
      vx = c_vx c * 0.7 /\ vy = c_vy c * 0.7)).
Proof. apply moveCell_spec. Qed.

Lemma moveCell_exCellMoving :
  moveCell 1 (exPlayer 1 [0%nat]) exCellMoving = mkCell 100 0 40 86 0 9.
Proof.
  unfold moveCell. simpl. rewrite hypot_0, or_one_0. unfold worldHalf, WORLD_SIZE.
  rewrite !clamp_id by lra.
  unfold set_c_mergeTimer, set_c_pos, set_c_vel, exCellMoving. simpl.
  f_equal; lra.
Qed.

(** C5 (as stated) fails: with the post-drag velocity the cell below,
    which moves at 100 for one second, would advance by 86; it advances
    by 100. *)
Lemma C5_counterexample :
  let c' := moveCell 1 (exPlayer 1 [0%nat]) exCellMoving in
  c_x c' <> Rmax (- worldHalf + c_radius exCellMoving)
                 (Rmin (worldHalf - c_radius exCellMoving)
                       (c_x exCellMoving + c_vx c' * 1)).
Proof.
  rewrite moveCell_exCellMoving. simpl. unfold worldHalf, WORLD_SIZE.
  rewrite clamp_id by lra. lra.
Qed.

(** ** Virus explosion *)

Section Explosion.
Variable rnd : nat -> R.

Lemma pieceCount_range (a : R) : (8 <= pieceCount a <= 16)%Z.
Proof. unfold pieceCount, MAX_VIRUS_PIECES. lia. Qed.

(** The loop of [explodeCellIntoMany] appends its fragments to the store
    and touches nothing else but the random draws. *)
Lemma explodePieces_spec (cell : Cell) (pieces : Z) (pieceRadius minDistance : R)
      (n : nat) :
  forall (s : nat) (w : World) (news : list nat),
    exists cs : list Cell,
      let res := fold_left (explodePiece rnd cell pieces pieceRadius minDistance)
                           (seq s n) (w, news) in
      length cs = n /\
      Forall (fun c => c_radius c = pieceRadius) cs /\
      heap (fst res) = heap w ++ cs /\
      snd res = news ++ seq (length (heap w)) n /\
      players (fst res) = players w /\
      foods (fst res) = foods w /\
      viruses (fst res) = viruses w.
Proof.
  induction n as [|n IH]; intros s w news.
  { exists []. simpl. by rewrite !app_nil_r. }
  simpl seq. simpl fold_left.
  match goal with |- context [heap w ++ [?c]] => set (c0 := c) end.
  set (w1 := set_heap _ _).
  destruct (IH (S s) w1 (news ++ [length (heap w)]))
    as (cs & Hlen & Hrad & Hh & Hn & Hp & Hf & Hv).
  exists (c0 :: cs). simpl. simpl in Hh, Hn, Hp, Hf, Hv.
  split; [by rewrite Hlen|]. split; [by constructor|].
  split; [rewrite Hh; by rewrite <- app_assoc|].
  split; [|done].
  rewrite Hn, length_app, <- app_assoc. simpl.
  by replace (length (heap w) + 1)%nat with (S (length (heap w))) by lia.
Qed.

Lemma cellsArea_app (w : World) (l1 l2 : list nat) :
  cellsArea w (l1 ++ l2) = cellsArea w l1 + cellsArea w l2.
Proof.
  induction l1 as [|r l1 IH]; simpl; [lra|].
  rewrite IH. destruct (heap w !! r); lra.
Qed.

Lemma cellsArea_cons (w : World) (ref : nat) (refs : list nat) (c : Cell) :
  heap w !! ref = Some c ->
  cellsArea w (ref :: refs) = cellAreaFromRadius (c_radius c) + cellsArea w refs.
Proof. intros Hc. simpl. by rewrite Hc. Qed.

Lemma cellsArea_fresh (cs : list Cell) :
  forall (h : list Cell) (w : World) (r : R),
    heap w = h ++ cs ->
    Forall (fun c => cellAreaFromRadius (c_radius c) = r) cs ->
    cellsArea w (seq (length h) (length cs)) = INR (length cs) * r.
Proof.
  induction cs as [|c cs IH]; intros h w r Hh Hall.
  { simpl. lra. }
  inversion Hall as [|? ? Hc Hcs]; subst.
  change (length (c :: cs)) with (S (length cs)).
  rewrite S_INR. simpl seq.
  rewrite (cellsArea_cons w (length h) _ c)
    by (by rewrite Hh, lookup_app_r, Nat.sub_diag by lia).
  specialize (IH (h ++ [c]) w (cellAreaFromRadius (c_radius c))).
  rewrite length_app in IH. simpl in IH.
  replace (length h + 1)%nat with (S (length h)) in IH by lia.
  rewrite IH; [lra| by rewrite <- app_assoc | done].
Qed.

Lemma filter_ne_not_elem (ref : nat) (l : list nat) :
  ref ∉ filter (fun c => c <> ref) l.
Proof. rewrite list_elem_of_filter. tauto. Qed.

(** One call of [explodeCellIntoMany], and when the virus loop makes
    it: the cell leaves its owner's sequence and
    [pieces = min(16, max(8, floor(area / 2000)))] fragments of equal area
    are appended to it, whose total area is the area of the cell; the
    virus is moved to a new random position. *)
Lemma explosion_spec (pi ref : nat) (w : World) (p : Player) (cell : Cell) :
  players w !! pi = Some p ->
  heap w !! ref = Some cell ->
  let w' := explodeCellIntoMany rnd pi ref w in
  let area := cellAreaFromRadius (c_radius cell) in
  let pieces := Z.min 16 (Z.max 8 (floor (area / 2000))) in
  let fragments := seq (length (heap w)) (Z.to_nat pieces) in
  (8 <= pieces <= 16)%Z /\
  (exists p',
      players w' !! pi = Some p' /\
      p_cells p' = filter (fun c => c <> ref) (p_cells p) ++ fragments /\
      ref ∉ p_cells p') /\
  (forall r, r ∈ fragments ->
             exists c, heap w' !! r = Some c /\
                       c_radius c = radiusFromArea (area / IZR pieces) /\
                       cellAreaFromRadius (c_radius c) = area / IZR pieces) /\
  cellsArea w' fragments = area /\
  (forall vi v,
      viruses w !! vi = Some v ->
      (c_x cell - v_x v) * (c_x cell - v_x v) + (c_y cell - v_y v) * (c_y cell - v_y v)
        < (c_radius cell + v_radius v) ^ 2 ->
      (v_radius v * 1.1 < c_radius cell ->
       hitVirus rnd pi ref w vi =
         let '(x, w1) := randPos rnd w' in
         let '(y, w2) := randPos rnd w1 in
         set_viruses (<[vi := set_v_pos x y v]> (viruses w2)) w2) /\
      (c_radius cell <= v_radius v * 1.1 -> hitVirus rnd pi ref w vi = w)).
Proof.
  intros Hp Hc w' area pieces fragments.
  assert (Hrange : (8 <= pieces <= 16)%Z) by (subst pieces; lia).
  assert (Harea : 0 <= area) by apply area_nonneg.
  assert (Hpos : 0 < IZR pieces) by (apply IZR_lt; lia).
  assert (Hpiece : 0 <= area / IZR pieces).
  { apply Rmult_le_pos; [done|]. left. by apply Rinv_0_lt_compat. }
  pose proof (lookup_lt_Some _ _ _ Hc) as Hlt.
  destruct (explodePieces_spec cell pieces (radiusFromArea (area / IZR pieces))
              (radiusFromArea (area / IZR pieces) * 3) (Z.to_nat pieces) 0 w [])
    as (cs & Hlen & Hrad & Hh & Hn & Hpl & _ & _).
  assert (Hw' : w' = set_player pi
                       (set_p_cells (filter (fun c => c <> ref) (p_cells p) ++ fragments) p)
                       (fst (fold_left
                               (explodePiece rnd cell pieces
                                  (radiusFromArea (area / IZR pieces))
                                  (radiusFromArea (area / IZR pieces) * 3))
                               (seq 0 (Z.to_nat pieces)) (w, [])))).
  { subst w'. unfold explodeCellIntoMany. rewrite Hp, Hc.
    fold area. unfold pieceCount, MAX_VIRUS_PIECES. fold pieces.
    destruct (fold_left _ _ _) as [w1 news] eqn:Hfold.
    simpl in Hpl, Hn. rewrite Hpl, Hp. by rewrite Hn. }
  assert (Hheap : heap w' = heap w ++ cs) by (by rewrite Hw', heap_set_player).
  split; [done|]. split; [|split; [|split]].
  - eexists. split; [rewrite Hw'; eapply players_set_player_eq; by rewrite Hpl|].
    simpl. split; [done|].
    rewrite elem_of_app. intros [Hin|Hin].
    + by apply filter_ne_not_elem in Hin.
    + subst fragments. apply elem_of_seq in Hin. lia.
  - intros r Hr. subst fragments. apply elem_of_seq in Hr.
    destruct (lookup_lt_is_Some_2 cs (r - length (heap w))) as [c Hcs]; [lia|].
    exists c. rewrite Hheap, lookup_app_r by lia. split; [done|].
    rewrite Forall_forall in Hrad.
    rewrite (Hrad c) by (by eapply list_elem_of_lookup_2).
    split; [done|]. by apply area_radiusFromArea.
  - subst fragments. rewrite <- Hlen.
    rewrite (cellsArea_fresh cs (heap w) w' (area / IZR pieces)); [|done|].
    + rewrite Hlen, INR_IZR_INZ, Z2Nat.id by lia. field. lra.
    + eapply Forall_impl; [exact Hrad|]. intros c ->.
      by apply area_radiusFromArea.
  - intros vi v Hv Htouch. unfold hitVirus. rewrite Hc, Hv.
    rewrite (Rltb_true _ _ Htouch). split; intros Hr.
    + by rewrite (Rgtb_true _ _ Hr).
    + by rewrite (Rgtb_false _ _ Hr).
Qed.

(** The world after one call: the fragments are appended to the store,
    the owner's array is replaced, and nothing else is touched, the
    exploded cell object included. *)
Lemma explode_world (pi ref : nat) (w : World) (p : Player) (cell : Cell) :
  players w !! pi = Some p ->
  heap w !! ref = Some cell ->
  let w' := explodeCellIntoMany rnd pi ref w in
  let area := cellAreaFromRadius (c_radius cell) in
  let pieces := pieceCount area in
  exists cs,
    length cs = Z.to_nat pieces /\
    Forall (fun c => cellAreaFromRadius (c_radius c) = area / IZR pieces) cs /\
    heap w' = heap w ++ cs /\
    players w'
    = <[pi := set_p_cells (filter (fun c => c <> ref) (p_cells p)
                           ++ seq (length (heap w)) (Z.to_nat pieces)) p]> (players w) /\
    viruses w' = viruses w.
Proof.
  intros Hp Hc w' area pieces.
  pose proof (pieceCount_range area) as Hrange. fold pieces in Hrange.
  assert (Harea : 0 <= area) by apply area_nonneg.
  assert (Hpos : 0 < IZR pieces) by (apply IZR_lt; lia).
  assert (Hpiece : 0 <= area / IZR pieces).
  { apply Rmult_le_pos; [done|]. left. by apply Rinv_0_lt_compat. }
  destruct (explodePieces_spec cell pieces (radiusFromArea (area / IZR pieces))
              (radiusFromArea (area / IZR pieces) * 3) (Z.to_nat pieces) 0 w [])
    as (cs & Hlen & Hrad & Hh & Hn & Hpl & _ & Hv).
  exists cs. subst w'. unfold explodeCellIntoMany. rewrite Hp, Hc.
  fold area. fold pieces.
  destruct (fold_left _ _ _) as [w1 news] eqn:Hfold.
  simpl in Hpl, Hn, Hh, Hv. rewrite Hpl, Hp. unfold set_player. simpl.
  rewrite Hn, Hh, Hpl, Hv. split; [done|]. split; [|done].
  eapply Forall_impl; [exact Hrad|]. intros c ->. by apply area_radiusFromArea.
Qed.

Lemma hitVirus_hit (pi ref : nat) (w : World) (vi : nat) (cell : Cell) (v : Virus) :
  heap w !! ref = Some cell ->
  viruses w !! vi = Some v ->
  (c_x cell - v_x v) * (c_x cell - v_x v) + (c_y cell - v_y v) * (c_y cell - v_y v)
    < (c_radius cell + v_radius v) ^ 2 ->
  v_radius v * 1.1 < c_radius cell ->
  let w' := explodeCellIntoMany rnd pi ref w in
  exists x y,
    heap (hitVirus rnd pi ref w vi) = heap w' /\
    players (hitVirus rnd pi ref w vi) = players w' /\
    viruses (hitVirus rnd pi ref w vi) = <[vi := set_v_pos x y v]> (viruses w').
Proof.
  intros Hc Hv Htouch Hbig w'. unfold hitVirus. rewrite Hc, Hv.
  rewrite (Rltb_true _ _ Htouch), (Rgtb_true _ _ Hbig).
  fold w'. unfold randPos, random. simpl. by do 2 eexists.
Qed.

(** C8. The virus loop of a tick goes on with the same cell object after
    an explosion, so a cell that touches two viruses explodes twice: the
    radius-70 cell of the only player, on two viruses, leaves the player
    with twice [pieces] fragments (between 16 and 32), whose total area is
    twice the area of the cell and not that area. *)
Theorem C8_double_detonation :
  let w' := virusPass rnd exWorldTwoViruses in
  let pieces := Z.to_nat (pieceCount (cellAreaFromRadius 70)) in
  (8 <= pieces <= 16)%nat /\
  (exists p', players w' !! 0%nat = Some p' /\
              p_cells p' = seq 1 pieces ++ seq (1 + pieces) pieces) /\
  playerArea 0 w' = 2 * cellAreaFromRadius 70 /\
  playerArea 0 w' <> playerArea 0 exWorldTwoViruses.
Proof.
  intros w' pieces.
  pose proof (pieceCount_range (cellAreaFromRadius 70)) as Hrange.
  assert (Hn : (8 <= pieces <= 16)%nat) by (subst pieces; lia).
  set (area := cellAreaFromRadius 70) in *.
  assert (Hpos : 0 < IZR (pieceCount area)) by (apply IZR_lt; lia).
  assert (HINR : INR pieces = IZR (pieceCount area)).
  { subst pieces. rewrite INR_IZR_INZ, Z2Nat.id by lia. done. }
  (* the first virus *)
  set (w0 := exWorldTwoViruses).
  destruct (explode_world 0 0 w0 (exPlayer 1 [0%nat]) (exCell 0 0 70 10) eq_refl eq_refl)
    as (cs1 & Hlen1 & Hrad1 & Hh1 & Hp1 & Hv1).
  destruct (hitVirus_hit 0 0 w0 0 (exCell 0 0 70 10) (mkVirus 1 0 0 VIRUS_RADIUS)
                         eq_refl eq_refl) as (x1 & y1 & Ha1 & Ha2 & Ha3).
  { simpl. unfold VIRUS_RADIUS. lra. }
  { simpl. unfold VIRUS_RADIUS. lra. }
  cbv zeta in *. simpl c_radius in *. fold area in Hlen1, Hrad1, Hp1. fold pieces in Hlen1, Hp1.
  set (wa := hitVirus rnd 0 0 w0 0) in *.
  rewrite Hh1 in Ha1. rewrite Hp1 in Ha2. rewrite Hv1 in Ha3.
  simpl in Ha1, Ha2, Ha3.
  (* the second virus, with the same cell *)
  assert (Hcell : heap wa !! 0%nat = Some (exCell 0 0 70 10)) by (by rewrite Ha1).
  assert (Hvir : viruses wa !! 1%nat = Some (mkVirus 2 10 0 VIRUS_RADIUS))
    by (by rewrite Ha3).
  assert (Hpl : players wa !! 0%nat
                = Some (set_p_cells (seq 1 pieces) (exPlayer 1 [0%nat])))
    by (by rewrite Ha2).
  destruct (explode_world 0 0 wa _ (exCell 0 0 70 10) Hpl Hcell)
    as (cs2 & Hlen2 & Hrad2 & Hh2 & Hp2 & Hv2).
  destruct (hitVirus_hit 0 0 wa 1 (exCell 0 0 70 10) (mkVirus 2 10 0 VIRUS_RADIUS)
                         Hcell Hvir) as (x2 & y2 & Hb1 & Hb2 & Hb3).
  { simpl. unfold VIRUS_RADIUS. lra. }
  { simpl. unfold VIRUS_RADIUS. lra. }
  cbv zeta in *. simpl c_radius in *. fold area in Hlen2, Hrad2, Hp2. fold pieces in Hlen2, Hp2.
  set (wb := hitVirus rnd 0 0 wa 1) in *.
  rewrite Hh2, Ha1 in Hb1. rewrite Hp2, Ha2 in Hb2. simpl in Hb1, Hb2.
  assert (Hkeep : filter (fun c => c <> 0%nat) (seq 1 pieces) = seq 1 pieces).
  { apply filter_all, Forall_forall. intros r Hr. apply elem_of_seq in Hr. lia. }
  rewrite Hkeep, Ha1 in Hb2. simpl length in Hb2. rewrite Hlen1 in Hb2.
  assert (Hw' : w' = wb) by reflexivity.
  assert (Hcells : players w' !! 0%nat
                   = Some (set_p_cells (seq 1 pieces ++ seq (S pieces) pieces)
                                       (set_p_cells (seq 1 pieces) (exPlayer 1 [0%nat]))))
    by (by rewrite Hw', Hb2).
  assert (Harea : playerArea 0 w' = 2 * area).
  { unfold playerArea. rewrite Hcells. simpl p_cells.
    rewrite <- seq_app.
    assert (Hall : Forall (fun c => cellAreaFromRadius (c_radius c)
                                    = area / IZR (pieceCount area)) (cs1 ++ cs2))
      by (by apply Forall_app).
    pose proof (cellsArea_fresh (cs1 ++ cs2) [exCell 0 0 70 10] w'
                                (area / IZR (pieceCount area))) as Hfresh.
    rewrite length_app, Hlen1, Hlen2 in Hfresh. simpl length in Hfresh.
    rewrite Hfresh; [|by rewrite Hw', Hb1|done].
    rewrite plus_INR, HINR. field. lra. }
  split; [done|]. split; [by eexists|]. split; [done|].
  rewrite Harea. unfold playerArea. simpl. fold area.
  assert (0 < area); [|lra].
  subst area. unfold cellAreaFromRadius. assert (HPI := PI_RGT_0). nra.
Qed.

End Explosion.

(** ** What the passes of a tick leave alone *)

Lemma fold_left_rel {A B} (Rel : A -> A -> Prop) (f : A -> B -> A) (l : list B) :
  (forall a, Rel a a) ->
  (forall a b c, Rel a b -> Rel b c -> Rel a c) ->
  (forall a x, Rel a (f a x)) ->
  forall a, Rel a (fold_left f l a).
Proof.
  intros Hrefl Htrans Hstep. induction l as [|x l IH]; intros a; simpl; [done|].
  eapply Htrans; [apply Hstep|apply IH].
Qed.

Lemma keepsMouse_refl (p : Player) : keepsMouse p p.
Proof. by repeat split. Qed.

Lemma keepsMouse_trans (p1 p2 p3 : Player) :
  keepsMouse p1 p2 -> keepsMouse p2 p3 -> keepsMouse p1 p3.
Proof. unfold keepsMouse. intuition congruence. Qed.

Lemma steady_refl (w : World) : steady w w.
Proof. apply Forall_Forall2_diag, Forall_forall. intros. apply keepsMouse_refl. Qed.

Lemma steady_trans (w1 w2 w3 : World) : steady w1 w2 -> steady w2 w3 -> steady w1 w3.
Proof.
  unfold steady. intros H1 H2. eapply Forall2_trans; [|exact H1|exact H2].
  intros p1 p2 p3. apply keepsMouse_trans.
Qed.

Lemma steady_players (w w' : World) : players w' = players w -> steady w w'.
Proof. unfold steady. intros ->. apply steady_refl. Qed.

Lemma steady_set_player (pi : nat) (p p' : Player) (w : World) :
  players w !! pi = Some p -> keepsMouse p p' -> steady w (set_player pi p' w).
Proof.
  intros Hp Hk. unfold steady, set_player. simpl.
  rewrite <- (list_insert_id (players w) pi p) at 1 by done.
  apply Forall2_insert; [apply steady_refl|done].
Qed.

Lemma quiet_refl (w : World) : quiet w w.
Proof. split; [apply steady_refl|done]. Qed.

Lemma quiet_trans (w1 w2 w3 : World) : quiet w1 w2 -> quiet w2 w3 -> quiet w1 w3.
Proof.
  intros [S1 F1] [S2 F2]. split; [by eapply steady_trans|congruence].
Qed.

Lemma quiet_players (w w' : World) :
  players w' = players w -> foods w' = foods w -> quiet w w'.
Proof. intros Hp Hf. split; [by apply steady_players|done]. Qed.

Lemma quiet_set_player (pi : nat) (p p' : Player) (w : World) :
  players w !! pi = Some p -> keepsMouse p p' -> quiet w (set_player pi p' w).
Proof. intros Hp Hk. split; [by eapply steady_set_player|done]. Qed.

Lemma keepsMouse_cells (cs : list nat) (p : Player) : keepsMouse p (set_p_cells cs p).
Proof. by repeat split. Qed.

Lemma keepsMouse_inputDir (d : R * R) (p : Player) : keepsMouse p (set_p_inputDir d p).
Proof. by repeat split. Qed.

Lemma quiet_store (ref : nat) (c : Cell) (w : World) : quiet w (store ref c w).
Proof. by apply quiet_players. Qed.

(** *** Split *)

Lemma splitCell_quiet (dx dy len : R) (ref : nat) (acc : World * list nat) :
  quiet (fst acc) (fst (splitCell dx dy len ref acc)).
Proof.
  destruct acc as [w news]. unfold splitCell. simpl.
  destruct (heap w !! ref) as [cell|]; [|apply quiet_refl].
  destruct (Rltb _ _); [apply quiet_refl|]. by apply quiet_players.
Qed.

Lemma splitCells_quiet (dx dy len : R) (refs : list nat) :
  forall acc : World * list nat,
    quiet (fst acc)
          (fst (fold_left (fun acc ref => splitCell dx dy len ref acc) refs acc)).
Proof.
  induction refs as [|ref refs IH]; intros acc; simpl; [apply quiet_refl|].
  eapply quiet_trans; [apply splitCell_quiet|apply IH].
Qed.

Lemma splitPlayer_quiet (pi : nat) (w : World) : quiet w (splitPlayer pi w).
Proof.
  unfold splitPlayer. destruct (players w !! pi) as [player|] eqn:Hp;
    [|apply quiet_refl].
  destruct (p_inputDir player) as [dx dy].
  pose proof (splitCells_quiet dx dy (or_one (hypot dx dy)) (p_cells player) (w, []))
    as Hq.
  destruct (fold_left _ _ _) as [w1 newCells]. simpl in Hq.
  destruct (0 <? length newCells)%nat; [|done].
  eapply quiet_trans; [exact Hq|].
  destruct Hq as [Hs _]. unfold steady in Hs.
  destruct (Forall2_lookup_l _ _ _ _ _ Hs Hp) as (p1 & Hp1 & Hk).
  eapply quiet_set_player; [exact Hp1|].
  destruct Hk as (? & ? & ? & ? & ?). by repeat split.
Qed.

(** *** Bots *)

Lemma random_quiet (rnd : nat -> R) (w : World) : quiet w (snd (random rnd w)).
Proof. by apply quiet_players. Qed.

Lemma randPos_quiet (rnd : nat -> R) (w : World) : quiet w (snd (randPos rnd w)).
Proof. by apply quiet_players. Qed.

Lemma botThink_quiet (rnd : nat -> R) (pi : nat) (w : World) :
  quiet w (botThink rnd pi w).
Proof.
  unfold botThink. destruct (players w !! pi) as [bot|] eqn:Hp; [|apply quiet_refl].
  destruct (p_cells bot) as [|r0 ?]; [apply quiet_refl|].
  destruct (heap w !! r0) as [my|]; [|apply quiet_refl].
  destruct (fold_left _ (imap pair (players w)) _) as [target flee].
  destruct (match flee with Some _ => _ | None => _ end) as [vx vy].
  set (w1 := set_player pi _ w).
  assert (Hq : quiet w w1)
    by (eapply quiet_set_player; [done|apply keepsMouse_inputDir]).
  destruct target as [t|]; [|done].
  unfold random.
  assert (Hq' : quiet w (set_draws (S (draws w1)) w1))
    by (eapply quiet_trans; [exact Hq|by apply quiet_players]).
  destruct (Rltb _ _); [|done].
  eapply quiet_trans; [exact Hq'|apply splitPlayer_quiet].
Qed.

Lemma thinkBots_quiet (rnd : nat -> R) (w : World) : quiet w (thinkBots rnd w).
Proof.
  unfold thinkBots. apply fold_left_rel; [apply quiet_refl|apply quiet_trans|].
  intros a pi. destruct (players a !! pi) as [p|]; [|apply quiet_refl].
  destruct (p_isBot p); [apply botThink_quiet|apply quiet_refl].
Qed.

(** *** Movement *)

Lemma moveRef_quiet (dt : R) (p : Player) (w : World) (ref : nat) :
  quiet w (moveRef dt p w ref).
Proof.
  unfold moveRef. destruct (heap w !! ref); [apply quiet_store|apply quiet_refl].
Qed.

Lemma movePlayer_quiet (dt : R) (w : World) (p : Player) :
  quiet w (movePlayer dt w p).
Proof.
  unfold movePlayer. apply fold_left_rel;
    [apply quiet_refl|apply quiet_trans|apply moveRef_quiet].
Qed.

Lemma movePlayers_quiet (dt : R) (w : World) : quiet w (movePlayers dt w).
Proof.
  unfold movePlayers. apply fold_left_rel;
    [apply quiet_refl|apply quiet_trans|apply movePlayer_quiet].
Qed.

(** *** Cells eating cells *)

Lemma consume_quiet (refA refB pB : nat) (cA cB : Cell) (w : World) :
  quiet w (consume refA refB pB cA cB w).
Proof.
  unfold consume. rewrite players_store.
  destruct (players w !! pB) as [playerB|] eqn:Hp; [|apply quiet_store].
  destruct (indexOf refB (p_cells playerB)); [|apply quiet_store].
  eapply quiet_trans; [apply quiet_store|].
  eapply quiet_set_player; [by rewrite players_store|apply keepsMouse_cells].
Qed.

Lemma eatCell_quiet (k : nat) (item : Item) (w : World) (other : nat * Item) :
  quiet w (eatCell k item w other).
Proof.
  unfold eatCell. repeat case_match; try apply quiet_refl. apply consume_quiet.
Qed.

Lemma eatCellsItem_quiet (qtCells : QuadTree (nat * Item)) (w : World)
      (e : nat * Item) :
  quiet w (eatCellsItem qtCells w e).
Proof.
  unfold eatCellsItem. destruct e as [k item].
  destruct (heap w !! i_cell item); [|apply quiet_refl].
  apply fold_left_rel; [apply quiet_refl|apply quiet_trans|apply eatCell_quiet].
Qed.

Lemma eatCells_quiet (w : World) : quiet w (eatCells w).
Proof.
  unfold eatCells. apply fold_left_rel;
    [apply quiet_refl|apply quiet_trans|apply eatCellsItem_quiet].
Qed.

(** *** Viruses *)

Lemma explodeCellIntoMany_quiet (rnd : nat -> R) (pi ref : nat) (w : World) :
  quiet w (explodeCellIntoMany rnd pi ref w).
Proof.
  unfold explodeCellIntoMany.
  destruct (players w !! pi) as [p|] eqn:Hp; [|apply quiet_refl].
  destruct (heap w !! ref) as [cell|]; [|apply quiet_refl].
  match goal with
  | |- context [fold_left (explodePiece rnd cell ?n ?r ?d) (seq 0 ?k) _] =>
    destruct (explodePieces_spec rnd cell n r d k 0 w [])
      as (cs & _ & _ & _ & _ & Hpl & Hf & _)
  end.
  destruct (fold_left _ _ _) as [w1 newCells]. simpl in Hpl, Hf.
  rewrite Hpl, Hp.
  eapply quiet_trans; [by apply (quiet_players w w1)|].
  eapply quiet_set_player; [by rewrite Hpl|apply keepsMouse_cells].
Qed.

Lemma hitVirus_quiet (rnd : nat -> R) (pi ref : nat) (w : World) (vi : nat) :
  quiet w (hitVirus rnd pi ref w vi).
Proof.
  unfold hitVirus. destruct (heap w !! ref) as [c|]; [|apply quiet_refl].
  destruct (viruses w !! vi) as [v|]; [|apply quiet_refl].
  destruct (Rltb _ _); [|apply quiet_refl].
  destruct (Rgtb _ _); [|apply quiet_refl].
  eapply quiet_trans; [apply explodeCellIntoMany_quiet|]. by apply quiet_players.
Qed.

Lemma virusPass_quiet (rnd : nat -> R) (w : World) : quiet w (virusPass rnd w).
Proof.
  unfold virusPass. apply fold_left_rel; [apply quiet_refl|apply quiet_trans|].
  intros a pi. unfold virusesPlayer.
  destruct (players a !! pi) as [p|]; [|apply quiet_refl].
  apply fold_left_rel; [apply quiet_refl|apply quiet_trans|].
  intros b ref. unfold hitViruses.
  apply fold_left_rel; [apply quiet_refl|apply quiet_trans|apply hitVirus_quiet].
Qed.

(** *** Merging *)

Lemma mergePair_quiet (pi i j : nat) (w : World) :
  quiet w (fst (mergePair pi i j w)).
Proof.
  destruct (mergePair_cases pi i j w)
    as [->|(p & ra & rb & a & b & Hp & _ & _ & _ & _ & _ & _ & ->)];
    [apply quiet_refl|]. simpl.
  eapply quiet_trans; [apply quiet_store|].
  eapply quiet_set_player; [by rewrite players_store|apply keepsMouse_cells].
Qed.

Lemma mergeInner_quiet (pi i : nat) (fuel : nat) :
  forall (j : nat) (w : World), quiet w (mergeInner fuel pi i j w).
Proof.
  induction fuel as [|fuel IH]; intros j w; simpl; [apply quiet_refl|].
  destruct (j <? cellCount pi w)%nat; [|apply quiet_refl].
  pose proof (mergePair_quiet pi i j w) as Hq.
  destruct (mergePair pi i j w) as [w' j']. simpl in Hq.
  eapply quiet_trans; [exact Hq|apply IH].
Qed.

Lemma mergeOuter_quiet (pi : nat) (fuel : nat) :
  forall (i : nat) (w : World), quiet w (mergeOuter fuel pi i w).
Proof.
  induction fuel as [|fuel IH]; intros i w; simpl; [apply quiet_refl|].
  destruct (i <? cellCount pi w)%nat; [|apply quiet_refl].
  eapply quiet_trans; [apply mergeInner_quiet|apply IH].
Qed.

Lemma mergePass_quiet (w : World) : quiet w (mergePass w).
Proof.
  unfold mergePass. apply fold_left_rel; [apply quiet_refl|apply quiet_trans|].
  intros a pi. unfold mergePlayer.
  destruct (cellCount pi a <=? 1)%nat; [apply quiet_refl|apply mergeOuter_quiet].
Qed.

(** ** Food *)


Lemma moveFoods_length (dt : R) (w : World) :
  length (foods (moveFoods dt w)) = length (foods w).
Proof. unfold moveFoods. simpl. apply length_map. Qed.

Lemma foodPassKeeps_refl (w : World) : foodPassKeeps w w.
Proof. done. Qed.

Lemma foodPassKeeps_trans (w1 w2 w3 : World) :
  foodPassKeeps w1 w2 -> foodPassKeeps w2 w3 -> foodPassKeeps w1 w3.
Proof. unfold foodPassKeeps. intuition congruence. Qed.

Lemma eatFood_keeps (ref : nat) (w : World) (e : nat * Food) :
  foodPassKeeps w (eatFood ref w e).
Proof.
  unfold eatFood. repeat case_match; try apply foodPassKeeps_refl.
  split; [done|]. simpl. apply length_insert.
Qed.

Lemma eatFoods_keeps (qtFood : QuadTree (nat * Food)) (w : World) :
  foodPassKeeps w (eatFoods qtFood w).
Proof.
  unfold eatFoods.
  apply fold_left_rel; [apply foodPassKeeps_refl|apply foodPassKeeps_trans|].
  intros a p.
  apply fold_left_rel; [apply foodPassKeeps_refl|apply foodPassKeeps_trans|].
  intros b ref. unfold eatFoodsCell. destruct (heap b !! ref); [|done].
  apply fold_left_rel;
    [apply foodPassKeeps_refl|apply foodPassKeeps_trans|apply eatFood_keeps].
Qed.

Section Replenish.
Variable rnd : nat -> R.

Lemma createFood_fresh (w : World) :
  f_dead (fst (createFood rnd false None None 0 0 w)) = false.
Proof. done. Qed.

Lemma pushFood_foods (w : World) :
  exists f, foods (pushFood rnd w) = foods w ++ [f] /\ f_dead f = false.
Proof. unfold pushFood. simpl. by eexists. Qed.

Lemma pushFood_arena (w : World) :
  players (pushFood rnd w) = players w /\
  heap (pushFood rnd w) = heap w /\
  viruses (pushFood rnd w) = viruses w.
Proof. done. Qed.

(** The top-up loop has run to its end after at most [FOOD_COUNT]
    rounds: it leaves [max FOOD_COUNT n] pellets where it found [n], none
    of the added ones dead. *)
Lemma refill_spec (fuel : nat) :
  forall w : World,
    (FOOD_COUNT - length (foods w) <= fuel)%nat ->
    let w' := refill rnd fuel w in
    length (foods w') = Nat.max FOOD_COUNT (length (foods w)) /\
    (Forall (fun f => f_dead f = false) (foods w) ->
     Forall (fun f => f_dead f = false) (foods w')) /\
    players w' = players w /\ heap w' = heap w /\ viruses w' = viruses w.
Proof.
  induction fuel as [|fuel IH]; intros w Hfuel; simpl.
  { split; [lia|done]. }
  destruct (Nat.ltb_spec (length (foods w)) FOOD_COUNT) as [Hlt|Hge].
  - destruct (pushFood_foods w) as (f & Hf & Hd).
    destruct (pushFood_arena w) as (Hp & Hh & Hv).
    destruct (IH (pushFood rnd w)) as (Hlen & Hdead & Hp' & Hh' & Hv').
    { rewrite Hf, length_app. simpl. lia. }
    rewrite Hf, length_app in Hlen. simpl in Hlen.
    split; [lia|]. split; [|by rewrite Hp', Hh', Hv'].
    intros Hall. apply Hdead. rewrite Hf. apply Forall_app.
    split; [done|by constructor].
  - split; [lia|done].
Qed.

(** More fuel than [FOOD_COUNT] changes nothing: the loop has exited. *)
Lemma refill_done (w : World) :
  (FOOD_COUNT <= length (foods (refill rnd FOOD_COUNT w)))%nat.
Proof.
  destruct (refill_spec FOOD_COUNT w) as (Hlen & _); [lia|].
  cbv zeta in Hlen. rewrite Hlen. lia.
Qed.

Lemma replenish_spec (w : World) :
  let alive := filter (fun f => f_dead f = false) (foods w) in
  let w' := replenish rnd w in
  length (foods w') = Nat.max FOOD_COUNT (length alive) /\
  Forall (fun f => f_dead f = false) (foods w') /\
  players w' = players w /\ heap w' = heap w /\ viruses w' = viruses w.
Proof.
  intros alive w'. subst w'. unfold replenish.
  destruct (refill_spec FOOD_COUNT (set_foods alive w))
    as (Hlen & Hdead & Hp & Hh & Hv); [lia|].
  split; [done|]. split; [|done].
  apply Hdead. simpl. apply Forall_forall. intros f Hf.
  by apply list_elem_of_filter in Hf as [? _].
Qed.

(** The pellets after a tick are those the top-up leaves. *)
Lemma update_foods (dt : R) (w : World) :
  let w1 := movePlayers dt (moveFoods dt (thinkBots rnd w)) in
  foods (update rnd dt w)
  = foods (replenish rnd (eatFoods (buildFoodTree w1) w1)).
Proof.
  unfold update. cbv zeta.
  destruct (mergePass_quiet (virusPass rnd (eatCells
             (replenish rnd
                (eatFoods (buildFoodTree (movePlayers dt (moveFoods dt (thinkBots rnd w))))
                          (movePlayers dt (moveFoods dt (thinkBots rnd w)))))))) as [_ ->].
  destruct (virusPass_quiet rnd (eatCells
             (replenish rnd
                (eatFoods (buildFoodTree (movePlayers dt (moveFoods dt (thinkBots rnd w))))
                          (movePlayers dt (moveFoods dt (thinkBots rnd w))))))) as [_ ->].
  by destruct (eatCells_quiet
             (replenish rnd
                (eatFoods (buildFoodTree (movePlayers dt (moveFoods dt (thinkBots rnd w))))
                          (movePlayers dt (moveFoods dt (thinkBots rnd w)))))) as [_ ->].
Qed.

(** C7 (as amended). After every completed tick the world holds at least
    [FOOD_COUNT] pellets, none of them dead: dead pellets are purged and
    fresh spawns top the collection up to [FOOD_COUNT] when fewer
    survive. It holds exactly [FOOD_COUNT] when the tick started with no
    more than that, and never more than the larger of [FOOD_COUNT] and
    the number it started with. *)
Theorem C7_food_count (dt : R) (w : World) :
  let w' := update rnd dt w in
  (FOOD_COUNT <= length (foods w'))%nat /\
  (length (foods w') <= Nat.max FOOD_COUNT (length (foods w)))%nat /\
  ((length (foods w) <= FOOD_COUNT)%nat -> length (foods w') = FOOD_COUNT) /\
  Forall (fun f => f_dead f = false) (foods w').
Proof.
  intros w'. subst w'. rewrite update_foods.
  set (w1 := movePlayers dt (moveFoods dt (thinkBots rnd w))).
  set (w2 := eatFoods (buildFoodTree w1) w1).
  destruct (replenish_spec w2) as (Hlen & Hdead & _).
  assert (Hw2 : length (foods w2) = length (foods w)).
  { subst w2. destruct (eatFoods_keeps (buildFoodTree w1) w1) as [_ ->].
    subst w1. destruct (movePlayers_quiet dt (moveFoods dt (thinkBots rnd w))) as [_ ->].
    rewrite moveFoods_length.
    by destruct (thinkBots_quiet rnd w) as [_ ->]. }
  pose proof (length_filter (fun f => f_dead f = false) (foods w2)) as Hfl.
  rewrite Hlen. split; [lia|]. split; [lia|]. split; [lia|done].
Qed.

End Replenish.

(** *** A run in which the pellets exceed [FOOD_COUNT] *)

Section Run.
Variable rnd : nat -> R.

Lemma iter_pushFood (n : nat) (w : World) :
  let w' := Nat.iter n (pushFood rnd) w in
  length (foods w') = (n + length (foods w))%nat /\
  (Forall (fun f => f_dead f = false) (foods w) ->
   Forall (fun f => f_dead f = false) (foods w')) /\
  players w' = players w /\ heap w' = heap w /\
  nextPlayerId w' = nextPlayerId w.
Proof.
  induction n as [|n IH]; [done|]. cbv zeta in *. rewrite Nat.iter_succ.
  destruct IH as (Hlen & Hdead & Hp & Hh & Hid).
  destruct (pushFood_foods rnd (Nat.iter n (pushFood rnd) w)) as (f & Hf & Hd).
  destruct (pushFood_arena rnd (Nat.iter n (pushFood rnd) w)) as (Hp1 & Hh1 & _).
  rewrite Hf, length_app, Hlen, Hp1, Hh1. simpl length.
  split; [lia|]. split; [|done].
  intros Hall. apply Forall_app. split; [by apply Hdead|by constructor].
Qed.

Lemma iter_pushVirus (n : nat) (w : World) :
  let w' := Nat.iter n (pushVirus rnd) w in
  foods w' = foods w /\ players w' = players w /\ heap w' = heap w /\
  nextPlayerId w' = nextPlayerId w /\
  length (viruses w') = (n + length (viruses w))%nat.
Proof.
  induction n as [|n IH]; [done|]. cbv zeta in *. rewrite Nat.iter_succ.
  destruct IH as (Hf & Hp & Hh & Hid & Hv).
  generalize dependent (Nat.iter n (pushVirus rnd) w). intros w1 Hf Hp Hh Hid Hv.
  unfold pushVirus. simpl. rewrite length_app, Hv. simpl.
  repeat split; try done. lia.
Qed.

(** [initWorld()] leaves [FOOD_COUNT] live pellets and [VIRUS_COUNT]
    viruses. *)
Lemma initWorld_spec (w : World) :
  let w' := initWorld rnd w in
  length (foods w') = FOOD_COUNT /\
  Forall (fun f => f_dead f = false) (foods w') /\
  length (viruses w') = VIRUS_COUNT /\
  players w' = players w /\ heap w' = heap w /\
  nextPlayerId w' = nextPlayerId w.
Proof.
  unfold initWorld.
  destruct (iter_pushVirus VIRUS_COUNT
              (Nat.iter FOOD_COUNT (pushFood rnd) (set_viruses [] (set_foods [] w))))
    as (Hf & Hp & Hh & Hid & Hv).
  destruct (iter_pushFood FOOD_COUNT (set_viruses [] (set_foods [] w)))
    as (Hlen & Hdead & Hp' & Hh' & Hid').
  cbv zeta in *. rewrite Hf, Hp, Hh, Hid, Hv, Hlen, Hp', Hh', Hid'.
  change (length (foods (set_viruses [] (set_foods [] w)))) with 0%nat.
  change (length (viruses (Nat.iter FOOD_COUNT (pushFood rnd)
                             (set_viruses [] (set_foods [] w)))))
    with (length (viruses (Nat.iter FOOD_COUNT (pushFood rnd)
                             (set_viruses [] (set_foods [] w))))).
  assert (Hvs : forall n w0, viruses (Nat.iter n (pushFood rnd) w0) = viruses w0).
  { induction n as [|n IHn]; intros w0; [done|].
    rewrite Nat.iter_succ.
    destruct (pushFood_arena rnd (Nat.iter n (pushFood rnd) w0)) as (_ & _ & ->).
    apply IHn. }
  rewrite Hvs. change (length (viruses (set_viruses [] (set_foods [] w)))) with 0%nat.
  repeat split; try done; try lia. by apply Hdead.
Qed.

(** A tick without players moves the ejected pellets and tops up. *)
Lemma update_no_players (dt : R) (w : World) :
  players w = [] ->
  foods (update rnd dt w) = foods (replenish rnd (moveFoods dt w)).
Proof.
  intros Hp. rewrite update_foods.
  assert (Hb : thinkBots rnd w = w) by (unfold thinkBots, playerIndexes; by rewrite Hp).
  rewrite Hb.
  assert (Hm : movePlayers dt (moveFoods dt w) = moveFoods dt w)
    by (unfold movePlayers; simpl; by rewrite Hp).
  rewrite Hm. simpl.
  assert (He : forall qt, eatFoods qt (moveFoods dt w) = moveFoods dt w)
    by (intros qt; unfold eatFoods; simpl; by rewrite Hp).
  by rewrite He.
Qed.

Lemma moveFood_dead (dt : R) (f : Food) : f_dead (moveFood dt f) = f_dead f.
Proof. unfold moveFood. by destruct (f_isEjected f). Qed.

Lemma update_no_players_length (dt : R) (w : World) :
  players w = [] ->
  Forall (fun f => f_dead f = false) (foods w) ->
  length (foods (update rnd dt w)) = Nat.max FOOD_COUNT (length (foods w)).
Proof.
  intros Hp Hall. rewrite update_no_players by done.
  destruct (replenish_spec rnd (moveFoods dt w)) as (-> & _).
  f_equal. unfold moveFoods. simpl.
  rewrite <- (length_map (moveFood dt) (foods w)). f_equal.
  induction Hall as [|f fs Hf Hfs IH]; [done|]. simpl.
  rewrite filter_cons_True by (by rewrite moveFood_dead). by rewrite IH.
Qed.

End Run.

Section RunSteps.
Variable rnd : nat -> R.

(** The first connection to a server without players. *)
Lemma connect_first (w : World) :
  players w = [] ->
  exists x y,
    players (connect rnd w)
    = [mkPlayer (nextPlayerId w) ("Player " ++ pretty (nextPlayerId w)) (-1)
                [rnd (draws w); rnd (S (draws w)); rnd (S (S (draws w)))]
                false [length (heap w)] (0, 0) 0 0 false] /\
    heap (connect rnd w) = heap w ++ [mkCell x y 40 0 0 MERGE_TIME] /\
    foods (connect rnd w) = foods w.
Proof.
  intros Hp. unfold connect, createPlayer, firstCell, randPos, random, alloc.
  simpl. rewrite Hp. unfold players_set. simpl. by do 2 eexists.
Qed.

(** An [eject] message of the only player, who has one radius-40 cell
    and has sent no direction yet. *)
Lemma eject_first (w : World) (p : Player) (x y : R) :
  players w = [p] -> p_id p = 1%N -> p_cells p = [0%nat] ->
  p_inputDir p = (0, 0) ->
  heap w = [mkCell x y 40 0 0 MERGE_TIME] ->
  exists f,
    players (handleMessage rnd (Some 1%N) MEject w) = [p] /\
    foods (handleMessage rnd (Some 1%N) MEject w) = foods w ++ [f] /\
    f_dead f = false /\ f_isEjected f = true.
Proof.
  intros Hp Hid Hcells Hdir Hh. unfold handleMessage. simpl.
  unfold players_index. rewrite Hp. simpl.
  rewrite decide_True by done. simpl.
  unfold ejectMass. rewrite Hp. simpl. rewrite Hdir, Hcells.
  rewrite hypot_0, or_one_0. rcmp. simpl. unfold ejectCell. rewrite Hh. simpl.
  rcmp. rewrite Rleb_false.
  - simpl. rewrite Hp. by eexists.
  - unfold cellAreaFromRadius, FOOD_RADIUS. assert (HPI := PI_RGT_0). nra.
Qed.

End RunSteps.

Lemma exWorldEjected_spec :
  players exWorldEjected = [] /\
  length (foods exWorldEjected) = S FOOD_COUNT /\
  Forall (fun f => f_dead f = false) (foods exWorldEjected).
Proof.
  unfold exWorldEjected, exWorldJoined.
  destruct (initWorld_spec rndHalf emptyWorld) as (Hlen & Hdead & _ & Hp & Hh & Hid).
  cbv zeta in *.
  remember (initWorld rndHalf emptyWorld) as w0 eqn:E0. clear E0.
  change (players emptyWorld) with (@nil Player) in Hp.
  change (heap emptyWorld) with (@nil Cell) in Hh.
  change (nextPlayerId emptyWorld) with 1%N in Hid.
  destruct (connect_first rndHalf w0 Hp) as (x & y & Hp1 & Hh1 & Hf1).
  remember (connect rndHalf w0) as w1 eqn:E1. clear E1.
  rewrite Hh, Hid in *. simpl in Hp1, Hh1.
  destruct (eject_first rndHalf w1 _ x y Hp1 eq_refl eq_refl eq_refl Hh1)
    as (f & Hp2 & Hf2 & Hfd & _).
  remember (handleMessage rndHalf (Some 1%N) MEject w1) as w2 eqn:E2. clear E2.
  unfold close. simpl. rewrite Hp2, Hf2, Hf1, length_app, Hlen. simpl.
  split; [|split].
  - unfold players_delete. rewrite filter_cons_False; [done|]. simpl. tauto.
  - reflexivity.
  - apply Forall_app. split; [done|by constructor].
Qed.

(** C7 (as stated) fails: when the first player to connect ejects mass and
    leaves, the next tick ends with [FOOD_COUNT + 1] pellets. *)
Lemma C7_counterexample :
  length (foods (update rndHalf 1 exWorldEjected)) <> FOOD_COUNT.
Proof.
  destruct exWorldEjected_spec as (Hp & Hlen & Hdead).
  rewrite update_no_players_length by done.
  rewrite Hlen. unfold FOOD_COUNT. lia.
Qed.

(** ** The mouse target *)

Section MouseTarget.
Variable rnd : nat -> R.













End MouseTarget.

(** ** World containment *)











Lemma movePlayers_players (dt : R) (w : World) : players (movePlayers dt w) = players w.
Proof.
  unfold movePlayers. generalize (players w) at 1. intros l. revert w.
  induction l as [|p l IH]; intros w; simpl; [done|]. rewrite IH.
  unfold movePlayer. generalize (p_cells p). clear. intros refs. revert w.
  induction refs as [|r refs IH]; intros w; simpl; [done|]. rewrite IH.
  unfold moveRef. by destruct (heap w !! r).
Qed.



(** *** A tick that breaks containment *)

Lemma fold_left_fixed {A B} (f : A -> B -> A) (l : list B) (a : A) :
  (forall x, x ∈ l -> f a x = a) -> fold_left f l a = a.
Proof.
  induction l as [|x l IH]; intros Hf; simpl; [done|].
  rewrite Hf by (by left). apply IH. intros y Hy. apply Hf. by right.
Qed.

Section BuildFacts.
Context {A : Type} `{HasPos A}.



(** The fuel [qtInsert] gives to [insert] is enough on a well-formed
    tree: the call returns, and [qtInsert] is the tree it leaves. *)
Lemma qtInsert_returns (t : QuadTree A) (obj : A) :
  qt_wf t ->
  exists r, QT.insert (S (QT.maxDepth t - QT.depth t)) t obj
            = Some (qtInsert t obj, r).
Proof.
  intros Hwf. unfold qtInsert.
  destruct (insert_total (S (QT.maxDepth t - QT.depth t)) t obj Hwf)
    as [[t' r] E]; [lia|].
  rewrite E. by exists r.
Qed.

Lemma qtInsert_wf (t : QuadTree A) (obj : A) : qt_wf t -> qt_wf (qtInsert t obj).
Proof.
  intros Hwf. destruct (qtInsert_returns t obj Hwf) as [r E].
  apply insert_spec in E as (_ & W & _). by apply W.
Qed.

(** Every tree built by the tick from an empty root is well-formed, so
    every one of its [insert] calls returns. *)
Lemma build_wf (objs : list A) (t : QuadTree A) :
  qt_wf t -> qt_wf (fold_left qtInsert objs t).
Proof.
  revert t. induction objs as [|o objs IH]; intros t Hwf; simpl; [done|].
  by apply IH, qtInsert_wf.
Qed.


End BuildFacts.









Section WallTick.
Variable rnd : nat -> R.







End WallTick.







(** * Further properties *)

(** ** Quadtree: contents and queries *)

Section QuadTreeContents.
Context {A : Type} `{HasPos A}.

Lemma push_perm (t : QuadTree A) (obj : A) :
  qt_elems (QT.push t obj) ≡ₚ obj :: qt_elems t.
Proof.
  destruct t; simpl.
  - by rewrite Permutation_app_comm.
  - rewrite <- app_assoc. simpl. by rewrite <- Permutation_middle.
Qed.

Lemma divided_elems_eq (t : QuadTree A) : qt_elems (divided t) = qt_elems t.
Proof. destruct t; [|done]. simpl. by rewrite !app_nil_r. Qed.

(** [insert] stores the object once when it returns [true] and changes
    the contents in no other way. *)
Lemma insert_perm (fuel : nat) :
  forall (t : QuadTree A) (obj : A) (t' : QuadTree A) (r : bool),
    QT.insert fuel t obj = Some (t', r) ->
    qt_elems t' ≡ₚ (if r then [obj] else []) ++ qt_elems t.
Proof.
  induction fuel as [|fuel IH]; intros t obj t' r Hins; [done|].
  rewrite insert_unfold in Hins.
  destruct (QT.outside (QT.boundary t) obj); [by inversion Hins; subst|].
  destruct ((length (QT.points t) <? QT.capacity t)%nat
            || (QT.maxDepth t <=? QT.depth t)%nat).
  { inversion Hins; subst. apply push_perm. }
  rewrite <- (divided_elems_eq t).
  destruct (divided t) as [|b c d m ps nw ne sw se]; [done|].
  insert_child Hins E1 nw' r1. apply IH in E1.
  destruct r1.
  { inversion Hins; subst. simpl in *. rewrite E1. simpl.
    by rewrite <- Permutation_middle. }
  insert_child Hins E2 ne' r2. apply IH in E2.
  destruct r2.
  { inversion Hins; subst. simpl in *. rewrite E1, E2. simpl.
    by rewrite <- !Permutation_middle. }
  insert_child Hins E3 sw' r3. apply IH in E3.
  destruct r3.
  { inversion Hins; subst. simpl in *. rewrite E1, E2, E3. simpl.
    by rewrite <- !Permutation_middle. }
  insert_child Hins E4 se' r4. apply IH in E4.
  inversion Hins; subst. simpl in *. rewrite E1, E2, E3, E4.
  destruct r; simpl; [|done]. by rewrite <- !Permutation_middle.
Qed.

Lemma filter_none {B} (P : B -> Prop) `{forall x, Decision (P x)} (l : list B) :
  (forall x, x ∈ l -> ~ P x) -> filter P l = [].
Proof.
  induction l as [|x l IH]; intros Hn; [done|].
  rewrite filter_cons_False by (apply Hn; by left).
  apply IH. intros y Hy. apply Hn. by right.
Qed.

(** On a tree whose objects lie within the boundaries of their nodes, a
    query appends to [found] the stored objects that lie in the box, in
    the order in which the tree holds them. *)
Lemma query_exact (t : QuadTree A) (range : Box) :
  forall found : list A,
    qt_bounded t ->
    QT.queryRange t range found
    = found ++ filter (fun p => QT.inRange range p = true) (qt_elems t).
Proof.
  induction t as [b c d m ps|b c d m ps nw IH1 ne IH2 sw IH3 se IH4];
    intros found Hb.
  - simpl. destruct (QT.misses range b) eqn:Hm.
    + rewrite filter_none; [by rewrite app_nil_r|].
      intros p Hp Hin. simpl in Hb. rewrite Forall_forall in Hb.
      by rewrite (not_misses range b p) in Hm by auto.
    + apply query_points.
  - pose proof (fun p => bounded_elems _ p Hb) as Hall.
    destruct Hb as (_ & B1 & B2 & B3 & B4).
    simpl. destruct (QT.misses range b) eqn:Hm.
    + rewrite filter_none; [by rewrite app_nil_r|].
      intros p Hp Hin. specialize (Hall p Hp). simpl in Hall.
      by rewrite (not_misses range b p) in Hm by auto.
    + rewrite IH4, IH3, IH2, IH1, query_points by done.
      rewrite !filter_app, <- !app_assoc. done.
Qed.

(** A sequence of inserts keeps the invariants of the tree and stores
    exactly the objects that lie within the boundary of the root. *)
Lemma insertAll_contents (objs : list A) :
  forall (t : QuadTree A) (rs : list bool),
    qt_wf t -> qt_grid t -> qt_bounded t ->
    let res := fold_left insertStep objs (t, rs) in
    qt_wf (fst res) /\ qt_grid (fst res) /\ qt_bounded (fst res) /\
    QT.boundary (fst res) = QT.boundary t /\
    qt_elems (fst res)
    ≡ₚ qt_elems t ++ filter (fun o => QT.outside (QT.boundary t) o = false) objs.
Proof.
  induction objs as [|o objs IH]; intros t rs Hwf Hg Hb.
  { simpl. by rewrite app_nil_r. }
  destruct (insert_total (S (QT.maxDepth t - QT.depth t)) t o Hwf)
    as [[t1 r1] E1]; [lia|].
  change (fold_left insertStep (o :: objs) (t, rs))
    with (fold_left insertStep objs (insertStep (t, rs) o)).
  replace (insertStep (t, rs) o) with (t1, rs ++ [r1])
    by (unfold insertStep; by rewrite E1).
  pose proof (insert_result t o t1 r1 Hwf Hg E1) as Hr.
  pose proof (insert_grid _ _ _ _ _ E1 Hg) as Hg1.
  pose proof (insert_perm _ _ _ _ _ E1) as Hp1.
  apply insert_spec in E1 as ((B1 & _) & W1 & Bd1 & _).
  destruct (IH t1 (rs ++ [r1]) (W1 Hwf) Hg1 (Bd1 Hb)) as (W2 & G2 & Bd2 & B2 & P2).
  cbv zeta. split; [done|]. split; [done|]. split; [done|].
  split; [congruence|].
  rewrite P2, Hp1, B1, Hr.
  destruct (QT.outside (QT.boundary t) o) eqn:Ho.
  - rewrite filter_cons_False by (by rewrite Ho). done.
  - rewrite filter_cons_True by done. simpl. by rewrite <- Permutation_middle.
Qed.

Lemma new_invariants (b : Box) (cap maxd : nat) :
  qt_wf (QT.new b cap 0 maxd : QuadTree A) /\
  qt_grid (QT.new b cap 0 maxd : QuadTree A) /\
  qt_bounded (QT.new b cap 0 maxd : QuadTree A).
Proof. repeat split. by constructor. Qed.

(** X2. A range query on an index built from an empty root by a sequence
    of inserts returns the objects it was given in [found], followed by
    the stored objects whose center lies in the box, each once and in
    storage order: up to order, exactly the inserted objects that lie
    within the root's boundary and in the box. Nothing outside the box is
    returned. *)
Theorem X2_query_exact
        (b : Box) (cap maxd : nat) (objs : list A) (range : Box) (found : list A) :
  let t := fst (insertAll (QT.new b cap 0 maxd) objs) in
  QT.queryRange t range found
  = found ++ filter (fun p => QT.inRange range p = true) (qt_elems t) /\
  QT.queryRange t range []
  ≡ₚ filter (fun p => QT.inRange range p = true)
            (filter (fun o => QT.outside b o = false) objs).
Proof.
  intros t. subst t. unfold insertAll.
  destruct (new_invariants b cap maxd) as (Hwf & Hg & Hb).
  destruct (insertAll_contents objs (QT.new b cap 0 maxd) [] Hwf Hg Hb)
    as (_ & _ & Hb' & _ & Hperm).
  split; [by apply query_exact|].
  rewrite query_exact by done. simpl. by rewrite Hperm.
Qed.

(** X3. In a sequence of inserts on an empty root, an insert returns
    [true] exactly when the object lies within the root's boundary (edges
    included), and the tree then holds exactly the objects whose insert
    succeeded, each once. *)
Theorem X3_insert_contents (b : Box) (cap maxd : nat) (objs : list A) :
  let built := insertAll (QT.new b cap 0 maxd) objs in
  snd built = map (fun o => negb (QT.outside b o)) objs /\
  qt_elems (fst built) ≡ₚ filter (fun o => QT.outside b o = false) objs.
Proof.
  intros built. subst built. unfold insertAll.
  destruct (new_invariants b cap maxd) as (Hwf & Hg & Hb).
  split.
  - by rewrite insertAll_results.
  - by destruct (insertAll_contents objs (QT.new b cap 0 maxd) [] Hwf Hg Hb)
      as (_ & _ & _ & _ & ->).
Qed.

(** *** Node sizes *)

Lemma push_capped (t : QuadTree A) (obj : A) :
  ((length (QT.points t) <? QT.capacity t)%nat
   || (QT.maxDepth t <=? QT.depth t)%nat) = true ->
  qt_capped t -> qt_capped (QT.push t obj) /\
  QT.capacity (QT.push t obj) = QT.capacity t.
Proof.
  intros Hc. apply orb_true_iff in Hc.
  rewrite Nat.ltb_lt, Nat.leb_le in Hc.
  destruct t as [b c d m ps|b c d m ps nw ne sw se]; simpl in *.
  - intros [Hd Hl]. split; [|done]. split; [done|].
    intros Hlt. rewrite length_app. simpl. lia.
  - intros (Hd & Hl & ?). lia.
Qed.

Lemma divided_capped (t : QuadTree A) :
  ((length (QT.points t) <? QT.capacity t)%nat
   || (QT.maxDepth t <=? QT.depth t)%nat) = false ->
  qt_capped t -> qt_capped (divided t) /\ QT.capacity (divided t) = QT.capacity t.
Proof.
  intros Hc. apply orb_false_iff in Hc.
  rewrite Nat.ltb_ge, Nat.leb_gt in Hc.
  destruct t as [b c d m ps|b c d m ps nw ne sw se]; [|done].
  simpl in *. intros [Hd Hl]. split; [|done].
  split; [lia|]. split; [lia|]. repeat split; try done; lia.
Qed.

Lemma insert_capped (fuel : nat) :
  forall (t : QuadTree A) (obj : A) (t' : QuadTree A) (r : bool),
    QT.insert fuel t obj = Some (t', r) ->
    qt_capped t -> qt_capped t' /\ QT.capacity t' = QT.capacity t.
Proof.
  induction fuel as [|fuel IH]; intros t obj t' r Hins Hc; [done|].
  rewrite insert_unfold in Hins.
  destruct (QT.outside (QT.boundary t) obj); [by inversion Hins; subst|].
  destruct ((length (QT.points t) <? QT.capacity t)%nat
            || (QT.maxDepth t <=? QT.depth t)%nat) eqn:Hfull.
  { inversion Hins; subst. by apply push_capped. }
  destruct (divided_capped t Hfull Hc) as [Hdc Hcap]. rewrite <- Hcap.
  destruct (divided t) as [|b c d m ps nw ne sw se]; [done|].
  destruct Hdc as (Hd & Hl & (C1 & K1) & (C2 & K2) & (C3 & K3) & (C4 & K4)).
  insert_child Hins E1 nw' r1.
  destruct (IH _ _ _ _ E1 K1) as [K1' C1']. rewrite C1 in C1'.
  destruct r1; [inversion Hins; subst; simpl; tauto|].
  insert_child Hins E2 ne' r2.
  destruct (IH _ _ _ _ E2 K2) as [K2' C2']. rewrite C2 in C2'.
  destruct r2; [inversion Hins; subst; simpl; tauto|].
  insert_child Hins E3 sw' r3.
  destruct (IH _ _ _ _ E3 K3) as [K3' C3']. rewrite C3 in C3'.
  destruct r3; [inversion Hins; subst; simpl; tauto|].
  insert_child Hins E4 se' r4.
  destruct (IH _ _ _ _ E4 K4) as [K4' C4']. rewrite C4 in C4'.
  inversion Hins; subst; simpl; tauto.
Qed.

Lemma insertAll_capped (objs : list A) :
  forall (t : QuadTree A) (rs : list bool),
    qt_capped t ->
    qt_capped (fst (fold_left insertStep objs (t, rs))) /\
    QT.capacity (fst (fold_left insertStep objs (t, rs))) = QT.capacity t.
Proof.
  induction objs as [|o objs IH]; intros t rs Hc; [done|].
  change (fold_left insertStep (o :: objs) (t, rs))
    with (fold_left insertStep objs (insertStep (t, rs) o)).
  unfold insertStep at 2 4.
  destruct (QT.insert _ t o) as [[t1 r1]|] eqn:E1; [|by apply IH].
  destruct (insert_capped _ _ _ _ _ E1 Hc) as [Hc1 Hcap1].
  destruct (IH t1 (rs ++ [r1]) Hc1) as [Hc2 Hcap2].
  split; [done|congruence].
Qed.

(** X4. In an index built from an empty root by a sequence of inserts, no
    node lies deeper than [maxDepth], every node above [maxDepth] holds at
    most [capacity] objects (exactly [capacity] once it is divided, since
    subdividing leaves the node's own objects in place), and every node
    has the capacity of the root. Only nodes at [maxDepth] grow beyond
    [capacity]. *)
Theorem X4_node_sizes (b : Box) (cap maxd : nat) (objs : list A) :
  let t := fst (insertAll (QT.new b cap 0 maxd) objs) in
  qt_capped t /\ QT.capacity t = cap.
Proof.
  intros t. subst t. unfold insertAll.
  apply (insertAll_capped objs (QT.new b cap 0 maxd) []).
  simpl. split; lia.
Qed.

End QuadTreeContents.

(** ** Scores and the leaderboard *)

Section Sorting.
Context {A : Type} (score : A -> Z).

Lemma insertByScore_perm (x : A) (l : list A) :
  insertByScore score x l ≡ₚ x :: l.
Proof.
  induction l as [|y l IH]; simpl; [done|].
  destruct (score x <? score y)%Z; [|done].
  rewrite IH. apply Permutation_swap.
Qed.

Lemma sortByScore_perm (l : list A) : sortByScore score l ≡ₚ l.
Proof.
  induction l as [|x l IH]; simpl; [done|].
  by rewrite insertByScore_perm, IH.
Qed.

Lemma insertByScore_sorted (x : A) (l : list A) :
  StronglySorted (fun a b => (score b <= score a)%Z) l ->
  StronglySorted (fun a b => (score b <= score a)%Z) (insertByScore score x l).
Proof.
  induction 1 as [|y l Hs IH Hall]; simpl; [repeat constructor|].
  destruct (Z.ltb_spec (score x) (score y)) as [Hlt|Hge].
  - constructor; [done|]. rewrite insertByScore_perm.
    constructor; [lia|done].
  - constructor; [by constructor|]. constructor; [done|].
    eapply Forall_impl; [exact Hall|]. intros z Hz. simpl in *. lia.
Qed.

Lemma sortByScore_sorted (l : list A) :
  StronglySorted (fun a b => (score b <= score a)%Z) (sortByScore score l).
Proof.
  induction l as [|x l IH]; simpl; [constructor|]. by apply insertByScore_sorted.
Qed.

(** The sort is stable: the items of any one score keep their order. *)
Lemma insertByScore_stable (s : Z) (x : A) (l : list A) :
  StronglySorted (fun a b => (score b <= score a)%Z) l ->
  filter (fun a => score a = s) (insertByScore score x l)
  = filter (fun a => score a = s) (x :: l).
Proof.
  induction 1 as [|y l Hs IH Hall]; simpl; [done|].
  destruct (Z.ltb_spec (score x) (score y)) as [Hlt|Hge]; [|done].
  rewrite (filter_cons _ y), IH, !filter_cons.
  destruct (decide (score y = s)) as [Hy|Hy], (decide (score x = s)) as [Hx|Hx];
    try done.
  lia.
Qed.

Lemma sortByScore_stable (s : Z) (l : list A) :
  filter (fun a => score a = s) (sortByScore score l)
  = filter (fun a => score a = s) l.
Proof.
  induction l as [|x l IH]; simpl; [done|].
  rewrite insertByScore_stable by apply sortByScore_sorted.
  by rewrite !filter_cons, IH.
Qed.

End Sorting.

Lemma sorted_map {A B} (R : A -> A -> Prop) (S : B -> B -> Prop) (f : A -> B)
      (l : list A) :
  (forall a b, R a b -> S (f a) (f b)) ->
  StronglySorted R l -> StronglySorted S (map f l).
Proof.
  intros Hf. induction 1 as [|x l Hs IH Hall]; simpl; constructor; [done|].
  apply Forall_map. eapply Forall_impl; [exact Hall|]. intros y. apply Hf.
Qed.

Lemma filter_map_comm {A B} (P : B -> Prop) `{forall y, Decision (P y)}
      (f : A -> B) (l : list A) :
  filter P (map f l) = map f (filter (fun x => P (f x)) l).
Proof.
  induction l as [|x l IH]; [done|]. simpl.
  rewrite !filter_cons, IH. by destruct (decide (P (f x))).
Qed.

(** X5. The leaderboard lists [min(10, number of players)] entries, every
    entry being the name and the score of a player, in descending order of
    score. A player that is left out scores no more than any listed entry.
    Players of equal score appear in the order of the players map (shown
    for up to ten players, when no entry is cut). *)
Theorem X5_leaderboard (w : World) :
  let score := fun p => calculateScoreFromCells w (p_cells p) in
  let board := getLeaderboard w in
  length board = Nat.min 10 (length (players w)) /\
  StronglySorted (fun a b => (snd b <= snd a)%Z) board /\
  (forall e, e ∈ board -> exists p, p ∈ players w /\ e = (p_name p, score p)) /\
  (forall p e, p ∈ players w -> e ∈ board ->
               (score p <= snd e)%Z \/ (p_name p, score p) ∈ board) /\
  ((length (players w) <= 10)%nat ->
   forall s, filter (fun e => snd e = s) board
             = map (fun p => (p_name p, score p))
                   (filter (fun p => score p = s) (players w))).
Proof.
  intros score board. subst board. unfold getLeaderboard.
  set (items := map (fun p => (p, calculateScoreFromCells w (p_cells p))) (players w)).
  set (sorted := sortByScore snd items).
  assert (Hperm : sorted ≡ₚ items) by apply sortByScore_perm.
  assert (Hsorted : StronglySorted (fun a b : Player * Z => (snd b <= snd a)%Z) sorted)
    by apply sortByScore_sorted.
  assert (Hlen : length sorted = length (players w)).
  { rewrite Hperm. unfold items. apply length_map. }
  assert (Hitem : forall it, it ∈ sorted <-> exists p, p ∈ players w /\ it = (p, score p)).
  { intros it. rewrite Hperm. unfold items.
    rewrite list_elem_of_fmap. split; intros (p & H1 & H2); exists p; tauto. }
  rewrite <- (take_drop 10 sorted) in Hsorted.
  split; [|split; [|split; [|split]]].
  - by rewrite length_map, length_take, Hlen.
  - apply (sorted_map (fun a b : Player * Z => (snd b <= snd a)%Z)); [done|].
    by eapply StronglySorted_app_1_l.
  - intros e He. apply list_elem_of_fmap in He as (it & -> & Hit).
    assert (Hin : it ∈ sorted).
    { rewrite <- (take_drop 10 sorted), elem_of_app. by left. }
    apply Hitem in Hin as (p & Hp & ->). by exists p.
  - intros p e Hp He. apply list_elem_of_fmap in He as (it & -> & Hit).
    assert (Hin : (p, score p) ∈ sorted) by (apply Hitem; by exists p).
    rewrite <- (take_drop 10 sorted), elem_of_app in Hin.
    destruct Hin as [Hin|Hin].
    + right. apply list_elem_of_fmap. by exists (p, score p).
    + left. apply (StronglySorted_app_1_elem_of _ _ _ _ _ Hsorted Hit Hin).
  - intros Hfew s. rewrite take_ge by lia.
    rewrite filter_map_comm. simpl.
    unfold sorted. rewrite sortByScore_stable. unfold items.
    rewrite filter_map_comm. simpl. by rewrite map_map.
Qed.

(** ** Radius and area *)

Lemma radius_of_area (r : R) : 0 <= r -> radiusFromArea (cellAreaFromRadius r) = r.
Proof.
  intros Hr. unfold radiusFromArea, cellAreaFromRadius.
  assert (HPI := PI_RGT_0).
  replace (PI * r * r / PI) with (r * r) by (field; lra).
  by apply sqrt_square.
Qed.

(** X1. The two conversions are inverse to each other on non-negative
    numbers: the radius of the area of [r] is [r], and the area of the
    radius of [a] is [a]. *)
Theorem X1_radius_area_round_trip (r a : R) :
  0 <= r -> 0 <= a ->
  radiusFromArea (cellAreaFromRadius r) = r /\
  cellAreaFromRadius (radiusFromArea a) = a.
Proof.
  intros Hr Ha. split; [by apply radius_of_area|by apply area_radiusFromArea].
Qed.

Lemma X1_radius_area_round_trip_witness :
  radiusFromArea (cellAreaFromRadius 40) = 40 /\
  cellAreaFromRadius (radiusFromArea 100) = 100.
Proof. apply (X1_radius_area_round_trip 40 100); lra. Defined.

(** ** Eject *)

Lemma eject_radius (r : R) :
  35 <= r ->
  radiusFromArea (cellAreaFromRadius r - cellAreaFromRadius FOOD_RADIUS * 2)
  = sqrt (r * r - 450) /\
  0 < cellAreaFromRadius r - cellAreaFromRadius FOOD_RADIUS * 2.
Proof.
  intros Hr. unfold radiusFromArea, cellAreaFromRadius, FOOD_RADIUS.
  assert (HPI := PI_RGT_0). split.
  - f_equal. field. lra.
  - assert (0 < PI * (r * r - 450)) by (apply Rmult_lt_0_compat; nra). lra.
Qed.

Section Eject.
Variable rnd : nat -> R.

Lemma ejectCell_big (dx dy len : R) (w : World) (ref : nat) (cell : Cell) :
  heap w !! ref = Some cell ->
  35 <= c_radius cell ->
  ejectCell rnd dx dy len w ref
  = set_foods
      (foods w ++
       [mkFood (nextFoodId w)
               (c_x cell + dx / len
                           * (sqrt (c_radius cell * c_radius cell - 450) + FOOD_RADIUS + 2))
               (c_y cell + dy / len
                           * (sqrt (c_radius cell * c_radius cell - 450) + FOOD_RADIUS + 2))
               FOOD_RADIUS [1; 1; 1] (dx / len * 900) (dy / len * 900) true false])
      (set_nextFoodId (N.succ (nextFoodId w))
         (store ref
            (set_c_radius (sqrt (c_radius cell * c_radius cell - 450)) cell) w)).
Proof.
  intros Hc Hr. unfold ejectCell. rewrite Hc, Rltb_false by done.
  destruct (eject_radius (c_radius cell) Hr) as [Hrad Hpos].
  rewrite Rleb_false by done. rewrite Hrad. reflexivity.
Qed.

(** X6. [ejectMass] shrinks every cell of radius at least 35 by the area
    of two pellets (the guards [len === 0] and [newArea <= 0] never fire:
    the length falls back to 1, and 35 squared exceeds 450) and pushes one
    ejected pellet per such cell, [newRadius + FOOD_RADIUS + 2] from the
    cell's center along the direction, at speed 900 times the normalised
    direction; smaller cells are left alone. It draws no random number and
    leaves the players map as it is. Without a direction ([(0, 0)]) the
    pellet is dropped on the cell's center with zero velocity. *)
Theorem X6_eject (pi : nat) (w : World) (p : Player) :
  players w !! pi = Some p ->
  let dx := fst (p_inputDir p) in
  let dy := snd (p_inputDir p) in
  let len := or_one (hypot dx dy) in
  len <> 0 /\
  ejectMass rnd pi w = fold_left (ejectCell rnd dx dy len) (p_cells p) w /\
  (forall (w0 : World) (ref : nat) (cell : Cell),
      heap w0 !! ref = Some cell ->
      (c_radius cell < 35 -> ejectCell rnd dx dy len w0 ref = w0) /\
      (35 <= c_radius cell ->
       let w1 := ejectCell rnd dx dy len w0 ref in
       let r1 := sqrt (c_radius cell * c_radius cell - 450) in
       heap w1 = <[ref := set_c_radius r1 cell]> (heap w0) /\
       cellAreaFromRadius r1
       = cellAreaFromRadius (c_radius cell) - 2 * cellAreaFromRadius FOOD_RADIUS /\
       foods w1
       = foods w0 ++
         [mkFood (nextFoodId w0)
                 (c_x cell + dx / len * (r1 + FOOD_RADIUS + 2))
                 (c_y cell + dy / len * (r1 + FOOD_RADIUS + 2))
                 FOOD_RADIUS [1; 1; 1] (dx / len * 900) (dy / len * 900) true false] /\
       players w1 = players w0 /\ viruses w1 = viruses w0 /\
       draws w1 = draws w0 /\
       (p_inputDir p = (0, 0) ->
        exists f, last (foods w1) = Some f /\
                  f_x f = c_x cell /\ f_y f = c_y cell /\
                  f_vx f = 0 /\ f_vy f = 0))).
Proof.
  intros Hp dx dy len.
  assert (Hlen : len <> 0) by apply or_one_nonzero.
  split; [done|]. split.
  - unfold ejectMass. rewrite Hp. subst dx dy len.
    destruct (p_inputDir p) as [dx dy]. simpl. by rewrite Reqb_false.
  - intros w0 ref cell Hc. split.
    + intros Hr. unfold ejectCell. by rewrite Hc, Rltb_true.
    + intros Hr. rewrite (ejectCell_big _ _ _ _ _ _ Hc Hr). simpl.
      split; [done|]. split.
      { destruct (eject_radius (c_radius cell) Hr) as [Hrad Hpos].
        rewrite <- Hrad. rewrite area_radiusFromArea by lra. lra. }
      split; [done|]. split; [done|]. split; [done|]. split; [done|].
      intros Hdir. eexists. rewrite last_snoc. split; [done|]. simpl.
      subst dx dy. rewrite Hdir. simpl. repeat split; lra.
Qed.

End Eject.

Lemma X6_eject_witness :
  ejectMass rndHalf 0 exWorldFood
  = fold_left (ejectCell rndHalf 0 0 (or_one (hypot 0 0))) [0%nat] exWorldFood.
Proof.
  refine (proj1 (proj2 (X6_eject rndHalf 0 exWorldFood (exPlayer 1 [0%nat]) _))).
  reflexivity.
Defined.

(** ** Split *)

Lemma unit_direction (dx dy : R) :
  (dx, dy) <> (0, 0) ->
  let len := or_one (hypot dx dy) in
  (dx / len) * (dx / len) + (dy / len) * (dy / len) = 1.
Proof.
  intros Hne len.
  assert (Hpos : 0 < dx * dx + dy * dy).
  { destruct (Req_dec dx 0) as [->|Hx].
    - destruct (Req_dec dy 0) as [->|Hy]; [done|]. nra.
    - nra. }
  assert (Hh : 0 < hypot dx dy) by (by apply sqrt_lt_R0).
  subst len. rewrite or_one_neq by lra.
  assert (Hsq : hypot dx dy * hypot dx dy = dx * dx + dy * dy)
    by (apply sqrt_sqrt; lra).
  apply (Rmult_eq_reg_r (hypot dx dy * hypot dx dy)); [|nra].
  field_simplify; [|lra]. lra.
Qed.

Lemma zero_direction : or_one (hypot 0 0) = 1.
Proof. by rewrite hypot_0, or_one_0. Qed.

(** X7. A split of a cell of radius [r >= 10] along the player's direction
    puts the new cell [2.5 * r / 2] ahead of the original, which itself
    steps back by 0.3 of that spacing and keeps its velocity. With a
    non-zero direction the two centers end up [1.25 * r] apart, more than
    the sum [r] of the two radii, so the halves do not overlap, and the
    new cell flies at [SPLIT_SPEED]. Without a direction ([(0, 0)]) nothing
    is displaced: the new cell appears on the original's center with zero
    velocity. *)
Theorem X7_split_placement
        (dx dy : R) (ref : nat) (w : World) (news : list nat) (cell : Cell) :
  heap w !! ref = Some cell ->
  10 <= c_radius cell ->
  let len := or_one (hypot dx dy) in
  let res := splitCell dx dy len ref (w, news) in
  let spacing := 2.5 * (c_radius cell / 2) in
  exists c1 c2,
    heap (fst res) !! ref = Some c1 /\
    heap (fst res) !! length (heap w) = Some c2 /\
    c_x c1 = c_x cell - 0.3 * (dx / len * spacing) /\
    c_y c1 = c_y cell - 0.3 * (dy / len * spacing) /\
    c_vx c1 = c_vx cell /\ c_vy c1 = c_vy cell /\
    c_x c2 - c_x c1 = dx / len * spacing /\
    c_y c2 - c_y c1 = dy / len * spacing /\
    ((dx, dy) <> (0, 0) ->
     (c_x c2 - c_x c1) * (c_x c2 - c_x c1) + (c_y c2 - c_y c1) * (c_y c2 - c_y c1)
     = spacing * spacing /\
     (c_radius c1 + c_radius c2) ^ 2
     < (c_x c2 - c_x c1) * (c_x c2 - c_x c1) + (c_y c2 - c_y c1) * (c_y c2 - c_y c1) /\
     c_vx c2 * c_vx c2 + c_vy c2 * c_vy c2 = SPLIT_SPEED * SPLIT_SPEED) /\
    ((dx, dy) = (0, 0) ->
     c_x c1 = c_x cell /\ c_y c1 = c_y cell /\
     c_x c2 = c_x cell /\ c_y c2 = c_y cell /\
     c_vx c2 = 0 /\ c_vy c2 = 0).
Proof.
  intros Hc Hr len res spacing. subst res.
  rewrite (splitCell_big _ _ _ _ _ _ _ Hc Hr).
  pose proof (lookup_lt_Some _ _ _ Hc) as Hlt.
  do 2 eexists. simpl.
  split; [rewrite lookup_app_l by (by rewrite length_insert);
          by apply list_lookup_insert_eq|].
  split; [rewrite lookup_app_r by (rewrite length_insert; lia);
          by rewrite length_insert, Nat.sub_diag|].
  simpl. subst spacing.
  split; [lra|]. split; [lra|]. split; [done|]. split; [done|].
  split; [lra|]. split; [lra|]. split.
  - intros Hne. pose proof (unit_direction dx dy Hne) as Hu. fold len in Hu.
    cbv zeta in Hu.
    set (ux := dx / len) in *. set (uy := dy / len) in *.
    set (r := c_radius cell) in *.
    assert (H1 : (ux * (r * 0.5 * 2.5)) * (ux * (r * 0.5 * 2.5))
                 + (uy * (r * 0.5 * 2.5)) * (uy * (r * 0.5 * 2.5))
                 = (r * 0.5 * 2.5) * (r * 0.5 * 2.5)).
    { replace (ux * (r * 0.5 * 2.5) * (ux * (r * 0.5 * 2.5))
               + uy * (r * 0.5 * 2.5) * (uy * (r * 0.5 * 2.5)))
        with ((ux * ux + uy * uy) * ((r * 0.5 * 2.5) * (r * 0.5 * 2.5))) by ring.
      rewrite Hu. ring. }
    repeat split.
    + replace (c_x cell - ux * (r * 0.5 * 2.5) * 0.3 + ux * (r * 0.5 * 2.5)
               - (c_x cell - ux * (r * 0.5 * 2.5) * 0.3))
        with (ux * (r * 0.5 * 2.5)) by ring.
      replace (c_y cell - uy * (r * 0.5 * 2.5) * 0.3 + uy * (r * 0.5 * 2.5)
               - (c_y cell - uy * (r * 0.5 * 2.5) * 0.3))
        with (uy * (r * 0.5 * 2.5)) by ring.
      rewrite H1. lra.
    + replace (c_x cell - ux * (r * 0.5 * 2.5) * 0.3 + ux * (r * 0.5 * 2.5)
               - (c_x cell - ux * (r * 0.5 * 2.5) * 0.3))
        with (ux * (r * 0.5 * 2.5)) by ring.
      replace (c_y cell - uy * (r * 0.5 * 2.5) * 0.3 + uy * (r * 0.5 * 2.5)
               - (c_y cell - uy * (r * 0.5 * 2.5) * 0.3))
        with (uy * (r * 0.5 * 2.5)) by ring.
      rewrite H1. nra.
    + replace (ux * SPLIT_SPEED * (ux * SPLIT_SPEED) + uy * SPLIT_SPEED * (uy * SPLIT_SPEED))
        with ((ux * ux + uy * uy) * (SPLIT_SPEED * SPLIT_SPEED)) by ring.
      rewrite Hu. ring.
  - intros Hz. inversion Hz; subst dx dy. subst len. rewrite zero_direction.
    repeat split; lra.
Qed.

Lemma X7_split_placement_witness :
  let res := splitCell 1 0 (or_one (hypot 1 0)) 0 (exWorldSplit, []) in
  exists c1 c2,
    heap (fst res) !! 0%nat = Some c1 /\
    heap (fst res) !! 1%nat = Some c2 /\
    c_x c2 - c_x c1 = 1 / or_one (hypot 1 0) * (2.5 * (40 / 2)).
Proof.
  destruct (X7_split_placement 1 0 0 exWorldSplit [] (exCell 0 0 40 3))
    as (c1 & c2 & H1 & H2 & _ & _ & _ & _ & H3 & _).
  - reflexivity.
  - simpl. lra.
  - exists c1, c2. split; [exact H1|]. split; [exact H2|exact H3].
Defined.

(** ** Split of a whole player *)

Lemma splittable_ext (w w1 : World) (refs : list nat) :
  (forall r, r ∈ refs -> heap w1 !! r = heap w !! r) ->
  filter (fun r => splittable w1 r = true) refs
  = filter (fun r => splittable w r = true) refs.
Proof.
  induction refs as [|r refs IH]; intros Hsame; [done|].
  assert (Hr : splittable w1 r = splittable w r).
  { unfold splittable. by rewrite Hsame by apply list_elem_of_here. }
  assert (Hrest : filter (fun r => splittable w1 r = true) refs
                  = filter (fun r => splittable w r = true) refs).
  { apply IH. intros r' Hin. apply Hsame. by apply list_elem_of_further. }
  destruct (splittable w r) eqn:Hs.
  - rewrite !filter_cons_True by done. by rewrite Hrest.
  - rewrite !filter_cons_False by (by rewrite ?Hr, ?Hs). done.
Qed.

Lemma splitCells_spec (dx dy len : R) (refs : list nat) :
  forall (w : World) (news : list nat),
    NoDup refs ->
    (forall r, r ∈ refs -> (r < length (heap w))%nat) ->
    let big := filter (fun r => splittable w r = true) refs in
    let res := fold_left (fun acc ref => splitCell dx dy len ref acc) refs (w, news) in
    snd res = news ++ seq (length (heap w)) (length big) /\
    length (heap (fst res)) = (length (heap w) + length big)%nat /\
    fst res = set_heap (heap (fst res)) w /\
    (forall r, (r < length (heap w))%nat -> r ∉ big ->
               heap (fst res) !! r = heap w !! r) /\
    (forall k r c, big !! k = Some r -> heap w !! r = Some c ->
                   exists c1 c2,
                     heap (fst res) !! r = Some c1 /\
                     heap (fst res) !! (length (heap w) + k)%nat = Some c2 /\
                     c_radius c1 = c_radius c * 0.5 /\
                     c_radius c2 = c_radius c * 0.5).
Proof.
  induction refs as [|r0 refs IH]; intros w news Hnd Hval big res.
  - subst big res. simpl. rewrite app_nil_r, Nat.add_0_r.
    split; [done|]. split; [done|]. split; [by destruct w|].
    split; [done|]. intros k r c Hk. done.
  - apply NoDup_cons in Hnd as [Hnotin Hnd].
    assert (Hr0 : (r0 < length (heap w))%nat) by (apply Hval, list_elem_of_here).
    destruct (lookup_lt_is_Some_2 _ _ Hr0) as [c0 Hc0].
    destruct (Rlt_le_dec (c_radius c0) 10) as [Hsmall|Hbig].
    + (* the cell is too small: nothing happens *)
      assert (Hs : splittable w r0 = false).
      { unfold splittable. by rewrite Hc0, Rltb_true. }
      subst big res. cbn [fold_left].
      rewrite (splitCell_small dx dy len r0 (w, news) c0 Hc0 Hsmall).
      rewrite filter_cons_False by (by rewrite Hs).
      apply IH; [done|]. intros r Hin. apply Hval. by apply list_elem_of_further.
    + (* the cell splits *)
      assert (Hs : splittable w r0 = true).
      { unfold splittable. by rewrite Hc0, Rltb_false. }
      subst big res. cbn [fold_left].
      rewrite (splitCell_big dx dy len r0 w news c0 Hc0 Hbig).
      rewrite filter_cons_True by done.
      match goal with
      | |- context [set_heap (<[r0 := ?a]> (heap w) ++ [?b]) w] =>
        set (c1 := a) in *; set (c2 := b) in *
      end.
      set (w1 := set_heap (<[r0 := c1]> (heap w) ++ [c2]) w).
      assert (Hlen1 : length (heap w1) = S (length (heap w))).
      { subst w1. simpl. rewrite length_app, length_insert. simpl. lia. }
      assert (Hother : forall r, r <> r0 -> (r < length (heap w))%nat ->
                                 heap w1 !! r = heap w !! r).
      { intros r Hne Hlt. subst w1. simpl.
        rewrite lookup_app_l by (by rewrite length_insert).
        by apply list_lookup_insert_ne. }
      assert (Hrest : forall r, r ∈ refs -> r <> r0 /\ (r < length (heap w))%nat).
      { intros r Hin. split; [by intros ->|].
        apply Hval. by apply list_elem_of_further. }
      assert (Hfilter : filter (fun r => splittable w1 r = true) refs
                        = filter (fun r => splittable w r = true) refs).
      { apply splittable_ext. intros r Hin.
        destruct (Hrest r Hin). by apply Hother. }
      specialize (IH w1 (news ++ [length (heap w)]) Hnd).
      destruct IH as (Hnews & Hlen & Hframe & Hkeep & Hhalf).
      { intros r Hin. rewrite Hlen1. destruct (Hrest r Hin). lia. }
      rewrite Hfilter in *. rewrite Hlen1 in *.
      set (big1 := filter (fun r => splittable w r = true) refs) in *.
      assert (Hbig1 : forall r, r ∈ big1 -> r ∈ refs).
      { intros r Hin. by apply list_elem_of_filter in Hin as [_ ?]. }
      assert (Hat0 : heap w1 !! r0 = Some c1).
      { subst w1. simpl. rewrite lookup_app_l by (by rewrite length_insert).
        by apply list_lookup_insert_eq. }
      assert (HatL : heap w1 !! length (heap w) = Some c2).
      { subst w1. simpl. rewrite lookup_app_r by (rewrite length_insert; lia).
        by rewrite length_insert, Nat.sub_diag. }
      split; [|split; [|split; [|split]]].
      * rewrite Hnews. simpl. by rewrite <- app_assoc.
      * rewrite Hlen. simpl. lia.
      * rewrite Hframe at 1. by destruct w.
      * intros r Hlt Hnot. apply not_elem_of_cons in Hnot as [Hne Hnot].
        rewrite Hkeep by (done || lia). by apply Hother.
      * intros k r c Hk Hc. destruct k as [|k]; simpl in Hk.
        -- injection Hk as <-. rewrite Hc0 in Hc. injection Hc as <-.
           exists c1, c2. rewrite Nat.add_0_r.
           split; [rewrite Hkeep; [done|lia|]|split; [rewrite Hkeep; [done|lia|]|]].
           ++ intros Hin. by apply Hbig1 in Hin.
           ++ intros Hin. apply Hbig1, Hrest in Hin. lia.
           ++ by subst c1 c2.
        -- assert (Hin : r ∈ big1) by (by eapply list_elem_of_lookup_2).
           destruct (Hrest r (Hbig1 r Hin)) as [Hne Hlt].
           destruct (Hhalf k r c Hk) as (d1 & d2 & H1 & H2 & H3 & H4).
           { by rewrite Hother. }
           exists d1, d2. replace (length (heap w) + S k)%nat
                            with (S (length (heap w)) + k)%nat by lia.
           done.
Qed.

(** X8. [splitPlayer] on a player whose cells are distinct live references:
    every cell of radius at least 10 is halved and gets one new cell, also
    of half the radius, appended to the player's list in the order of the
    originals; every other cell of the world stays as it is; and when no
    cell is that large nothing changes at all. *)
Theorem X8_split_player (pi : nat) (w : World) (p : Player) :
  players w !! pi = Some p ->
  NoDup (p_cells p) ->
  (forall r, r ∈ p_cells p -> (r < length (heap w))%nat) ->
  let big := filter (fun r => splittable w r = true) (p_cells p) in
  let w' := splitPlayer pi w in
  players w'
  = <[pi := set_p_cells (p_cells p ++ seq (length (heap w)) (length big)) p]>
      (players w) /\
  length (heap w') = (length (heap w) + length big)%nat /\
  w' = set_players (players w') (set_heap (heap w') w) /\
  (forall r, (r < length (heap w))%nat -> r ∉ big -> heap w' !! r = heap w !! r) /\
  (forall k r c, big !! k = Some r -> heap w !! r = Some c ->
                 exists c1 c2,
                   heap w' !! r = Some c1 /\
                   heap w' !! (length (heap w) + k)%nat = Some c2 /\
                   c_radius c1 = c_radius c * 0.5 /\
                   c_radius c2 = c_radius c * 0.5) /\
  (big = [] -> w' = w).
Proof.
  intros Hp Hnd Hval big w'.
  destruct (p_inputDir p) as [dx dy] eqn:Hdir.
  pose proof (splitCells_spec dx dy (or_one (hypot dx dy)) (p_cells p) w [] Hnd Hval)
    as Hspec.
  cbv zeta in Hspec. fold big in Hspec.
  assert (Hw' : w' = let '(w1, newCells) :=
                       fold_left (fun acc ref =>
                                    splitCell dx dy (or_one (hypot dx dy)) ref acc)
                                 (p_cells p) (w, []) in
                     if (0 <? length newCells)%nat
                     then set_player pi (set_p_cells (p_cells p ++ newCells) p) w1
                     else w1).
  { subst w'. unfold splitPlayer. by rewrite Hp, Hdir. }
  destruct (fold_left _ _ _) as [w1 newCells]. simpl in Hspec.
  destruct Hspec as (Hnews & Hlen & Hframe & Hkeep & Hhalf).
  assert (Hpl1 : players w1 = players w) by (by rewrite Hframe).
  destruct (0 <? length newCells)%nat eqn:Hn.
  - rewrite Hw'. unfold set_player. simpl. rewrite Hpl1, Hnews.
    split; [done|]. split; [done|]. split; [rewrite Hframe at 1; by destruct w|].
    split; [done|]. split; [done|].
    intros Hnil. apply Nat.ltb_lt in Hn. rewrite Hnews, Hnil in Hn. simpl in Hn. lia.
  - rewrite Hw'. apply Nat.ltb_ge in Hn.
    assert (Hz : length big = 0%nat).
    { rewrite Hnews, length_seq in Hn. lia. }
    rewrite Hpl1, Hz. simpl seq. rewrite app_nil_r.
    assert (Hsame : set_p_cells (p_cells p) p = p) by (by destruct p).
    rewrite Hsame, list_insert_id by done.
    split; [done|]. split; [lia|].
    split; [rewrite Hframe at 1; by destruct w|].
    split; [done|]. split; [done|].
    intros _. rewrite Hframe.
    assert (Hheap : heap w1 = heap w).
    { apply list_eq. intros i.
      destruct (decide (i < length (heap w))%nat) as [Hlt|Hge].
      - apply Hkeep; [done|]. apply length_zero_iff_nil in Hz. rewrite Hz.
        apply not_elem_of_nil.
      - rewrite !lookup_ge_None_2; [done|lia|lia]. }
    rewrite Hheap. by destruct w.
Qed.

Lemma X8_split_player_witness :
  length (heap (splitPlayer 0 exWorldSplit))
  = (length (heap exWorldSplit)
     + length (filter (fun r => splittable exWorldSplit r = true) [0%nat]))%nat.
Proof.
  refine (proj1 (proj2 (X8_split_player 0 exWorldSplit
            (mkPlayer 1 "Player" (-1) [0; 0; 0] false [0%nat] (1, 0) 0 0 false)
            _ _ _))).
  - reflexivity.
  - apply NoDup_singleton.
  - intros r Hr. apply list_elem_of_singleton in Hr. subst r. simpl. lia.
Defined.

(** ** Messages *)

(** What an action of the player at [pi] with the cells [own] may touch:
    the player's own record, the player's own cells, new cells and new
    pellets. *)
Lemma splitCell_frame (dx dy len : R) (ref : nat) (acc : World * list nat) :
  let res := splitCell dx dy len ref acc in
  fst res = set_heap (heap (fst res)) (fst acc) /\
  (length (heap (fst acc)) <= length (heap (fst res)))%nat /\
  (forall r, r <> ref -> (r < length (heap (fst acc)))%nat ->
             heap (fst res) !! r = heap (fst acc) !! r).
Proof.
  destruct acc as [w news]. cbv zeta.
  destruct (heap w !! ref) as [cell|] eqn:Hc.
  - destruct (Rlt_le_dec (c_radius cell) 10) as [Hs|Hb].
    + rewrite (splitCell_small _ _ _ _ (w, news) cell Hc Hs). simpl.
      split; [by destruct w|]. split; [lia|done].
    + rewrite (splitCell_big _ _ _ _ _ _ _ Hc Hb). simpl.
      split; [done|]. split.
      * rewrite length_app, length_insert. lia.
      * intros r Hne Hlt. rewrite lookup_app_l by (by rewrite length_insert).
        by apply list_lookup_insert_ne.
  - unfold splitCell. rewrite Hc. simpl.
    split; [by destruct w|]. split; [lia|done].
Qed.

Lemma splitCells_frame (dx dy len : R) (refs : list nat) :
  forall acc : World * list nat,
    let res := fold_left (fun acc ref => splitCell dx dy len ref acc) refs acc in
    fst res = set_heap (heap (fst res)) (fst acc) /\
    (length (heap (fst acc)) <= length (heap (fst res)))%nat /\
    (forall r, r ∉ refs -> (r < length (heap (fst acc)))%nat ->
               heap (fst res) !! r = heap (fst acc) !! r).
Proof.
  induction refs as [|ref refs IH]; intros acc; cbv zeta.
  - simpl. split; [by destruct (fst acc)|]. split; [lia|done].
  - cbn [fold_left].
    destruct (splitCell_frame dx dy len ref acc) as (Hf1 & Hl1 & Hk1).
    destruct (IH (splitCell dx dy len ref acc)) as (Hf2 & Hl2 & Hk2).
    split; [|split].
    + rewrite Hf2 at 1. rewrite Hf1. done.
    + lia.
    + intros r Hnot Hlt. apply not_elem_of_cons in Hnot as [Hne Hnot].
      rewrite Hk2 by (done || lia). by apply Hk1.
Qed.

Section Messages.
Variable rnd : nat -> R.

Lemma ejectCell_frame (dx dy len : R) (w : World) (ref : nat) :
  let w' := ejectCell rnd dx dy len w ref in
  players w' = players w /\ viruses w' = viruses w /\ draws w' = draws w /\
  nextPlayerId w' = nextPlayerId w /\
  length (heap w') = length (heap w) /\
  (forall r, r <> ref -> heap w' !! r = heap w !! r) /\
  foods w `prefix_of` foods w'.
Proof.
  cbv zeta. unfold ejectCell.
  destruct (heap w !! ref) as [cell|]; [|by repeat split].
  destruct (Rltb _ _); [by repeat split|].
  destruct (Rleb _ _); [by repeat split|]. simpl.
  repeat split; try done.
  - by rewrite length_insert.
  - intros r Hne. by apply list_lookup_insert_ne.
  - by apply prefix_app_r.
Qed.

Lemma ejectCells_frame (dx dy len : R) (refs : list nat) :
  forall w : World,
    let w' := fold_left (ejectCell rnd dx dy len) refs w in
    players w' = players w /\ viruses w' = viruses w /\ draws w' = draws w /\
    nextPlayerId w' = nextPlayerId w /\
    length (heap w') = length (heap w) /\
    (forall r, r ∉ refs -> heap w' !! r = heap w !! r) /\
    foods w `prefix_of` foods w'.
Proof.
  induction refs as [|ref refs IH]; intros w; cbv zeta; [by repeat split|].
  cbn [fold_left].
  destruct (ejectCell_frame dx dy len w ref) as (H1 & H2 & H3 & H4 & H5 & H6 & H7).
  destruct (IH (ejectCell rnd dx dy len w ref)) as (I1 & I2 & I3 & I4 & I5 & I6 & I7).
  repeat split; try congruence.
  - intros r Hnot. apply not_elem_of_cons in Hnot as [Hne Hnot].
    rewrite I6 by done. by apply H6.
  - by etrans.
Qed.

Lemma players_index_id (id : N) (ps : list Player) (pi : nat) (p : Player) :
  players_index id ps = Some pi -> ps !! pi = Some p -> p_id p = id.
Proof.
  unfold players_index. intros Hidx Hp.
  destruct (list_find _ ps) as [[i q]|] eqn:Hf; [|done]. simpl in Hidx.
  injection Hidx as ->. apply list_find_Some in Hf as (Hq & Hid & _). congruence.
Qed.

Lemma players_index_none (id : N) (ps : list Player) :
  (forall p, p ∈ ps -> p_id p <> id) -> players_index id ps = None.
Proof.
  intros Hno. unfold players_index.
  destruct (list_find _ ps) as [[i q]|] eqn:Hf; [|done].
  apply list_find_Some in Hf as (Hq & Hid & _).
  exfalso. eapply Hno; [|exact Hid]. by eapply list_elem_of_lookup_2.
Qed.

(** X9. A message of a connected player changes nothing that belongs to
    somebody else: every other record of the players map, every cell that
    is not in the sender's list, every pellet that exists, the viruses and
    the random stream stay as they are; the sender's record stays at its
    place with its id and its bot flag. *)
Theorem X9_message_isolation
        (id : N) (msg : Msg) (w : World) (pi : nat) (p : Player) :
  id <> 0%N ->
  players_index id (players w) = Some pi ->
  players w !! pi = Some p ->
  let w' := handleMessage rnd (Some id) msg w in
  length (players w') = length (players w) /\
  (forall qi, qi <> pi -> players w' !! qi = players w !! qi) /\
  (exists p', players w' !! pi = Some p' /\ p_id p' = id /\ p_isBot p' = p_isBot p) /\
  (length (heap w) <= length (heap w'))%nat /\
  (forall r, r ∉ p_cells p -> (r < length (heap w))%nat ->
             heap w' !! r = heap w !! r) /\
  foods w `prefix_of` foods w' /\
  viruses w' = viruses w /\ draws w' = draws w /\
  nextPlayerId w' = nextPlayerId w.
Proof.
  intros Hid Hidx Hp w'.
  pose proof (players_index_id _ _ _ _ Hidx Hp) as Hpid.
  pose proof (lookup_lt_Some _ _ _ Hp) as Hlt.
  assert (Hsame : forall w0, w0 = w ->
            length (players w0) = length (players w) /\
            (forall qi, qi <> pi -> players w0 !! qi = players w !! qi) /\
            (exists p', players w0 !! pi = Some p' /\ p_id p' = id
                        /\ p_isBot p' = p_isBot p) /\
            (length (heap w) <= length (heap w0))%nat /\
            (forall r, r ∉ p_cells p -> (r < length (heap w))%nat ->
                       heap w0 !! r = heap w !! r) /\
            foods w `prefix_of` foods w0 /\
            viruses w0 = viruses w /\ draws w0 = draws w /\
            nextPlayerId w0 = nextPlayerId w).
  { intros w0 ->. split; [done|]. split; [done|]. split; [by exists p|].
    by repeat split. }
  assert (Hset : forall p', p_id p' = id -> p_isBot p' = p_isBot p ->
            let w0 := set_player pi p' w in
            length (players w0) = length (players w) /\
            (forall qi, qi <> pi -> players w0 !! qi = players w !! qi) /\
            (exists p', players w0 !! pi = Some p' /\ p_id p' = id
                        /\ p_isBot p' = p_isBot p) /\
            (length (heap w) <= length (heap w0))%nat /\
            (forall r, r ∉ p_cells p -> (r < length (heap w))%nat ->
                       heap w0 !! r = heap w !! r) /\
            foods w `prefix_of` foods w0 /\
            viruses w0 = viruses w /\ draws w0 = draws w /\
            nextPlayerId w0 = nextPlayerId w).
  { intros p' H1 H2. cbv zeta. unfold set_player. simpl.
    split; [by rewrite length_insert|].
    split; [intros qi Hne; by apply list_lookup_insert_ne|].
    split; [exists p'; split; [by apply list_lookup_insert_eq|done]|].
    by repeat split. }
  subst w'. unfold handleMessage.
  destruct (N.eqb_spec id 0) as [|_]; [done|].
  rewrite Hidx, Hp.
  destruct msg as [name skin color|dir| | |].
  - apply Hset.
    + destruct name as [n|], skin, color; try destruct (0 <? String.length n)%nat; done.
    + destruct name as [n|], skin, color; try destruct (0 <? String.length n)%nat; done.
  - destruct dir as [[|d0 [|d1 [|? ?]]]|]; try (by apply Hsame).
    apply Hset.
    + destruct (Rgtb _ _); [|done]. simpl.
      destruct (p_cells p) as [|r0 ?]; [done|]. by destruct (heap w !! r0).
    + destruct (Rgtb _ _); [|done]. simpl.
      destruct (p_cells p) as [|r0 ?]; [done|]. by destruct (heap w !! r0).
  - unfold splitPlayer. rewrite Hp.
    destruct (p_inputDir p) as [dx dy].
    pose proof (splitCells_frame dx dy (or_one (hypot dx dy)) (p_cells p) (w, []))
      as Hfr. cbv zeta in Hfr.
    destruct (fold_left _ _ _) as [w1 newCells]. simpl in Hfr.
    destruct Hfr as (Hf & Hl & Hk).
    assert (Hw1 : players w1 = players w /\ foods w1 = foods w /\
                  viruses w1 = viruses w /\ draws w1 = draws w /\
                  nextPlayerId w1 = nextPlayerId w).
    { rewrite Hf. by repeat split. }
    destruct Hw1 as (P1 & P2 & P3 & P4 & P5).
    destruct (0 <? length newCells)%nat.
    + unfold set_player. simpl. rewrite P1, P2, P3, P4, P5.
      split; [by rewrite length_insert|].
      split; [intros qi Hne; by apply list_lookup_insert_ne|].
      split; [eexists; split; [by apply list_lookup_insert_eq|done]|].
      by repeat split.
    + rewrite P1, P2, P3, P4, P5.
      split; [done|]. split; [done|]. split; [by exists p|]. by repeat split.
  - unfold ejectMass. rewrite Hp. destruct (p_inputDir p) as [dx dy].
    destruct (Reqb _ _); [by apply Hsame|].
    destruct (ejectCells_frame dx dy (or_one (hypot dx dy)) (p_cells p) w)
      as (I1 & I2 & I3 & I4 & I5 & I6 & I7).
    rewrite I1, I2, I3, I4, I5.
    split; [done|]. split; [done|]. split; [by exists p|].
    split; [done|]. split; [intros r Hnot _; by apply I6|]. by repeat split.
  - by apply Hsame.
Qed.

(** X10. The messages that [handleMessage] drops: from a socket that is
    not registered, from the id 0, from an id without a player (as after
    the connection's [close]), of an unknown type, and [input] messages
    whose [dir] is not an array of two elements. The world stays exactly as
    it is. *)
Theorem X10_dropped_messages (oid : option N) (id : N) (msg : Msg) (w : World) :
  handleMessage rnd None msg w = w /\
  handleMessage rnd (Some 0%N) msg w = w /\
  ((forall p, p ∈ players w -> p_id p <> id) ->
   handleMessage rnd (Some id) msg w = w) /\
  handleMessage rnd (Some id) msg (close id w) = close id w /\
  handleMessage rnd oid MOther w = w /\
  handleMessage rnd oid (MInput None) w = w /\
  (forall dir, length dir <> 2%nat -> handleMessage rnd oid (MInput (Some dir)) w = w).
Proof.
  assert (Hunknown : forall w0, (forall p, p ∈ players w0 -> p_id p <> id) ->
                                handleMessage rnd (Some id) msg w0 = w0).
  { intros w0 Hno. unfold handleMessage. destruct (id =? 0)%N; [done|].
    by rewrite (players_index_none _ _ Hno). }
  split; [done|]. split; [done|]. split; [apply Hunknown|]. split.
  { apply Hunknown. intros p Hin. unfold close in Hin. simpl in Hin.
    unfold players_delete in Hin. by apply list_elem_of_filter in Hin as [? _]. }
  assert (Hdrop : forall m, (forall pi player,
                     players w !! pi = Some player ->
                     match m with
                     | MInput None | MOther => True
                     | MInput (Some dir) => length dir <> 2%nat
                     | _ => False
                     end) ->
                   handleMessage rnd oid m w = w).
  { intros m Hm. unfold handleMessage. destruct oid as [i|]; [|done].
    destruct (i =? 0)%N; [done|].
    destruct (players_index i (players w)) as [pi|]; [|done].
    destruct (players w !! pi) as [player|] eqn:Hp; [|done].
    specialize (Hm pi player Hp).
    destruct m as [| [[|d0 [|d1 [|? ?]]]|] | | |]; try done. }
  split; [by apply Hdrop|]. split; [by apply Hdrop|].
  intros dir Hlen. by apply Hdrop.
Qed.

Lemma substring_length (m : nat) (s : string) :
  String.length (substring 0 m s) = Nat.min m (String.length s).
Proof.
  revert s. induction m as [|m IH]; intros s.
  - by destruct s.
  - destruct s as [|ch s]; [done|]. simpl. by rewrite IH.
Qed.

Lemma substring_prefix (m : nat) (s : string) :
  exists rest, s = (substring 0 m s ++ rest)%string.
Proof.
  revert s. induction m as [|m IH]; intros s.
  - exists s. by destruct s.
  - destruct s as [|ch s]; [by exists EmptyString|].
    destruct (IH s) as [rest Hrest]. exists rest. simpl substring.
    change (String ch s = String ch (substring 0 m s ++ rest)%string). by f_equal.
Qed.

(** X11. A [join] message of a connected player: a non-empty name is cut
    to its first 16 characters and stored, so that the stored name is never
    empty and never longer than the longer of 16 and the old name; an empty
    or missing name keeps the old one. Skin and color are stored when
    given. Nothing else of the world changes. *)
Theorem X11_join (id : N) (name : option string) (skin : option R)
        (color : option (list R)) (w : World) (pi : nat) (p : Player) :
  id <> 0%N ->
  players_index id (players w) = Some pi ->
  players w !! pi = Some p ->
  let w' := handleMessage rnd (Some id) (MJoin name skin color) w in
  exists p',
    w' = set_player pi p' w /\
    p' = set_p_color (default (p_color p) color)
           (set_p_skin (default (p_skin p) skin) (set_p_name (p_name p') p)) /\
    (forall n, name = Some n -> n <> EmptyString ->
               String.length (p_name p') = Nat.min 16 (String.length n) /\
               (0 < String.length (p_name p'))%nat /\
               exists rest, n = (p_name p' ++ rest)%string) /\
    (name = None \/ name = Some EmptyString -> p_name p' = p_name p).
Proof.
  intros Hid Hidx Hp w'. subst w'. unfold handleMessage.
  destruct (N.eqb_spec id 0) as [|_]; [done|].
  rewrite Hidx, Hp. eexists. split; [reflexivity|].
  split; [|split].
  - destruct p. destruct name as [n|], skin, color;
      try destruct (0 <? String.length n)%nat; reflexivity.
  - intros n -> Hne.
    assert (Hpos : (0 < String.length n)%nat) by (destruct n; [done|simpl; lia]).
    apply Nat.ltb_lt in Hpos as Hb. rewrite Hb.
    assert (Hname : forall q, p_name (match color with
                                    | Some c => set_p_color c q | None => q end)
                              = p_name q) by (intros q; by destruct color).
    assert (Hname2 : forall q, p_name (match skin with
                                    | Some s => set_p_skin s q | None => q end)
                              = p_name q) by (intros q; by destruct skin).
    rewrite Hname, Hname2. simpl.
    split; [apply substring_length|]. split; [|apply substring_prefix].
    rewrite substring_length. lia.
  - intros [-> | ->]; by destruct skin, color.
Qed.

End Messages.

Lemma X9_message_isolation_witness :
  viruses (handleMessage rndHalf (Some 1%N) MSplit exWorldSplit) = viruses exWorldSplit.
Proof.
  refine (proj1 (proj2 (proj2 (proj2 (proj2 (proj2 (proj2
    (X9_message_isolation rndHalf 1 MSplit exWorldSplit 0
       (mkPlayer 1 "Player" (-1) [0; 0; 0] false [0%nat] (1, 0) 0 0 false)
       _ _ _)))))))).
  - done.
  - reflexivity.
  - reflexivity.
Defined.

Lemma X11_join_witness :
  exists p',
    handleMessage rndHalf (Some 1%N) (MJoin (Some "A very long player name") None None)
                  exWorldFood
    = set_player 0 p' exWorldFood /\
    String.length (p_name p') = 16%nat.
Proof.
  destruct (X11_join rndHalf 1 (Some "A very long player name") None None
                     exWorldFood 0 (exPlayer 1 [0%nat]))
    as (p' & Hw & _ & Hname & _).
  - done.
  - reflexivity.
  - reflexivity.
  - exists p'. split; [exact Hw|].
    destruct (Hname "A very long player name" eq_refl ltac:(done)) as (Hlen & _).
    exact Hlen.
Defined.

(** ** Fragments of an explosion *)

Section Fragments.
Variable rnd : nat -> R.

Lemma explodePiece_eq (cell : Cell) (pieces : Z) (pieceRadius minDistance : R)
      (w : World) (news : list nat) (i : nat) :
  explodePiece rnd cell pieces pieceRadius minDistance (w, news) i
  = (set_heap
       (heap w ++
        [mkCell (c_x cell + cos (2 * PI * INR i / IZR pieces)
                            * (minDistance * (0.8 + rnd (draws w) * 0.4)))
                (c_y cell + sin (2 * PI * INR i / IZR pieces)
                            * (minDistance * (0.8 + rnd (draws w) * 0.4)))
                pieceRadius
                (cos (2 * PI * INR i / IZR pieces) * 200)
                (sin (2 * PI * INR i / IZR pieces) * 200)
                (MERGE_TIME * 1.2)])
       (set_draws (S (draws w)) w),
     news ++ [length (heap w)]).
Proof. reflexivity. Qed.

Lemma explodePieces_cells (cell : Cell) (pieces : Z) (pieceRadius minDistance : R)
      (n : nat) :
  forall (s : nat) (w : World) (news : list nat),
    let res := fold_left (explodePiece rnd cell pieces pieceRadius minDistance)
                         (seq s n) (w, news) in
    draws (fst res) = (draws w + n)%nat /\
    length (heap (fst res)) = (length (heap w) + n)%nat /\
    (forall r, (r < length (heap w))%nat -> heap (fst res) !! r = heap w !! r) /\
    (forall k, (k < n)%nat ->
               let angle := 2 * PI * INR (s + k) / IZR pieces in
               let distance := minDistance * (0.8 + rnd (draws w + k)%nat * 0.4) in
               heap (fst res) !! (length (heap w) + k)%nat
               = Some (mkCell (c_x cell + cos angle * distance)
                              (c_y cell + sin angle * distance)
                              pieceRadius (cos angle * 200) (sin angle * 200)
                              (MERGE_TIME * 1.2))).
Proof.
  induction n as [|n IH]; intros s w news.
  { simpl. split; [lia|]. split; [lia|]. split; [done|]. intros k Hk. lia. }
  simpl seq. cbn [fold_left].
  rewrite (explodePiece_eq cell pieces pieceRadius minDistance w news s).
  set (w' := set_heap _ _).
  assert (Hd : draws w' = S (draws w)) by done.
  assert (Hh : heap w' = heap w ++
                 [mkCell (c_x cell + cos (2 * PI * INR s / IZR pieces)
                                     * (minDistance * (0.8 + rnd (draws w) * 0.4)))
                         (c_y cell + sin (2 * PI * INR s / IZR pieces)
                                     * (minDistance * (0.8 + rnd (draws w) * 0.4)))
                         pieceRadius
                         (cos (2 * PI * INR s / IZR pieces) * 200)
                         (sin (2 * PI * INR s / IZR pieces) * 200)
                         (MERGE_TIME * 1.2)]) by done.
  destruct (IH (S s) w' (news ++ [length (heap w)])) as (Hdr & Hlen & Hold & Hnew).
  clearbody w'. cbv zeta in *.
  assert (Hl : length (heap w') = S (length (heap w))).
  { rewrite Hh, length_app. simpl. lia. }
  rewrite Hdr, Hlen, Hd, Hl. split; [lia|]. split; [lia|]. split.
  - intros r Hr. rewrite Hold by lia. rewrite Hh. by apply lookup_app_l.
  - intros [|k] Hk.
    + rewrite Nat.add_0_r. rewrite Hold by lia. rewrite Hh.
      rewrite lookup_app_r by lia. rewrite Nat.sub_diag. simpl.
      by rewrite !Nat.add_0_r.
    + specialize (Hnew k ltac:(lia)). rewrite Hl, Hd in Hnew.
      replace (length (heap w) + S k)%nat with (S (length (heap w)) + k)%nat by lia.
      rewrite Hnew.
      replace (S s + k)%nat with (s + S k)%nat by lia.
      by replace (S (draws w) + k)%nat with (draws w + S k)%nat by lia.
Qed.

(** X13. The fragments of an exploding cell, when [Math.random()] returns
    values in [[0, 1)]: fragment [k] is stored behind the [k]-th new
    reference, lies in the direction [2 * PI * k / pieces] from the
    center of the cell at a distance between 2.4 and 3.6 times the
    fragment radius, flies outward at speed 200, and may merge after
    [MERGE_TIME * 1.2]; the explosion draws one random number per
    fragment and leaves every cell that existed as it is. *)
Theorem X13_fragments (pi ref : nat) (w : World) (p : Player) (cell : Cell) :
  players w !! pi = Some p ->
  heap w !! ref = Some cell ->
  (forall n, 0 <= rnd n < 1) ->
  let w' := explodeCellIntoMany rnd pi ref w in
  let pieces := pieceCount (cellAreaFromRadius (c_radius cell)) in
  let pieceRadius := radiusFromArea (cellAreaFromRadius (c_radius cell) / IZR pieces) in
  draws w' = (draws w + Z.to_nat pieces)%nat /\
  length (heap w') = (length (heap w) + Z.to_nat pieces)%nat /\
  (forall r, (r < length (heap w))%nat -> heap w' !! r = heap w !! r) /\
  (forall k, (k < Z.to_nat pieces)%nat ->
     let angle := 2 * PI * INR k / IZR pieces in
     exists c distance,
       heap w' !! (length (heap w) + k)%nat = Some c /\
       c_x c = c_x cell + cos angle * distance /\
       c_y c = c_y cell + sin angle * distance /\
       2.4 * pieceRadius <= distance <= 3.6 * pieceRadius /\
       (c_x c - c_x cell) * (c_x c - c_x cell)
       + (c_y c - c_y cell) * (c_y c - c_y cell) = distance * distance /\
       c_radius c = pieceRadius /\
       c_vx c = cos angle * 200 /\ c_vy c = sin angle * 200 /\
       c_vx c * c_vx c + c_vy c * c_vy c = 200 * 200 /\
       c_mergeTimer c = MERGE_TIME * 1.2).
Proof.
  intros Hp Hc Hrnd w' pieces pieceRadius.
  pose proof (explodePieces_cells cell pieces pieceRadius (pieceRadius * 3)
                                  (Z.to_nat pieces) 0 w []) as Hcells.
  pose proof (explodePieces_spec rnd cell pieces pieceRadius (pieceRadius * 3)
                                 (Z.to_nat pieces) 0 w []) as (cs & Hspec).
  cbv zeta in Hcells, Hspec.
  assert (Hw' : heap w' = heap (fst (fold_left
                   (explodePiece rnd cell pieces pieceRadius (pieceRadius * 3))
                   (seq 0 (Z.to_nat pieces)) (w, []))) /\
                draws w' = draws (fst (fold_left
                   (explodePiece rnd cell pieces pieceRadius (pieceRadius * 3))
                   (seq 0 (Z.to_nat pieces)) (w, [])))).
  { subst w'. unfold explodeCellIntoMany. rewrite Hp, Hc. cbv zeta.
    fold pieces. fold pieceRadius.
    destruct Hspec as (_ & _ & _ & _ & Hpl & _).
    destruct (fold_left _ _ _) as [w1 newCells]. simpl in *.
    rewrite Hpl, Hp. done. }
  destruct Hw' as [Hheap Hdraws]. rewrite Hheap, Hdraws.
  destruct Hcells as (Hd & Hl & Hold & Hnew).
  split; [done|]. split; [done|]. split; [done|].
  intros k Hk angle. specialize (Hnew k Hk). simpl in Hnew.
  do 2 eexists. split; [exact Hnew|]. simpl.
  assert (Hpr : 0 <= pieceRadius) by apply sqrt_pos.
  destruct (Hrnd (draws w + k)%nat) as [H0 H1].
  assert (Hunit : cos angle * cos angle + sin angle * sin angle = 1).
  { pose proof (sin2_cos2 angle) as Hsc. unfold Rsqr in Hsc. lra. }
  subst angle.
  set (a := 2 * PI * INR k / IZR pieces) in *.
  set (d := pieceRadius * 3 * (0.8 + rnd (draws w + k)%nat * 0.4)).
  split; [done|]. split; [done|]. split; [subst d; nra|]. split.
  { replace (c_x cell + cos a * d - c_x cell) with (cos a * d) by ring.
    replace (c_y cell + sin a * d - c_y cell) with (sin a * d) by ring.
    replace (cos a * d * (cos a * d) + sin a * d * (sin a * d))
      with ((cos a * cos a + sin a * sin a) * (d * d)) by ring.
    rewrite Hunit. unfold d. ring. }
  split; [done|]. split; [done|]. split; [done|]. split; [|done].
  replace (cos a * 200 * (cos a * 200) + sin a * 200 * (sin a * 200))
    with ((cos a * cos a + sin a * sin a) * (200 * 200)) by ring.
  rewrite Hunit. ring.
Qed.

End Fragments.

Lemma X13_fragments_witness :
  draws (explodeCellIntoMany rndHalf 0 0 exWorldVirus)
  = (draws exWorldVirus
     + Z.to_nat (pieceCount (cellAreaFromRadius (c_radius (exCell 0 0 70 10)))))%nat.
Proof.
  refine (proj1 (X13_fragments rndHalf 0 0 exWorldVirus (exPlayer 1 [0%nat])
                               (exCell 0 0 70 10) _ _ _)).
  - reflexivity.
  - reflexivity.
  - intros n. unfold rndHalf. lra.
Defined.

(** ** Score *)

Lemma score_fold (w : World) (cells : list nat) :
  forall acc : R,
    fold_left (fun totalArea ref =>
                 match heap w !! ref with
                 | Some cell => totalArea + cellAreaFromRadius (c_radius cell)
                 | None => totalArea
                 end) cells acc
    = acc + cellsArea w cells.
Proof.
  induction cells as [|r cells IH]; intros acc; simpl; [lra|].
  rewrite IH. destruct (heap w !! r); lra.
Qed.

Lemma cellsArea_nonneg (w : World) (cells : list nat) : 0 <= cellsArea w cells.
Proof.
  induction cells as [|r cells IH]; simpl; [lra|].
  destruct (heap w !! r) as [c|]; [|done].
  pose proof (area_nonneg (c_radius c)). lra.
Qed.

Lemma floor_bounds (a : R) : IZR (floor a) <= a < IZR (floor a) + 1.
Proof.
  unfold floor. destruct (base_Int_part a) as [H1 H2]. lra.
Qed.

Lemma floor_unique (a : R) (z : Z) : IZR z <= a < IZR z + 1 -> floor a = z.
Proof.
  intros [H1 H2]. pose proof (floor_bounds a) as [H3 H4].
  assert (floor a < z + 1)%Z by (apply lt_IZR; rewrite plus_IZR; simpl; lra).
  assert (z < floor a + 1)%Z by (apply lt_IZR; rewrite plus_IZR; simpl; lra).
  lia.
Qed.

Lemma floor_nonneg (a : R) : 0 <= a -> (0 <= floor a)%Z.
Proof.
  intros Ha. pose proof (floor_bounds a) as [_ H2].
  apply Z.lt_succ_r. apply lt_IZR. rewrite succ_IZR. lra.
Qed.

Lemma floor_mono (a b : R) : a <= b -> (floor a <= floor b)%Z.
Proof.
  intros Hab. pose proof (floor_bounds a) as [H1 _].
  pose proof (floor_bounds b) as [_ H2].
  apply Z.lt_succ_r. apply lt_IZR. rewrite succ_IZR. lra.
Qed.

Lemma cellsArea_perm (w : World) (cells cells' : list nat) :
  cells ≡ₚ cells' -> cellsArea w cells = cellsArea w cells'.
Proof.
  induction 1 as [|r l l' _ IH|r1 r2 l|l1 l2 l3 _ IH1 _ IH2]; simpl.
  - done.
  - change (foldr _ 0 l) with (cellsArea w l).
    change (foldr _ 0 l') with (cellsArea w l'). by rewrite IH.
  - destruct (heap w !! r1), (heap w !! r2); lra.
  - by rewrite IH1.
Qed.

(** X14. The score of a list of cells is the integer part of a tenth of
    their total area: it is never negative, it is within one of a tenth of
    the area, it does not depend on the order in which the cells are
    summed (any rearrangement of the array gives the same score), and a
    player with more area never has a smaller score. *)
Theorem X14_score (w : World) (cells : list nat) :
  calculateScoreFromCells w cells = floor (cellsArea w cells / 10) /\
  (0 <= calculateScoreFromCells w cells)%Z /\
  IZR (calculateScoreFromCells w cells) <= cellsArea w cells / 10
    < IZR (calculateScoreFromCells w cells) + 1 /\
  (forall cells',
      cells ≡ₚ cells' ->
      calculateScoreFromCells w cells' = calculateScoreFromCells w cells) /\
  (forall w' cells',
      cellsArea w cells <= cellsArea w' cells' ->
      (calculateScoreFromCells w cells <= calculateScoreFromCells w' cells')%Z).
Proof.
  assert (Hscore : forall w0 cells0,
             calculateScoreFromCells w0 cells0 = floor (cellsArea w0 cells0 / 10)).
  { intros w0 cells0. unfold calculateScoreFromCells.
    destruct cells0 as [|r cells0].
    - simpl. symmetry. apply floor_unique. simpl. lra.
    - rewrite score_fold. f_equal. lra. }
  pose proof (cellsArea_nonneg w cells) as Hpos.
  split; [apply Hscore|]. rewrite Hscore.
  split; [apply floor_nonneg; lra|]. split; [apply floor_bounds|]. split.
  - intros cells' Hperm. rewrite Hscore. by rewrite (cellsArea_perm w cells cells').
  - intros w' cells' Hle. rewrite Hscore. apply floor_mono. lra.
Qed.

(** ** Bots *)

Lemma fold_nearer (l : list (R * R * R)) :
  forall init : option (R * R * R),
    match fold_left nearerC l init with
    | None => init = None /\ l = []
    | Some e =>
      (Some e = init \/ e ∈ l) /\
      (forall e0, init = Some e0 -> snd e <= snd e0) /\
      (forall e', e' ∈ l -> snd e <= snd e')
    end.
Proof.
  induction l as [|[[x y] d] l IH]; intros init.
  - simpl. destruct init as [e|]; [|done].
    split; [by left|]. split; [|intros e' He'; by apply elem_of_nil in He'].
    intros e0 He0. injection He0 as <-. lra.
  - cbn [fold_left]. specialize (IH (nearerC init (x, y, d))).
    assert (Hstep : (nearerC init (x, y, d) = Some (x, y, d) /\
                     forall e0, init = Some e0 -> d < snd e0) \/
                    (nearerC init (x, y, d) = init /\
                     exists e0, init = Some e0 /\ snd e0 <= d)).
    { unfold nearerC, nearer. simpl. destruct init as [[[x0 y0] d0]|].
      - destruct (Rlt_le_dec d d0) as [Hlt|Hle].
        + left. rewrite Rltb_true by done. split; [done|].
          intros e0 He0. injection He0 as <-. done.
        + right. rewrite Rltb_false by done. split; [done|]. by eexists.
      - left. split; [done|]. intros e0 He0. done. }
    destruct (fold_left nearerC l (nearerC init (x, y, d))) as [e|].
    + destruct IH as (Hin & Hinit & Hall).
      destruct Hstep as [[Hs Hlt]|[Hs (e0 & He0 & Hle)]]; rewrite Hs in *.
      * split; [|split].
        -- right. destruct Hin as [Hin|Hin].
           ++ injection Hin as ->. apply list_elem_of_here.
           ++ by apply list_elem_of_further.
        -- intros e0 He0. specialize (Hinit _ eq_refl). specialize (Hlt _ He0).
           simpl in Hinit. lra.
        -- intros e' He'. apply elem_of_cons in He' as [->|He'].
           ++ by apply (Hinit _ eq_refl).
           ++ by apply Hall.
      * split; [|split].
        -- destruct Hin as [Hin|Hin]; [by left|right; by apply list_elem_of_further].
        -- done.
        -- intros e' He'. apply elem_of_cons in He' as [->|He'].
           ++ specialize (Hinit _ He0). simpl. lra.
           ++ by apply Hall.
    + destruct IH as [Hnone _].
      destruct Hstep as [[Hs _]|[Hs (e0 & He0 & _)]]; congruence.
Qed.

Lemma fold_nearer_none (l : list (R * R * R)) :
  match fold_left nearerC l None with
  | None => l = []
  | Some e => nearestOf e l
  end.
Proof.
  pose proof (fold_nearer l None) as H.
  destruct (fold_left nearerC l None) as [e|]; [|by destruct H].
  destruct H as ([Hin|Hin] & _ & Hall); [done|]. by split.
Qed.

Lemma fold_nearer_app (l1 l2 : list (R * R * R)) (init : option (R * R * R)) :
  fold_left nearerC (l1 ++ l2) init = fold_left nearerC l2 (fold_left nearerC l1 init).
Proof. apply fold_left_app. Qed.

Section Bots.
Variable rnd : nat -> R.

Lemma sees_fold (w : World) (my : Cell) (refs : list nat) :
  forall target flee : option (R * R * R),
    fold_left (botSeesCell w my) refs (target, flee)
    = (fold_left nearerC
         (map (fun c => botCandidate my (c_x c) (c_y c))
              (filter (fun c => isPrey my c = true) (omap (fun r => heap w !! r) refs)))
         target,
       fold_left nearerC
         (map (fun c => botCandidate my (c_x c) (c_y c))
              (filter (fun c => isThreat my c = true) (omap (fun r => heap w !! r) refs)))
         flee).
Proof.
  induction refs as [|r refs IH]; intros target flee; [done|].
  cbn [fold_left]. unfold botSeesCell at 2. cbn [omap list_omap].
  destruct (heap w !! r) as [c|] eqn:Hc; [|apply IH].
  fold (isThreat my c).
  destruct (isThreat my c) eqn:Ht.
  - rewrite IH. rewrite (filter_cons_True (fun c => isThreat my c = true)) by done.
    rewrite (filter_cons_False (fun c => isPrey my c = true))
      by (unfold isPrey; rewrite Ht; done).
    done.
  - destruct (Rltb (c_radius c) (c_radius my * 0.8)) eqn:Hp.
    + rewrite IH. rewrite (filter_cons_False (fun c => isThreat my c = true))
        by (by rewrite Ht).
      rewrite (filter_cons_True (fun c => isPrey my c = true))
        by (unfold isPrey; rewrite Ht, Hp; done).
      done.
    + rewrite IH. rewrite (filter_cons_False (fun c => isThreat my c = true))
        by (by rewrite Ht).
      rewrite (filter_cons_False (fun c => isPrey my c = true))
        by (unfold isPrey; rewrite Ht, Hp; done).
      done.
Qed.

Lemma sees_players (pi : nat) (w : World) (my : Cell) (ips : list (nat * Player)) :
  forall target flee : option (R * R * R),
    fold_left
      (fun acc '(i, p) =>
         if (i =? pi)%nat then acc
         else fold_left (botSeesCell w my) (p_cells p) acc)
      ips (target, flee)
    = (fold_left nearerC
         (map (fun c => botCandidate my (c_x c) (c_y c))
              (filter (fun c => isPrey my c = true) (botOthers pi w ips)))
         target,
       fold_left nearerC
         (map (fun c => botCandidate my (c_x c) (c_y c))
              (filter (fun c => isThreat my c = true) (botOthers pi w ips)))
         flee).
Proof.
  induction ips as [|[i p] ips IH]; intros target flee; [done|].
  cbn [fold_left]. unfold botOthers. cbn [map concat]. fold (botOthers pi w ips).
  destruct (i =? pi)%nat.
  - simpl app. apply IH.
  - rewrite sees_fold, IH. rewrite !filter_app, !map_app, !fold_nearer_app. done.
Qed.

Lemma foods_fold (my : Cell) (fs : list Food) :
  forall target : option (R * R * R),
    fold_left (fun target f =>
                 let dx := f_x f - c_x my in
                 let dy := f_y f - c_y my in
                 nearer (f_x f) (f_y f) (dx * dx + dy * dy) target) fs target
    = fold_left nearerC (map (fun f => botCandidate my (f_x f) (f_y f)) fs) target.
Proof.
  induction fs as [|f fs IH]; intros target; [done|]. cbn [fold_left map]. by rewrite IH.
Qed.

Lemma splitPlayer_inputDir (pi : nat) (w : World) (p : Player) :
  players w !! pi = Some p ->
  exists p', players (splitPlayer pi w) !! pi = Some p' /\
             p_inputDir p' = p_inputDir p.
Proof.
  intros Hp. unfold splitPlayer. rewrite Hp. destruct (p_inputDir p) as [dx dy] eqn:Hd.
  pose proof (splitCells_frame dx dy (or_one (hypot dx dy)) (p_cells p) (w, [])) as Hfr.
  cbv zeta in Hfr. destruct (fold_left _ _ _) as [w1 news]. simpl in Hfr.
  destruct Hfr as (Hf & _ & _).
  assert (Hp1 : players w1 = players w) by (by rewrite Hf).
  destruct (0 <? length news)%nat.
  - eexists. unfold set_player. simpl. rewrite Hp1. split.
    + apply list_lookup_insert_eq. by eapply lookup_lt_Some.
    + done.
  - exists p. by rewrite Hp1.
Qed.

Lemma bot_finish (pi : nat) (w : World) (bot : Player) (vx vy : R)
      (target : option (R * R * R)) :
  players w !! pi = Some bot ->
  exists bot',
    players
      (let len := or_one (hypot vx vy) in
       let w := set_player pi (set_p_inputDir (vx / len, vy / len) bot) w in
       match target with
       | None => w
       | Some _ =>
         let '(r, w) := random rnd w in
         if Rltb r 0.01 then splitPlayer pi w else w
       end) !! pi = Some bot' /\
    p_inputDir bot' = (vx / or_one (hypot vx vy), vy / or_one (hypot vx vy)) /\
    (fst (p_inputDir bot') * fst (p_inputDir bot')
     + snd (p_inputDir bot') * snd (p_inputDir bot') = 1 \/
     p_inputDir bot' = (0, 0)).
Proof.
  intros Hp. pose proof (lookup_lt_Some _ _ _ Hp) as Hlt. cbv zeta.
  set (d := (vx / or_one (hypot vx vy), vy / or_one (hypot vx vy))).
  set (w1 := set_player pi (set_p_inputDir d bot) w).
  assert (Hp1 : players w1 !! pi = Some (set_p_inputDir d bot))
    by (by apply list_lookup_insert_eq).
  assert (Hunit : fst d * fst d + snd d * snd d = 1 \/ d = (0, 0)).
  { subst d. simpl. destruct (Req_dec vx 0) as [Hx|Hx].
    - destruct (Req_dec vy 0) as [Hy|Hy].
      + right. subst vx vy. rewrite zero_direction. f_equal; lra.
      + left. apply unit_direction. intros Hz. by injection Hz.
    - left. apply unit_direction. intros Hz. by injection Hz. }
  assert (Hfin : forall w2 : World,
           (w2 = w1 \/ w2 = set_draws (S (draws w1)) w1 \/
            w2 = splitPlayer pi (set_draws (S (draws w1)) w1)) ->
           exists bot', players w2 !! pi = Some bot' /\ p_inputDir bot' = d).
  { intros w2 [->|[->| ->]]; [by eexists|by eexists|].
    destruct (splitPlayer_inputDir pi (set_draws (S (draws w1)) w1) _ Hp1)
      as (p' & Hp' & Hd'). by exists p'. }
  destruct (Hfin (match target with
                  | None => w1
                  | Some _ =>
                    let '(r, w) := random rnd w1 in
                    if Rltb r 0.01 then splitPlayer pi w else w
                  end)) as (bot' & Hb & Hd).
  { destruct target; [|auto]. unfold random. destruct (Rltb _ _); auto. }
  exists bot'. split; [exact Hb|]. rewrite Hd. split; [done|]. exact Hunit.
Qed.

(** X12. What [botThink] steers by. The direction it stores is the
    vector [v] divided by its length (or by 1 when the length is 0), so it
    is a unit vector or [(0, 0)]. When some cell of another player is more
    than 1.2 times as large as the bot's first cell, [v] points from a
    nearest such cell to that first cell, whatever else is around;
    otherwise, when there are pellets or cells of others below 0.8 times
    its radius, [v] points to a nearest one of them; otherwise [v] is
    [(0, 0)]. *)
Theorem X12_bot_direction
        (pi : nat) (w : World) (bot : Player) (r0 : nat) (rest : list nat) (my : Cell) :
  players w !! pi = Some bot ->
  p_cells bot = r0 :: rest ->
  heap w !! r0 = Some my ->
  let threats := botThreats pi w my in
  let prey := botPrey pi w my in
  exists (bot' : Player) (v : R * R),
    players (botThink rnd pi w) !! pi = Some bot' /\
    p_inputDir bot'
    = (fst v / or_one (hypot (fst v) (snd v)), snd v / or_one (hypot (fst v) (snd v))) /\
    (fst (p_inputDir bot') * fst (p_inputDir bot')
     + snd (p_inputDir bot') * snd (p_inputDir bot') = 1 \/
     p_inputDir bot' = (0, 0)) /\
    (threats <> [] ->
     exists t, nearestOf t threats /\
               v = (c_x my - fst (fst t), c_y my - snd (fst t))) /\
    (threats = [] -> prey <> [] ->
     exists t, nearestOf t prey /\
               v = (fst (fst t) - c_x my, snd (fst t) - c_y my)) /\
    (threats = [] -> prey = [] -> v = (0, 0)).
Proof.
  intros Hp Hcells Hmy threats prey.
  pose proof (lookup_lt_Some _ _ _ Hp) as Hlt.
  unfold botThink. rewrite Hp, Hcells, Hmy.
  rewrite foods_fold, sees_players. rewrite <- fold_nearer_app.
  fold (botThreats pi w my). fold threats.
  assert (Hprey : map (fun f => botCandidate my (f_x f) (f_y f)) (foods w) ++
                  map (fun c => botCandidate my (c_x c) (c_y c))
                      (filter (fun c => isPrey my c = true)
                              (botOthers pi w (imap pair (players w)))) = prey) by done.
  rewrite Hprey.
  pose proof (fold_nearer_none threats) as Hflee.
  pose proof (fold_nearer_none prey) as Htarget.
  destruct (fold_left nearerC threats None) as [[[fx fy] fd]|] eqn:Ef;
    destruct (fold_left nearerC prey None) as [[[tx ty] td]|] eqn:Et.
  - (* a threat and a prey *)
    destruct (bot_finish pi w bot (c_x my - fx) (c_y my - fy) (Some (tx, ty, td)) Hp)
      as (bot' & Hb & Hd & Hunit).
    exists bot', (c_x my - fx, c_y my - fy).
    split; [exact Hb|]. split; [exact Hd|]. split; [exact Hunit|]. split; [|split].
    + intros _. by eexists.
    + intros Hnil. rewrite Hnil in Hflee. destruct Hflee as [Hin _].
      by apply elem_of_nil in Hin.
    + intros Hnil. rewrite Hnil in Hflee. destruct Hflee as [Hin _].
      by apply elem_of_nil in Hin.
  - (* a threat, no prey *)
    destruct (bot_finish pi w bot (c_x my - fx) (c_y my - fy) None Hp)
      as (bot' & Hb & Hd & Hunit).
    exists bot', (c_x my - fx, c_y my - fy).
    split; [exact Hb|]. split; [exact Hd|]. split; [exact Hunit|]. split; [|split].
    + intros _. by eexists.
    + intros Hnil. rewrite Hnil in Hflee. destruct Hflee as [Hin _].
      by apply elem_of_nil in Hin.
    + intros Hnil. rewrite Hnil in Hflee. destruct Hflee as [Hin _].
      by apply elem_of_nil in Hin.
  - (* no threat, a prey *)
    destruct (bot_finish pi w bot (tx - c_x my) (ty - c_y my) (Some (tx, ty, td)) Hp)
      as (bot' & Hb & Hd & Hunit).
    exists bot', (tx - c_x my, ty - c_y my).
    split; [exact Hb|]. split; [exact Hd|]. split; [exact Hunit|]. split; [|split].
    + intros Hne. done.
    + intros _ _. by eexists.
    + intros _ Hnil. rewrite Hnil in Htarget. destruct Htarget as [Hin _].
      by apply elem_of_nil in Hin.
  - (* nothing around *)
    destruct (bot_finish pi w bot 0 0 None Hp) as (bot' & Hb & Hd & Hunit).
    exists bot', (0, 0).
    split; [exact Hb|]. split; [exact Hd|]. split; [exact Hunit|]. split; [|split]; done.
Qed.

End Bots.

Lemma X12_bot_direction_witness :
  exists (bot' : Player) (v : R * R),
    players (botThink rndHalf 0 exWorldBot) !! 0%nat = Some bot' /\
    p_inputDir bot'
    = (fst v / or_one (hypot (fst v) (snd v)), snd v / or_one (hypot (fst v) (snd v))).
Proof.
  destruct (X12_bot_direction rndHalf 0 exWorldBot
              (mkPlayer 10000 "Bot_10000" (-1) [0; 0; 0] true [0%nat] (0, 0) 0 0 false)
              0 [] (exCell 0 0 40 10) eq_refl eq_refl eq_refl)
    as (bot' & v & H1 & H2 & _).
  exists bot', v. split; [exact H1|exact H2].
Defined.

(** ** Invariants of the running server *)

Lemma fold_left_inv {A B} (P : A -> Prop) (f : A -> B -> A) (l : list B) :
  (forall a b, P a -> P (f a b)) -> forall a, P a -> P (fold_left f l a).
Proof.
  intros Hstep. induction l as [|x l IH]; intros a Ha; simpl; [done|].
  apply IH. by apply Hstep.
Qed.

Lemma Forall_sub {A} (P : A -> Prop) (l1 l2 : list A) :
  l1 `sublist_of` l2 -> Forall P l2 -> Forall P l1.
Proof.
  intros Hsub Hall. apply Forall_forall. intros x Hx.
  eapply (proj1 (Forall_forall P l2)); [done|]. by eapply elem_of_sublist.
Qed.

Lemma ownedRefs_app (ps1 ps2 : list Player) :
  ownedRefs (ps1 ++ ps2) = ownedRefs ps1 ++ ownedRefs ps2.
Proof. unfold ownedRefs. by rewrite map_app, concat_app. Qed.

Lemma ownedRefs_cons (p : Player) (ps : list Player) :
  ownedRefs (p :: ps) = p_cells p ++ ownedRefs ps.
Proof. done. Qed.

Lemma ownedRefs_split (ps : list Player) (pi : nat) (p p' : Player) :
  ps !! pi = Some p ->
  ownedRefs ps = ownedRefs (take pi ps) ++ p_cells p ++ ownedRefs (drop (S pi) ps) /\
  ownedRefs (<[pi := p']> ps)
  = ownedRefs (take pi ps) ++ p_cells p' ++ ownedRefs (drop (S pi) ps).
Proof.
  intros Hp. pose proof (lookup_lt_Some _ _ _ Hp) as Hlt. split.
  - rewrite <- (take_drop_middle ps pi p Hp) at 1.
    by rewrite ownedRefs_app, ownedRefs_cons.
  - rewrite insert_take_drop by done. by rewrite ownedRefs_app, ownedRefs_cons.
Qed.

Lemma owned_elem (ps : list Player) (pi : nat) (p : Player) (r : nat) :
  ps !! pi = Some p -> r ∈ p_cells p -> r ∈ ownedRefs ps.
Proof.
  intros Hp Hr. destruct (ownedRefs_split ps pi p p Hp) as [-> _].
  rewrite !elem_of_app. auto.
Qed.

Lemma owned_disjoint (ps : list Player) (pi qi : nat) (p q : Player) (r : nat) :
  NoDup (ownedRefs ps) ->
  ps !! pi = Some p -> ps !! qi = Some q -> (pi < qi)%nat ->
  r ∈ p_cells p -> r ∈ p_cells q -> False.
Proof.
  intros Hnd Hp Hq Hlt Hrp Hrq.
  destruct (ownedRefs_split ps pi p p Hp) as [Hold _]. rewrite Hold in Hnd.
  apply NoDup_app in Hnd as (_ & _ & Hnd). apply NoDup_app in Hnd as (_ & Hdis & _).
  apply (Hdis r Hrp). apply (owned_elem _ (qi - S pi) q); [|done].
  rewrite lookup_drop. by replace (S pi + (qi - S pi))%nat with qi by lia.
Qed.

(** The player at [pi] keeps some of its cells and gets [n] new ones,
    the references from [L] on. *)
Lemma owned_grow (ps : list Player) (pi : nat) (p p' : Player)
      (sub : list nat) (L n : nat) :
  ps !! pi = Some p ->
  p_cells p' = sub ++ seq L n ->
  sub `sublist_of` p_cells p ->
  NoDup (ownedRefs ps) /\ Forall (fun r => (r < L)%nat) (ownedRefs ps) ->
  NoDup (ownedRefs (<[pi := p']> ps)) /\
  Forall (fun r => (r < L + n)%nat) (ownedRefs (<[pi := p']> ps)).
Proof.
  intros Hp Hcells Hsub [Hnd Hall].
  destruct (ownedRefs_split ps pi p p' Hp) as [Hold Hnew].
  rewrite Hnew, Hcells. rewrite Hold in Hnd, Hall.
  set (c1 := ownedRefs (take pi ps)) in *.
  set (c2 := ownedRefs (drop (S pi) ps)) in *.
  assert (Hperm : c1 ++ (sub ++ seq L n) ++ c2 ≡ₚ (c1 ++ sub ++ c2) ++ seq L n).
  { rewrite <- !app_assoc. apply Permutation_app_head.
    apply Permutation_app_head. apply Permutation_app_comm. }
  assert (Hsubl : c1 ++ sub ++ c2 `sublist_of` c1 ++ p_cells p ++ c2).
  { apply sublist_app; [done|]. by apply sublist_app. }
  assert (Hlt : Forall (fun r => (r < L)%nat) (c1 ++ sub ++ c2))
    by (by eapply Forall_sub).
  split.
  - rewrite Hperm. apply NoDup_app. split; [by eapply sublist_NoDup|].
    split; [|apply NoDup_seq].
    intros x Hx Hin. apply elem_of_seq in Hin.
    pose proof (proj1 (Forall_forall _ _) Hlt x Hx) as Hxl. simpl in Hxl. lia.
  - rewrite Hperm. apply Forall_app. split.
    + eapply Forall_impl; [exact Hlt|]. intros x Hx. simpl in *. lia.
    + apply Forall_forall. intros x Hin. apply elem_of_seq in Hin. lia.
Qed.

Lemma ids_insert (ps : list Player) (pi : nat) (p p' : Player) :
  ps !! pi = Some p -> p_id p' = p_id p ->
  map p_id (<[pi := p']> ps) = map p_id ps.
Proof.
  intros Hp Hid.
  change (map p_id (<[pi := p']> ps)) with (p_id <$> <[pi := p']> ps).
  rewrite list_fmap_insert, Hid. apply list_insert_id.
  by rewrite list_lookup_fmap, Hp.
Qed.

Lemma grow_radius (r r' : R) :
  5 <= r -> 5 <= radiusFromArea (cellAreaFromRadius r + cellAreaFromRadius r').
Proof.
  intros Hr. rewrite radiusFromArea_sum.
  rewrite <- (sqrt_square 5) by lra. apply sqrt_le_1_alt. nra.
Qed.

(** *** The elementary updates *)

Lemma sane_same (w w' : World) :
  sane w ->
  heap w' = heap w -> players w' = players w -> foods w' = foods w ->
  viruses w' = viruses w -> nextPlayerId w' = nextPlayerId w ->
  nextFoodId w' = nextFoodId w -> nextVirusId w' = nextVirusId w ->
  sane w'.
Proof.
  intros [H1 H2 H3 H4 H5 H6] Hh Hp Hf Hv Hnp Hnf Hnv.
  split; by rewrite ?Hh, ?Hp, ?Hf, ?Hv, ?Hnp, ?Hnf, ?Hnv.
Qed.

Lemma sane_draws (n : nat) (w : World) : sane w -> sane (set_draws n w).
Proof. intros Hs. by eapply sane_same. Qed.

Lemma sane_store (ref : nat) (c : Cell) (w : World) :
  sane w -> 5 <= c_radius c -> sane (store ref c w).
Proof.
  intros [H1 H2 H3 H4 H5 H6] Hc. split; simpl; try done.
  - by apply Forall_insert.
  - by rewrite length_insert.
Qed.

Lemma sane_radius (w : World) (ref : nat) (c : Cell) :
  sane w -> heap w !! ref = Some c -> 5 <= c_radius c.
Proof.
  intros [H1 _ _ _ _ _] Hc. by eapply (proj1 (Forall_lookup _ _) H1).
Qed.

(** The player at [pi] gets a record that keeps the id and the bot flag,
    some of the cells, and [n] cells that have just been created. *)
Lemma sane_spawn (w0 w1 : World) (pi : nat) (p p' : Player) (sub : list nat) (n : nat) :
  sane w0 -> sane w1 ->
  players w1 = players w0 -> nextPlayerId w1 = nextPlayerId w0 ->
  length (heap w1) = (length (heap w0) + n)%nat ->
  players w0 !! pi = Some p ->
  p_id p' = p_id p -> p_isBot p' = p_isBot p ->
  p_cells p' = sub ++ seq (length (heap w0)) n ->
  sub `sublist_of` p_cells p ->
  sane (set_player pi p' w1).
Proof.
  intros [_ O0 P0 _ _ N0] [H1 _ _ F1 V1 _] Hpl Hnp Hlen Hp Hid Hbot Hcells Hsub.
  split; simpl; try done.
  - rewrite Hpl, Hlen. by eapply owned_grow.
  - rewrite Hpl, Hnp. destruct P0 as [Hnd Hall]. split.
    + by erewrite ids_insert.
    + apply Forall_insert; [done|]. rewrite Hid, Hbot.
      by eapply (proj1 (Forall_lookup _ _) Hall).
  - by rewrite Hnp.
Qed.

Lemma sane_set_player (pi : nat) (p p' : Player) (w : World) :
  sane w -> players w !! pi = Some p ->
  p_id p' = p_id p -> p_isBot p' = p_isBot p ->
  p_cells p' `sublist_of` p_cells p ->
  sane (set_player pi p' w).
Proof.
  intros Hs Hp Hid Hbot Hsub.
  apply (sane_spawn w w pi p p' (p_cells p') 0);
    [done|done|done|done|lia|done|done|done|simpl; by rewrite app_nil_r|done].
Qed.

(** *** Pellets *)

Lemma sane_food_set (i : nat) (f f' : Food) (w : World) :
  sane w -> foods w !! i = Some f ->
  f_id f' = f_id f -> f_radius f' = f_radius f ->
  sane (set_foods (<[i := f']> (foods w)) w).
Proof.
  intros [H1 H2 H3 [Hnd Hall] H5 H6] Hf Hid Hrad. split; simpl; try done. split.
  - change (map f_id (<[i := f']> (foods w))) with (f_id <$> <[i := f']> (foods w)).
    rewrite list_fmap_insert, Hid, list_insert_id; [done|].
    by rewrite list_lookup_fmap, Hf.
  - apply Forall_insert; [done|]. rewrite Hid, Hrad.
    by eapply (proj1 (Forall_lookup _ _) Hall).
Qed.

Lemma sane_food_add (w w' : World) (f : Food) :
  sane w ->
  f_id f = nextFoodId w -> f_radius f = FOOD_RADIUS ->
  heap w' = heap w -> players w' = players w -> viruses w' = viruses w ->
  nextPlayerId w' = nextPlayerId w -> nextVirusId w' = nextVirusId w ->
  foods w' = foods w ++ [f] -> nextFoodId w' = N.succ (nextFoodId w) ->
  sane w'.
Proof.
  intros [H1 H2 H3 [Hnd Hall] H5 H6] Hid Hrad Hh Hp Hv Hnp Hnv Hf Hnf.
  split; rewrite ?Hh, ?Hp, ?Hv, ?Hnp, ?Hnv; try done.
  rewrite Hf, Hnf. split.
  - rewrite map_app. apply NoDup_app. split; [done|]. split; [|apply NoDup_singleton].
    intros x Hx Hin. apply list_elem_of_singleton in Hin. subst x.
    apply list_elem_of_fmap in Hx as (g & Hg & Hin).
    pose proof (proj1 (Forall_forall _ _) Hall g Hin) as [Hlt _]. simpl in Hg. lia.
  - apply Forall_app. split.
    + eapply Forall_impl; [exact Hall|]. intros g [Hlt Hr]. split; [lia|done].
    + constructor; [|done]. rewrite Hid, Hrad. split; [lia|done].
Qed.

Lemma sane_foods_sub (w : World) (fs : list Food) :
  sane w -> fs `sublist_of` foods w -> sane (set_foods fs w).
Proof.
  intros [H1 H2 H3 [Hnd Hall] H5 H6] Hsub. split; simpl; try done. split.
  - eapply sublist_NoDup; [exact Hnd|].
    change (f_id <$> fs `sublist_of` f_id <$> foods w). by apply fmap_sublist.
  - by eapply Forall_sub.
Qed.

Lemma moveFood_id (dt : R) (f : Food) :
  f_id (moveFood dt f) = f_id f /\ f_radius (moveFood dt f) = f_radius f.
Proof. unfold moveFood. by destruct (f_isEjected f). Qed.

Lemma sane_moveFoods (dt : R) (w : World) : sane w -> sane (moveFoods dt w).
Proof.
  intros [H1 H2 H3 [Hnd Hall] H5 H6]. split; simpl; try done. split.
  - rewrite map_map. erewrite map_ext; [exact Hnd|].
    intros f. apply moveFood_id.
  - clear Hnd. induction Hall as [|f fs [Hf1 Hf2] Hfs IH]; simpl; constructor; [|done].
    destruct (moveFood_id dt f) as [-> ->]. done.
Qed.

Section SanePasses.
Variable rnd : nat -> R.

Lemma sane_pushFood (w : World) : sane w -> sane (pushFood rnd w).
Proof.
  intros Hs.
  eapply (sane_food_add w (pushFood rnd w)
            (fst (createFood rnd false None None 0 0 w))); done.
Qed.

Lemma sane_refill (fuel : nat) : forall w, sane w -> sane (refill rnd fuel w).
Proof.
  induction fuel as [|fuel IH]; intros w Hs; [done|].
  cbn [refill]. destruct (length (foods w) <? FOOD_COUNT)%nat; [|done].
  by apply IH, sane_pushFood.
Qed.

Lemma sane_replenish (w : World) : sane w -> sane (replenish rnd w).
Proof.
  intros Hs. unfold replenish. apply sane_refill.
  apply sane_foods_sub; [done|]. apply sublist_filter.
Qed.

(** *** Movement and eating *)

Lemma sane_moveRef (dt : R) (p : Player) (w : World) (ref : nat) :
  sane w -> sane (moveRef dt p w ref).
Proof.
  intros Hs. unfold moveRef. destruct (heap w !! ref) as [c|] eqn:Hc; [|done].
  apply sane_store; [done|]. rewrite moveCell_radius. by eapply sane_radius.
Qed.

Lemma sane_movePlayers (dt : R) (w : World) : sane w -> sane (movePlayers dt w).
Proof.
  unfold movePlayers. apply fold_left_inv. intros a p Ha.
  unfold movePlayer. revert Ha. apply fold_left_inv. intros b ref Hb.
  by apply sane_moveRef.
Qed.

Lemma sane_eatFood (ref : nat) (w : World) (e : nat * Food) :
  sane w -> sane (eatFood ref w e).
Proof.
  intros Hs. unfold eatFood.
  destruct (foods w !! fst e) as [f|] eqn:Hf; [|done].
  destruct (heap w !! ref) as [c|] eqn:Hc; [|done].
  destruct (f_dead f); [done|]. destruct (Rltb _ _); [|done].
  apply (sane_food_set (fst e) f (set_f_dead true f)
           (store ref (set_c_radius
                         (radiusFromArea (cellAreaFromRadius (c_radius c)
                                          + cellAreaFromRadius (f_radius f))) c) w));
    [|done|done|done].
  apply sane_store; [done|]. simpl. apply grow_radius. by eapply sane_radius.
Qed.

Lemma sane_eatFoods (qtFood : QuadTree (nat * Food)) (w : World) :
  sane w -> sane (eatFoods qtFood w).
Proof.
  unfold eatFoods. apply fold_left_inv. intros a p Ha.
  revert Ha. apply fold_left_inv. intros b ref Hb.
  unfold eatFoodsCell. destruct (heap b !! ref) as [c|]; [|done].
  revert Hb. apply fold_left_inv. intros d e Hd. by apply sane_eatFood.
Qed.

Lemma sane_consume (refA refB pB : nat) (cA cB : Cell) (w : World) :
  sane w -> 5 <= c_radius cA -> sane (consume refA refB pB cA cB w).
Proof.
  intros Hs HA. unfold consume. cbv zeta.
  set (w1 := store refA _ w).
  assert (Hs1 : sane w1) by (apply sane_store; [done|]; simpl; by apply grow_radius).
  destruct (players w1 !! pB) as [playerB|] eqn:Hp; [|done].
  destruct (indexOf refB (p_cells playerB)) as [cellIndex|]; [|done].
  eapply sane_set_player; [done|exact Hp|done|done|]. simpl. apply sublist_delete.
Qed.

Lemma sane_eatCell (k : nat) (item : Item) (w : World) (other : nat * Item) :
  sane w -> sane (eatCell k item w other).
Proof.
  intros Hs. unfold eatCell. destruct (fst other =? k)%nat; [done|].
  destruct (i_player item =? i_player (snd other))%nat; [done|].
  destruct (heap w !! i_cell item) as [cA|] eqn:HA; [|done].
  destruct (heap w !! i_cell (snd other)) as [cB|]; [|done].
  destruct (Rleb _ _); [done|]. destruct (Rltb _ _); [|done].
  apply sane_consume; [done|]. by eapply sane_radius.
Qed.

Lemma sane_eatCells (w : World) : sane w -> sane (eatCells w).
Proof.
  unfold eatCells. cbv zeta. apply fold_left_inv. intros a [k item] Ha.
  unfold eatCellsItem. destruct (heap a !! i_cell item) as [cA|]; [|done].
  revert Ha. apply fold_left_inv. intros b other Hb. by apply sane_eatCell.
Qed.

(** *** Viruses *)

Lemma explodePieces_frame (cell : Cell) (pieces : Z) (pieceRadius minDistance : R)
      (l : list nat) :
  forall (w : World) (news : list nat),
    let res := fold_left (explodePiece rnd cell pieces pieceRadius minDistance)
                         l (w, news) in
    fst res = set_heap (heap (fst res)) (set_draws (draws (fst res)) w).
Proof.
  induction l as [|i l IH]; intros w news; cbv zeta; [by destruct w|].
  cbn [fold_left]. rewrite explodePiece_eq. rewrite IH at 1. done.
Qed.

Lemma sane_heap_app (w : World) (cs : list Cell) :
  sane w -> Forall (fun c => 5 <= c_radius c) cs -> sane (set_heap (heap w ++ cs) w).
Proof.
  intros [H1 [Hnd Hall] H3 H4 H5 H6] Hcs. split; simpl; try done.
  - by apply Forall_app.
  - split; [done|]. eapply Forall_impl; [exact Hall|].
    intros r Hr. simpl in *. rewrite length_app. lia.
Qed.

Lemma piece_radius (r : R) :
  VIRUS_RADIUS * 1.1 < r ->
  5 <= radiusFromArea (cellAreaFromRadius r / IZR (pieceCount (cellAreaFromRadius r))).
Proof.
  unfold VIRUS_RADIUS. intros Hr.
  pose proof (pieceCount_range (cellAreaFromRadius r)) as [Hlo Hhi].
  set (p := pieceCount (cellAreaFromRadius r)) in *.
  assert (Hp8 : 8 <= IZR p) by (by apply IZR_le in Hlo).
  assert (Hp16 : IZR p <= 16) by (by apply IZR_le in Hhi).
  unfold radiusFromArea, cellAreaFromRadius. assert (HPI := PI_RGT_0).
  replace (PI * r * r / IZR p / PI) with (r * r / IZR p) by (field; lra).
  rewrite <- (sqrt_square 5) by lra. apply sqrt_le_1_alt.
  apply (Rmult_le_reg_r (IZR p)); [lra|].
  replace (r * r / IZR p * IZR p) with (r * r) by (field; lra). nra.
Qed.

Lemma explode_frame (pi ref : nat) (w : World) :
  let w' := explodeCellIntoMany rnd pi ref w in
  foods w' = foods w /\ viruses w' = viruses w /\
  nextFoodId w' = nextFoodId w /\ nextVirusId w' = nextVirusId w /\
  nextPlayerId w' = nextPlayerId w.
Proof.
  cbv zeta. unfold explodeCellIntoMany.
  destruct (players w !! pi) as [p|]; [|done].
  destruct (heap w !! ref) as [cell|]; [|done]. cbv zeta.
  match goal with
  | |- context [fold_left ?f ?l (w, [])] =>
    pose proof (explodePieces_frame cell
                  (pieceCount (cellAreaFromRadius (c_radius cell)))
                  (radiusFromArea (cellAreaFromRadius (c_radius cell)
                                   / IZR (pieceCount (cellAreaFromRadius (c_radius cell)))))
                  (radiusFromArea (cellAreaFromRadius (c_radius cell)
                                   / IZR (pieceCount (cellAreaFromRadius (c_radius cell))))
                   * 3) l w []) as Hfr
  end.
  cbv zeta in Hfr. destruct (fold_left _ _ _) as [w1 news]. simpl in Hfr.
  assert (H : foods w1 = foods w /\ viruses w1 = viruses w /\
              nextFoodId w1 = nextFoodId w /\ nextVirusId w1 = nextVirusId w /\
              nextPlayerId w1 = nextPlayerId w) by (by rewrite Hfr).
  by destruct (players w1 !! pi).
Qed.

Lemma sane_explode (pi ref : nat) (w : World) (cell : Cell) :
  sane w -> heap w !! ref = Some cell -> VIRUS_RADIUS * 1.1 < c_radius cell ->
  sane (explodeCellIntoMany rnd pi ref w).
Proof.
  intros Hs Hc Hr. unfold explodeCellIntoMany.
  destruct (players w !! pi) as [p|] eqn:Hp; [|done]. rewrite Hc. cbv zeta.
  set (pieces := pieceCount (cellAreaFromRadius (c_radius cell))).
  set (pieceRadius := radiusFromArea (cellAreaFromRadius (c_radius cell) / IZR pieces)).
  pose proof (explodePieces_spec rnd cell pieces pieceRadius (pieceRadius * 3)
                                 (Z.to_nat pieces) 0 w []) as (cs & Hspec).
  pose proof (explodePieces_frame cell pieces pieceRadius (pieceRadius * 3)
                                  (seq 0 (Z.to_nat pieces)) w []) as Hfr.
  cbv zeta in Hspec, Hfr. destruct (fold_left _ _ _) as [w1 news].
  simpl in Hspec, Hfr. destruct Hspec as (Hlen & Hrad & Hh & Hnews & Hpl & _ & _).
  assert (Hs1 : sane w1).
  { apply (sane_same (set_heap (heap w ++ cs) w)); try (by rewrite Hfr).
    apply sane_heap_app; [done|]. eapply Forall_impl; [exact Hrad|].
    intros c ->. by apply piece_radius. }
  rewrite Hpl, Hp.
  apply (sane_spawn w w1 pi p _ (filter (fun c => c <> ref) (p_cells p))
                    (Z.to_nat pieces)); try done.
  - by rewrite Hfr.
  - rewrite Hh, length_app. lia.
  - simpl. by rewrite Hnews.
  - apply sublist_filter.
Qed.

Lemma sane_virus_set (vi : nat) (v v' : Virus) (w : World) :
  sane w -> viruses w !! vi = Some v ->
  v_id v' = v_id v -> v_radius v' = v_radius v ->
  sane (set_viruses (<[vi := v']> (viruses w)) w).
Proof.
  intros [H1 H2 H3 H4 (Hlen & Hnd & Hall) H6] Hv Hid Hrad. split; simpl; try done.
  split; [by rewrite length_insert|]. split.
  - change (map v_id (<[vi := v']> (viruses w))) with (v_id <$> <[vi := v']> (viruses w)).
    rewrite list_fmap_insert, Hid, list_insert_id; [done|].
    by rewrite list_lookup_fmap, Hv.
  - apply Forall_insert; [done|]. rewrite Hid, Hrad.
    by eapply (proj1 (Forall_lookup _ _) Hall).
Qed.

Lemma sane_hitVirus (pi ref : nat) (w : World) (vi : nat) :
  sane w -> sane (hitVirus rnd pi ref w vi).
Proof.
  intros Hs. unfold hitVirus.
  destruct (heap w !! ref) as [c|] eqn:Hc; [|done].
  destruct (viruses w !! vi) as [v|] eqn:Hv; [|done].
  destruct (Rltb _ _); [|done].
  destruct (Rgtb (c_radius c) (v_radius v * 1.1)) eqn:Hbig; [|done].
  apply Rgtb_spec in Hbig.
  assert (Hvr : v_radius v = VIRUS_RADIUS).
  { destruct Hs as [_ _ _ _ (_ & _ & Hall) _].
    by apply (proj1 (Forall_lookup _ _) Hall vi v Hv). }
  rewrite Hvr in Hbig.
  pose proof (sane_explode pi ref w c Hs Hc Hbig) as Hs1.
  destruct (explode_frame pi ref w) as (_ & Hvs & _).
  set (w1 := explodeCellIntoMany rnd pi ref w) in *.
  unfold randPos, random. cbv zeta. simpl.
  apply (sane_virus_set vi v (set_v_pos _ _ v)
                        (set_draws (S (S (draws w1))) w1));
    [by apply sane_draws|by rewrite <- Hvs in Hv|done|done].
Qed.

Lemma sane_virusPass (w : World) : sane w -> sane (virusPass rnd w).
Proof.
  unfold virusPass. apply fold_left_inv. intros a pi Ha.
  unfold virusesPlayer. destruct (players a !! pi) as [p|]; [|done].
  revert Ha. apply fold_left_inv. intros b ref Hb.
  unfold hitViruses. revert Hb. apply fold_left_inv. intros d vi Hd.
  by apply sane_hitVirus.
Qed.

End SanePasses.

(** *** Merging *)

Lemma sane_mergePair (pi i j : nat) (w : World) :
  sane w -> sane (fst (mergePair pi i j w)).
Proof.
  intros Hs. unfold mergePair.
  destruct (players w !! pi) as [p|] eqn:Hp; [|done].
  destruct (p_cells p !! i) as [ra|]; [|done].
  destruct (p_cells p !! j) as [rb|]; [|done].
  destruct (heap w !! ra) as [a|] eqn:Ha; [|done].
  destruct (heap w !! rb) as [b|]; [|done].
  destruct (_ || _); [done|]. destruct (Rltb _ _); [|done]. cbn [fst].
  eapply sane_set_player; [|exact Hp|done|done|apply sublist_delete].
  apply sane_store; [done|]. simpl. apply grow_radius. by eapply sane_radius.
Qed.

Lemma sane_mergeInner (fuel : nat) :
  forall (pi i j : nat) (w : World), sane w -> sane (mergeInner fuel pi i j w).
Proof.
  induction fuel as [|fuel IH]; intros pi i j w Hs; [done|].
  cbn [mergeInner]. destruct (j <? cellCount pi w)%nat; [|done].
  pose proof (sane_mergePair pi i j w Hs) as Hs1.
  destruct (mergePair pi i j w) as [w' j']. by apply IH.
Qed.

Lemma sane_mergeOuter (fuel : nat) :
  forall (pi i : nat) (w : World), sane w -> sane (mergeOuter fuel pi i w).
Proof.
  induction fuel as [|fuel IH]; intros pi i w Hs; [done|].
  cbn [mergeOuter]. destruct (i <? cellCount pi w)%nat; [|done].
  by apply IH, sane_mergeInner.
Qed.

Lemma sane_mergePass (w : World) : sane w -> sane (mergePass w).
Proof.
  unfold mergePass. apply fold_left_inv. intros a pi Ha.
  unfold mergePlayer. destruct (cellCount pi a <=? 1)%nat; [done|].
  by apply sane_mergeOuter.
Qed.

(** *** The tick *)

Lemma thinkBots_none (rnd : nat -> R) (w : World) :
  Forall (fun p => p_isBot p = false) (players w) -> thinkBots rnd w = w.
Proof.
  intros Hall. unfold thinkBots. apply fold_left_fixed. intros pi _.
  destruct (players w !! pi) as [p|] eqn:Hp; [|done].
  by rewrite (proj1 (Forall_lookup _ _) Hall pi p Hp).
Qed.

Lemma sane_no_bots (w : World) :
  sane w -> Forall (fun p => p_isBot p = false) (players w).
Proof.
  intros [_ _ [_ Hall] _ _ _]. eapply Forall_impl; [exact Hall|]. by intros p [_ ?].
Qed.

Lemma sane_update (rnd : nat -> R) (dt : R) (w : World) :
  sane w -> sane (update rnd dt w).
Proof.
  intros Hs. unfold update. cbv zeta.
  rewrite (thinkBots_none rnd w) by (by apply sane_no_bots).
  apply sane_mergePass, sane_virusPass, sane_eatCells, sane_replenish, sane_eatFoods.
  by apply sane_movePlayers, sane_moveFoods.
Qed.

(** *** Messages, connections and the start *)

Lemma splitCells_alloc (dx dy len : R) (refs : list nat) :
  forall acc : World * list nat,
    let res := fold_left (fun acc ref => splitCell dx dy len ref acc) refs acc in
    snd res = snd acc ++ seq (length (heap (fst acc)))
                             (length (heap (fst res)) - length (heap (fst acc))) /\
    (Forall (fun c => 5 <= c_radius c) (heap (fst acc)) ->
     Forall (fun c => 5 <= c_radius c) (heap (fst res))).
Proof.
  induction refs as [|ref refs IH]; intros [w news]; cbv zeta.
  - simpl. rewrite Nat.sub_diag. simpl. by rewrite app_nil_r.
  - cbn [fold_left].
    destruct (splitCells_frame dx dy len refs (splitCell dx dy len ref (w, news)))
      as (_ & Hl2 & _).
    specialize (IH (splitCell dx dy len ref (w, news))). cbv zeta in IH.
    destruct IH as [Hnews Hrad].
    destruct (heap w !! ref) as [cell|] eqn:Hc.
    + destruct (Rlt_le_dec (c_radius cell) 10) as [Hs|Hb].
      * rewrite (splitCell_small _ _ _ _ (w, news) cell Hc Hs) in *. done.
      * rewrite (splitCell_big _ _ _ _ _ _ _ Hc Hb) in *.
        set (c1 := mkCell _ _ _ (c_vx cell) _ _) in *.
        set (c2 := mkCell _ _ _ (dx / len * SPLIT_SPEED) _ _) in *.
        set (res := fold_left _ refs _) in *.
        cbn [fst snd heap set_heap] in Hnews, Hl2, Hrad. cbn [fst snd].
        rewrite length_app, length_insert in Hnews, Hl2. simpl in Hnews, Hl2.
        split.
        -- rewrite Hnews, <- app_assoc. f_equal.
           replace (length (heap (fst res)) - length (heap w))%nat
             with (S (length (heap (fst res)) - (length (heap w) + 1)))%nat by lia.
           simpl. by rewrite Nat.add_1_r.
        -- intros Hall. apply Hrad. apply Forall_app. split.
           ++ apply Forall_insert; [done|]. subst c1. simpl.
              pose proof (proj1 (Forall_lookup _ _) Hall ref cell Hc). simpl in *. lra.
           ++ constructor; [subst c2; simpl; lra|done].
    + assert (Hsame : splitCell dx dy len ref (w, news) = (w, news))
        by (unfold splitCell; by rewrite Hc).
      rewrite Hsame in *. done.
Qed.

Lemma sane_heap_grow (w : World) (h : list Cell) :
  sane w -> (length (heap w) <= length h)%nat ->
  Forall (fun c => 5 <= c_radius c) h -> sane (set_heap h w).
Proof.
  intros [H1 [Hnd Hall] H3 H4 H5 H6] Hlen Hh. split; simpl; try done.
  split; [done|]. eapply Forall_impl; [exact Hall|]. intros r Hr. simpl in *. lia.
Qed.

Lemma sane_splitPlayer (pi : nat) (w : World) : sane w -> sane (splitPlayer pi w).
Proof.
  intros Hs. unfold splitPlayer. destruct (players w !! pi) as [p|] eqn:Hp; [|done].
  destruct (p_inputDir p) as [dx dy].
  pose proof (splitCells_frame dx dy (or_one (hypot dx dy)) (p_cells p) (w, [])) as Hfr.
  pose proof (splitCells_alloc dx dy (or_one (hypot dx dy)) (p_cells p) (w, [])) as Hal.
  cbv zeta in Hfr, Hal. destruct (fold_left _ _ _) as [w1 news].
  cbn [fst snd] in Hfr, Hal. destruct Hfr as (Hf & Hl & _). destruct Hal as [Hnews Hrad].
  assert (Hs1 : sane w1).
  { rewrite Hf. apply sane_heap_grow; [done|done|]. apply Hrad. by destruct Hs. }
  destruct (0 <? length news)%nat; [|done].
  apply (sane_spawn w w1 pi p _ (p_cells p) (length (heap w1) - length (heap w)));
    try done.
  - by rewrite Hf.
  - by rewrite Hf.
  - lia.
  - simpl. by rewrite Hnews.
Qed.

Section SaneEvents.
Variable rnd : nat -> R.

Lemma sane_ejectCell (dx dy len : R) (w : World) (ref : nat) :
  sane w -> sane (ejectCell rnd dx dy len w ref).
Proof.
  intros Hs. destruct (heap w !! ref) as [cell|] eqn:Hc.
  - destruct (Rlt_le_dec (c_radius cell) 35) as [Hsmall|Hbig].
    + unfold ejectCell. by rewrite Hc, Rltb_true.
    + rewrite (ejectCell_big rnd dx dy len w ref cell Hc Hbig).
      set (c1 := set_c_radius _ cell).
      assert (Hs1 : sane (store ref c1 w)).
      { apply sane_store; [done|]. subst c1. simpl.
        rewrite <- (sqrt_square 5) by lra. apply sqrt_le_1_alt. nra. }
      match goal with
      | |- sane (set_foods (_ ++ [?f]) _) =>
        apply (sane_food_add (store ref c1 w) _ f)
      end; [exact Hs1|done..].
  - unfold ejectCell. by rewrite Hc.
Qed.

Lemma sane_ejectMass (pi : nat) (w : World) : sane w -> sane (ejectMass rnd pi w).
Proof.
  intros Hs. unfold ejectMass. destruct (players w !! pi) as [p|]; [|done].
  destruct (p_inputDir p) as [dx dy]. destruct (Reqb _ _); [done|].
  revert Hs. apply fold_left_inv. intros a ref Ha. by apply sane_ejectCell.
Qed.

Lemma sane_handleMessage (id : option N) (msg : Msg) (w : World) :
  sane w -> sane (handleMessage rnd id msg w).
Proof.
  intros Hs. unfold handleMessage. destruct id as [id|]; [|done].
  destruct (id =? 0)%N; [done|].
  destruct (players_index id (players w)) as [pi|]; [|done].
  destruct (players w !! pi) as [player|] eqn:Hp; [|done].
  destruct msg as [name skin color|dir| | |].
  - match goal with |- sane (set_player pi ?q w) => set (player' := q) end.
    assert (Hk : p_id player' = p_id player /\ p_isBot player' = p_isBot player /\
                 p_cells player' = p_cells player).
    { subst player'.
      destruct name as [n|], skin, color; try destruct (0 <? String.length n)%nat; done. }
    destruct Hk as (Hk1 & Hk2 & Hk3).
    eapply sane_set_player; [done|exact Hp|done|done|by rewrite Hk3].
  - destruct dir as [[|d0 [|d1 [|? ?]]]|]; try done.
    match goal with |- sane (set_player pi ?q w) => set (player' := q) end.
    assert (Hk : p_id player' = p_id player /\ p_isBot player' = p_isBot player /\
                 p_cells player' = p_cells player).
    { subst player'. destruct (Rgtb _ _); [|done]. simpl.
      destruct (p_cells player) as [|r0 l] eqn:Hcells; [by rewrite ?Hcells|].
      destruct (heap w !! r0); simpl; by rewrite ?Hcells. }
    destruct Hk as (Hk1 & Hk2 & Hk3).
    eapply sane_set_player; [done|exact Hp|done|done|by rewrite Hk3].
  - by apply sane_splitPlayer.
  - by apply sane_ejectMass.
  - done.
Qed.

Lemma ownedRefs_filter (P : Player -> Prop) `{forall p, Decision (P p)}
      (ps : list Player) :
  ownedRefs (filter P ps) `sublist_of` ownedRefs ps.
Proof.
  induction ps as [|p ps IH]; [done|].
  rewrite ownedRefs_cons. destruct (decide (P p)).
  - rewrite filter_cons_True by done. rewrite ownedRefs_cons. by apply sublist_app.
  - rewrite filter_cons_False by done. by apply sublist_inserts_l.
Qed.

Lemma sane_close (id : N) (w : World) : sane w -> sane (close id w).
Proof.
  intros [H1 [Hnd Hall] [Hids Hps] H4 H5 H6]. split; simpl; try done.
  - unfold players_delete. split.
    + eapply sublist_NoDup; [exact Hnd|]. apply ownedRefs_filter.
    + eapply Forall_sub; [|exact Hall]. apply ownedRefs_filter.
  - unfold players_delete. split.
    + eapply sublist_NoDup; [exact Hids|].
      change (p_id <$> filter (fun p => p_id p <> id) (players w)
              `sublist_of` p_id <$> players w).
      apply fmap_sublist, sublist_filter.
    + eapply Forall_sub; [|exact Hps]. apply sublist_filter.
Qed.

Lemma connect_spec (w : World) :
  sane w ->
  connect rnd w
  = mkWorld
      (players w ++
       [mkPlayer (nextPlayerId w) ("Player " ++ pretty (nextPlayerId w)) (-1)
                 [rnd (draws w); rnd (S (draws w)); rnd (S (S (draws w)))]
                 false [length (heap w)] (0, 0) 0 0 false])
      (heap w ++
       [mkCell ((rnd (S (S (S (draws w)))) - 0.5) * WORLD_SIZE)
               ((rnd (S (S (S (S (draws w))))) - 0.5) * WORLD_SIZE)
               40 0 0 MERGE_TIME])
      (foods w) (viruses w) (N.succ (nextPlayerId w)) (nextFoodId w)
      (nextVirusId w) (nextBotId w) (S (S (S (S (S (draws w)))))).
Proof.
  intros [_ _ [_ Hps] _ _ _].
  unfold connect, createPlayer, firstCell, randPos, random, alloc. simpl.
  unfold players_set. rewrite players_index_none; [done|].
  intros p Hin Hid.
  pose proof (proj1 (Forall_forall _ _) Hps p Hin) as [Hr _]. simpl in Hr. lia.
Qed.

Lemma sane_connect (w : World) : sane w -> sane (connect rnd w).
Proof.
  intros Hs. rewrite connect_spec by done.
  destruct Hs as [H1 [Hnd Hall] [Hids Hps] H4 H5 H6]. split; simpl; try done.
  - apply Forall_app. split; [done|]. constructor; [simpl; lra|done].
  - rewrite ownedRefs_app. unfold ownedRefs at 2 4. simpl. split.
    + apply NoDup_app. split; [done|]. split; [|apply NoDup_singleton].
      intros x Hx Hin. apply list_elem_of_singleton in Hin. subst x.
      pose proof (proj1 (Forall_forall _ _) Hall _ Hx) as Hlt. simpl in Hlt. lia.
    + rewrite length_app. simpl. apply Forall_app. split.
      * eapply Forall_impl; [exact Hall|]. intros r Hr. simpl in *. lia.
      * constructor; [lia|done].
  - split.
    + rewrite map_app. simpl. apply NoDup_app. split; [done|].
      split; [|apply NoDup_singleton].
      intros x Hx Hin. apply list_elem_of_singleton in Hin. subst x.
      apply list_elem_of_fmap in Hx as (p & Hp & Hin).
      pose proof (proj1 (Forall_forall _ _) Hps p Hin) as [Hr _]. simpl in Hr. lia.
    + apply Forall_app. split.
      * eapply Forall_impl; [exact Hps|]. intros p [Hr Hb]. split; [lia|done].
      * constructor; [|done]. simpl. split; [|done].
        lia.
  - lia.
Qed.

End SaneEvents.

Section SaneRun.
Variable rnd : nat -> R.

Lemma pushFood_keeps (w : World) :
  let w' := pushFood rnd w in
  heap w' = heap w /\ players w' = players w /\ viruses w' = viruses w /\
  nextPlayerId w' = nextPlayerId w /\ nextVirusId w' = nextVirusId w /\
  (NoDup (map f_id (foods w)) /\
   Forall (fun f => (f_id f < nextFoodId w)%N /\ f_radius f = FOOD_RADIUS) (foods w) ->
   NoDup (map f_id (foods w')) /\
   Forall (fun f => (f_id f < nextFoodId w')%N /\ f_radius f = FOOD_RADIUS) (foods w')).
Proof.
  cbv zeta. unfold pushFood, createFood, randPos, random. simpl.
  repeat (split; [done|]). intros [Hnd Hall]. split.
  - rewrite map_app. apply NoDup_app. split; [done|]. split; [|apply NoDup_singleton].
    intros x Hx Hin. apply list_elem_of_singleton in Hin. subst x.
    apply list_elem_of_fmap in Hx as (g & Hg & Hin).
    pose proof (proj1 (Forall_forall _ _) Hall g Hin) as [Hlt _]. simpl in Hg. lia.
  - apply Forall_app. split.
    + eapply Forall_impl; [exact Hall|]. intros g [Hlt Hr]. split; [lia|done].
    + constructor; [|done]. simpl. split; [lia|done].
Qed.

Lemma pushVirus_keeps (w : World) :
  let w' := pushVirus rnd w in
  heap w' = heap w /\ players w' = players w /\ foods w' = foods w /\
  nextPlayerId w' = nextPlayerId w /\ nextFoodId w' = nextFoodId w /\
  length (viruses w') = S (length (viruses w)) /\
  (NoDup (map v_id (viruses w)) /\
   Forall (fun v => (v_id v < nextVirusId w)%N /\ v_radius v = VIRUS_RADIUS) (viruses w) ->
   NoDup (map v_id (viruses w')) /\
   Forall (fun v => (v_id v < nextVirusId w')%N /\ v_radius v = VIRUS_RADIUS)
          (viruses w')).
Proof.
  cbv zeta. unfold pushVirus, createVirus, randPos, random. simpl.
  repeat (split; [done|]). split; [rewrite length_app; simpl; lia|].
  intros [Hnd Hall]. split.
  - rewrite map_app. apply NoDup_app. split; [done|]. split; [|apply NoDup_singleton].
    intros x Hx Hin. apply list_elem_of_singleton in Hin. subst x.
    apply list_elem_of_fmap in Hx as (g & Hg & Hin).
    pose proof (proj1 (Forall_forall _ _) Hall g Hin) as [Hlt _]. simpl in Hg. lia.
  - apply Forall_app. split.
    + eapply Forall_impl; [exact Hall|]. intros g [Hlt Hr]. split; [lia|done].
    + constructor; [|done]. simpl. split; [lia|done].
Qed.

Lemma iter_pushFood_keeps (n : nat) (w : World) :
  let w' := Nat.iter n (pushFood rnd) w in
  heap w' = heap w /\ players w' = players w /\ viruses w' = viruses w /\
  nextPlayerId w' = nextPlayerId w /\ nextVirusId w' = nextVirusId w /\
  (NoDup (map f_id (foods w)) /\
   Forall (fun f => (f_id f < nextFoodId w)%N /\ f_radius f = FOOD_RADIUS) (foods w) ->
   NoDup (map f_id (foods w')) /\
   Forall (fun f => (f_id f < nextFoodId w')%N /\ f_radius f = FOOD_RADIUS) (foods w')).
Proof.
  induction n as [|n IH]; [done|]. cbv zeta in *. rewrite Nat.iter_succ.
  destruct IH as (I1 & I2 & I3 & I4 & I5 & I6).
  destruct (pushFood_keeps (Nat.iter n (pushFood rnd) w))
    as (J1 & J2 & J3 & J4 & J5 & J6).
  rewrite J1, J2, J3, J4, J5. repeat (split; [done|]). intros H. by apply J6, I6.
Qed.

Lemma iter_pushVirus_keeps (n : nat) (w : World) :
  let w' := Nat.iter n (pushVirus rnd) w in
  heap w' = heap w /\ players w' = players w /\ foods w' = foods w /\
  nextPlayerId w' = nextPlayerId w /\ nextFoodId w' = nextFoodId w /\
  length (viruses w') = (n + length (viruses w))%nat /\
  (NoDup (map v_id (viruses w)) /\
   Forall (fun v => (v_id v < nextVirusId w)%N /\ v_radius v = VIRUS_RADIUS) (viruses w) ->
   NoDup (map v_id (viruses w')) /\
   Forall (fun v => (v_id v < nextVirusId w')%N /\ v_radius v = VIRUS_RADIUS)
          (viruses w')).
Proof.
  induction n as [|n IH]; [done|]. cbv zeta in *. rewrite Nat.iter_succ.
  destruct IH as (I1 & I2 & I3 & I4 & I5 & I6 & I7).
  destruct (pushVirus_keeps (Nat.iter n (pushVirus rnd) w))
    as (J1 & J2 & J3 & J4 & J5 & J6 & J7).
  rewrite J1, J2, J3, J4, J5, J6, I6. do 5 (split; [done|]).
  split; [lia|]. intros H. by apply J7, I7.
Qed.

Lemma sane_boot : sane (boot rnd).
Proof.
  unfold boot, initWorld.
  set (w0 := set_viruses [] (set_foods [] emptyWorld)).
  destruct (iter_pushFood_keeps FOOD_COUNT w0) as (F1 & F2 & F3 & F4 & F5 & F6).
  destruct (iter_pushVirus_keeps VIRUS_COUNT (Nat.iter FOOD_COUNT (pushFood rnd) w0))
    as (V1 & V2 & V3 & V4 & V5 & V6 & V7).
  cbv zeta in *.
  set (w1 := Nat.iter FOOD_COUNT (pushFood rnd) w0) in *.
  set (w2 := Nat.iter VIRUS_COUNT (pushVirus rnd) w1) in *.
  clearbody w1 w2.
  assert (Hfoods : NoDup (map f_id (foods w1)) /\
                   Forall (fun f => (f_id f < nextFoodId w1)%N
                                    /\ f_radius f = FOOD_RADIUS) (foods w1)).
  { apply F6. split; [apply NoDup_nil_2|apply Forall_nil_2]. }
  assert (Hvir : NoDup (map v_id (viruses w2)) /\
                 Forall (fun v => (v_id v < nextVirusId w2)%N
                                  /\ v_radius v = VIRUS_RADIUS) (viruses w2)).
  { apply V7. rewrite F3. split; [apply NoDup_nil_2|apply Forall_nil_2]. }
  split.
  - rewrite V1, F1. apply Forall_nil_2.
  - rewrite V2, F2. split; [apply NoDup_nil_2|apply Forall_nil_2].
  - rewrite V2, F2. split; [apply NoDup_nil_2|apply Forall_nil_2].
  - by rewrite V3, V5.
  - split; [|done]. rewrite V6, F3. unfold w0. simpl length. apply Nat.add_0_r.
  - rewrite V4, F4. done.
Qed.

Lemma serve_sane (w : World) (e : ServerEvent) : sane w -> sane (serve rnd w e).
Proof.
  intros Hs. destruct e as [|id|id msg|dt]; unfold serve.
  - by apply sane_connect.
  - by apply sane_close.
  - by apply sane_handleMessage.
  - by apply sane_update.
Qed.

(** Every state the server reaches is [sane]. *)
Lemma serveAll_sane (events : list ServerEvent) :
  sane (serveAll rnd events (boot rnd)).
Proof.
  unfold serveAll. apply fold_left_inv; [|apply sane_boot].
  intros a e. apply serve_sane.
Qed.

(** X15. At every state the server reaches, every cell object has a
    radius of at least 5: cells start at 40, only cells of radius 10 or
    more split, a cell that ejects keeps more than radius 27, the
    fragments of an explosion come from a cell larger than 66, and eating
    and merging only grow a cell. So no area is zero and no size factor
    of the movement divides by zero. *)
Theorem X15_cells_never_tiny (events : list ServerEvent) :
  Forall (fun c => 5 <= c_radius c /\
                   0 < cellAreaFromRadius (c_radius c) /\
                   0 < sqrt (c_radius c / 40))
         (heap (serveAll rnd events (boot rnd))).
Proof.
  destruct (serveAll_sane events) as [Hcells _ _ _ _ _].
  eapply Forall_impl; [exact Hcells|]. intros c Hr. simpl in Hr.
  split; [done|]. split.
  - unfold cellAreaFromRadius. assert (HPI := PI_RGT_0).
    rewrite Rmult_assoc. apply Rmult_lt_0_compat; [done|nra].
  - apply sqrt_lt_R0. lra.
Qed.

(** X16. At every state the server reaches, no cell belongs to two
    players or twice to one player, and every cell of a player is a live
    object of the store. *)
Theorem X16_exclusive_ownership (events : list ServerEvent) :
  let w := serveAll rnd events (boot rnd) in
  NoDup (ownedRefs (players w)) /\
  (forall pi p, players w !! pi = Some p -> NoDup (p_cells p)) /\
  (forall pi qi p q r,
      players w !! pi = Some p -> players w !! qi = Some q ->
      r ∈ p_cells p -> r ∈ p_cells q -> pi = qi) /\
  (forall pi p r, players w !! pi = Some p -> r ∈ p_cells p ->
                  exists c, heap w !! r = Some c).
Proof.
  intros w. destruct (serveAll_sane events) as [_ [Hnd Hall] _ _ _ _]. fold w in Hnd, Hall.
  split; [done|]. split; [|split].
  - intros pi p Hp. destruct (ownedRefs_split _ _ _ p Hp) as [Hold _].
    rewrite Hold in Hnd. apply NoDup_app in Hnd as (_ & _ & Hnd).
    by apply NoDup_app in Hnd as (Hnd & _ & _).
  - intros pi qi p q r Hp Hq Hrp Hrq.
    destruct (Nat.lt_total pi qi) as [Hlt|[Heq|Hgt]]; [exfalso|done|exfalso].
    + eapply (owned_disjoint (players w) pi qi p q r); done.
    + eapply (owned_disjoint (players w) qi pi q p r); done.
  - intros pi p r Hp Hr. apply lookup_lt_is_Some_2.
    apply (proj1 (Forall_forall _ _) Hall r). by eapply owned_elem.
Qed.

(** X17. At every state the server reaches, the players have distinct
    ids between 1 and [nextPlayerId], so that a connection adds a player
    at the end of the map and replaces nobody, and [handleMessage] never
    takes a player's id for a missing one; and since nothing calls
    [spawnBots()], no player is a bot and the bot pass of a tick does
    nothing. *)
Theorem X17_players (events : list ServerEvent) :
  let w := serveAll rnd events (boot rnd) in
  NoDup (map p_id (players w)) /\
  (forall p, p ∈ players w -> (0 < p_id p < nextPlayerId w)%N /\ p_isBot p = false) /\
  thinkBots rnd w = w /\
  (exists p c,
      players (connect rnd w) = players w ++ [p] /\
      heap (connect rnd w) = heap w ++ [c] /\
      p_id p = nextPlayerId w /\ p_cells p = [length (heap w)] /\
      c_radius c = 40 /\ c_mergeTimer c = MERGE_TIME /\
      p_name p = ("Player " ++ pretty (nextPlayerId w))%string /\
      nextPlayerId (connect rnd w) = N.succ (nextPlayerId w)) /\
  (forall id, players (close id w) = filter (fun p => p_id p <> id) (players w) /\
              forall p, p ∈ players (close id w) -> p_id p <> id).
Proof.
  intros w. pose proof (serveAll_sane events) as Hs. fold w in Hs.
  split; [by destruct Hs as [_ _ [? _] _ _ _]|]. split; [|split; [|split]].
  - destruct Hs as [_ _ [_ Hall] _ _ _]. by apply Forall_forall.
  - by apply thinkBots_none, sane_no_bots.
  - rewrite (connect_spec rnd w Hs). simpl. by do 2 eexists.
  - intros id. split; [done|]. intros p Hin. unfold close in Hin. simpl in Hin.
    unfold players_delete in Hin. by apply list_elem_of_filter in Hin as [? _].
Qed.

(** X18. At every state the server reaches, the pellets have distinct
    ids below [nextFoodId] and the radius [FOOD_RADIUS], and there are
    exactly [VIRUS_COUNT] viruses, with distinct ids and the radius
    [VIRUS_RADIUS]: a virus that is hit is moved, never removed or
    resized. *)
Theorem X18_pellets_and_viruses (events : list ServerEvent) :
  let w := serveAll rnd events (boot rnd) in
  NoDup (map f_id (foods w)) /\
  (forall f, f ∈ foods w -> (f_id f < nextFoodId w)%N /\ f_radius f = FOOD_RADIUS) /\
  length (viruses w) = VIRUS_COUNT /\
  NoDup (map v_id (viruses w)) /\
  (forall v, v ∈ viruses w -> v_radius v = VIRUS_RADIUS).
Proof.
  intros w. destruct (serveAll_sane events) as [_ _ _ [Hf1 Hf2] (Hv1 & Hv2 & Hv3) _].
  fold w in Hf1, Hf2, Hv1, Hv2, Hv3.
  split; [done|]. split; [by apply Forall_forall|]. split; [done|]. split; [done|].
  intros v Hin. by apply (proj1 (Forall_forall _ _) Hv3 v Hin).
Qed.

End SaneRun.


(** ** Where the area goes *)

Lemma total_insert {A} (f : A -> R) (l : list A) (i : nat) (x y : A) :
  l !! i = Some x -> total f (<[i := y]> l) = total f l - f x + f y.
Proof.
  revert i. induction l as [|z l IH]; intros [|i] Hi; try done.
  - injection Hi as ->. simpl. lra.
  - simpl in *. rewrite (IH i Hi). lra.
Qed.

Lemma eatFood_mass (ref : nat) (w : World) (e : nat * Food) :
  heapArea (eatFood ref w e) + liveFoodArea (eatFood ref w e)
  = heapArea w + liveFoodArea w.
Proof.
  unfold eatFood.
  destruct (foods w !! fst e) as [f|] eqn:Hf; [|done].
  destruct (heap w !! ref) as [c|] eqn:Hc; [|done].
  destruct (f_dead f) eqn:Hd; [done|]. destruct (Rltb _ _); [|done].
  unfold heapArea, liveFoodArea. simpl.
  rewrite (total_insert _ _ _ _ _ Hc), (total_insert _ _ _ _ _ Hf). simpl.
  rewrite Hd, area_sum. lra.
Qed.

(** X19. The food pass moves area from pellets to cells and neither
    loses nor creates any: the area of all cells plus the area of the
    pellets not yet eaten is the same after the pass as before, whatever
    the index returns (a pellet is eaten at most once, since an eaten one
    is skipped). *)
Theorem X19_food_pass_mass (qtFood : QuadTree (nat * Food)) (w : World) :
  heapArea (eatFoods qtFood w) + liveFoodArea (eatFoods qtFood w)
  = heapArea w + liveFoodArea w.
Proof.
  unfold eatFoods.
  apply (fold_left_inv (fun a => heapArea a + liveFoodArea a
                                 = heapArea w + liveFoodArea w)); [|done].
  intros a p Ha.
  apply (fold_left_inv (fun b => heapArea b + liveFoodArea b
                                 = heapArea w + liveFoodArea w)); [|done].
  intros b ref Hb. unfold eatFoodsCell. destruct (heap b !! ref) as [c|]; [|done].
  apply (fold_left_inv (fun d => heapArea d + liveFoodArea d
                                 = heapArea w + liveFoodArea w)); [|done].
  intros d e Hd. by rewrite eatFood_mass.
Qed.

(** ** Ejected pellets *)

Lemma moveFood_iter (dt : R) (f : Food) (n : nat) :
  f_isEjected f = true ->
  let g := Nat.iter n (moveFood dt) f in
  f_isEjected g = true /\
  f_vx g = f_vx f * 0.85 ^ n /\ f_vy g = f_vy f * 0.85 ^ n /\
  f_x g = f_x f + f_vx f * dt * ((1 - 0.85 ^ n) / 0.15) /\
  f_y g = f_y f + f_vy f * dt * ((1 - 0.85 ^ n) / 0.15) /\
  f_id g = f_id f /\ f_radius g = f_radius f /\ f_dead g = f_dead f.
Proof.
  intros He. induction n as [|n IH]; cbv zeta in *.
  - simpl. repeat split; try done; lra.
  - rewrite Nat.iter_succ. destruct IH as (I1 & I2 & I3 & I4 & I5 & I6 & I7 & I8).
    generalize dependent (Nat.iter n (moveFood dt) f).
    intros g I1 I2 I3 I4 I5 I6 I7 I8.
    unfold moveFood. rewrite I1. cbn [f_isEjected f_vx f_vy f_x f_y f_id f_radius f_dead
                                      set_f_motion].
    rewrite I2, I3, I4, I5. cbn [pow].
    generalize (0.85 ^ n). intros q.
    replace 0.15 with (3 / 20) by lra. replace 0.85 with (17 / 20) by lra.
    repeat split; try done; field.
Qed.

(** X21. The motion of pellets in a tick. A pellet that was not ejected
    never moves. An ejected pellet keeps flying along its first
    direction, 0.85 times as fast after every tick: after [n] ticks of
    length [dt] its velocity is [0.85^n] times the first one and it has
    travelled [dt * (1 - 0.85^n) / 0.15] times the first velocity, which
    stays below [dt / 0.15] times that velocity however long it flies.
    The motion changes neither the id, the radius nor the flags of a
    pellet. *)
Theorem X21_pellet_motion (dt : R) (f : Food) (n : nat) :
  let g := Nat.iter n (moveFood dt) f in
  (f_isEjected f = false -> g = f) /\
  (f_isEjected f = true ->
   f_vx g = f_vx f * 0.85 ^ n /\ f_vy g = f_vy f * 0.85 ^ n /\
   f_x g = f_x f + f_vx f * dt * ((1 - 0.85 ^ n) / 0.15) /\
   f_y g = f_y f + f_vy f * dt * ((1 - 0.85 ^ n) / 0.15) /\
   0 <= (1 - 0.85 ^ n) / 0.15 < 1 / 0.15) /\
  f_id g = f_id f /\ f_radius g = f_radius f /\ f_dead g = f_dead f /\
  f_isEjected g = f_isEjected f.
Proof.
  cbv zeta. destruct (f_isEjected f) eqn:He.
  - destruct (moveFood_iter dt f n He) as (I1 & I2 & I3 & I4 & I5 & I6 & I7 & I8).
    cbv zeta in *. split; [done|]. split; [|done].
    intros _. repeat (split; [done|]).
    assert (Hpow : 0 < 0.85 ^ n <= 1).
    { split; [apply pow_lt; lra|].
      rewrite <- (pow1 n). apply pow_incr. lra. }
    split.
    + apply Rmult_le_pos; [lra|]. left. apply Rinv_0_lt_compat. lra.
    + unfold Rdiv. apply Rmult_lt_compat_r; [apply Rinv_0_lt_compat; lra|lra].
  - assert (Hfix : Nat.iter n (moveFood dt) f = f).
    { induction n as [|n IH]; [done|]. rewrite Nat.iter_succ, IH.
      unfold moveFood. by rewrite He. }
    rewrite Hfix. split; [done|]. split; [done|]. done.
Qed.

(** ** The merge pass and the players' areas *)

Lemma cellsArea_store_notin (ra : nat) (c : Cell) (w : World) (l : list nat) :
  ra ∉ l -> cellsArea (store ra c w) l = cellsArea w l.
Proof.
  induction l as [|r l IH]; intros Hnot; [done|].
  apply not_elem_of_cons in Hnot as [Hne Hnot]. simpl.
  rewrite list_lookup_insert_ne by done. by rewrite <- IH.
Qed.

Lemma cellsArea_store_in (ra : nat) (a a' : Cell) (w : World) (l : list nat) :
  NoDup l -> ra ∈ l -> heap w !! ra = Some a ->
  cellsArea (store ra a' w) l
  = cellsArea w l - cellAreaFromRadius (c_radius a) + cellAreaFromRadius (c_radius a').
Proof.
  intros Hnd Hin Ha. pose proof (lookup_lt_Some _ _ _ Ha) as Hlt.
  induction Hnd as [|r l Hr Hnd IH]; [by apply elem_of_nil in Hin|].
  apply elem_of_cons in Hin as [<-|Hin].
  - rewrite (cellsArea_cons _ ra l a') by (by apply list_lookup_insert_eq).
    rewrite (cellsArea_cons w ra l a Ha).
    rewrite cellsArea_store_notin by done. lra.
  - assert (Hne : ra <> r) by (by intros ->).
    simpl. rewrite list_lookup_insert_ne by done.
    change (foldr _ 0 l) with (cellsArea (store ra a' w) l).
    rewrite (IH Hin). change (foldr _ 0 l) with (cellsArea w l).
    destruct (heap w !! r); lra.
Qed.

Lemma cellsArea_delete (w : World) (l : list nat) (j rb : nat) (b : Cell) :
  l !! j = Some rb -> heap w !! rb = Some b ->
  cellsArea w (delete j l) = cellsArea w l - cellAreaFromRadius (c_radius b).
Proof.
  intros Hj Hb. revert j Hj. induction l as [|r l IH]; intros [|j] Hj; try done.
  - injection Hj as ->. simpl. rewrite Hb. lra.
  - simpl in *. change (foldr _ 0 (delete j l)) with (cellsArea w (delete j l)).
    rewrite (IH j Hj). change (foldr _ 0 l) with (cellsArea w l).
    destruct (heap w !! r); lra.
Qed.

Lemma owned_cells_NoDup (w : World) (pi : nat) (p : Player) :
  owned w -> players w !! pi = Some p -> NoDup (p_cells p).
Proof.
  intros [Hnd _] Hp. destruct (ownedRefs_split _ _ _ p Hp) as [Hold _].
  rewrite Hold in Hnd. apply NoDup_app in Hnd as (_ & _ & Hnd).
  by apply NoDup_app in Hnd as (Hnd & _ & _).
Qed.

Lemma owned_other (w : World) (pi qi : nat) (p q : Player) (r : nat) :
  owned w -> players w !! pi = Some p -> players w !! qi = Some q ->
  pi <> qi -> r ∈ p_cells p -> r ∉ p_cells q.
Proof.
  intros [Hnd _] Hp Hq Hne Hr Hrq.
  destruct (Nat.lt_total pi qi) as [Hlt|[Heq|Hgt]]; [|done|].
  - by apply (owned_disjoint (players w) pi qi p q r).
  - by apply (owned_disjoint (players w) qi pi q p r).
Qed.

Lemma mergePair_area (pi i j : nat) (w : World) :
  owned w -> (i < j)%nat ->
  owned (fst (mergePair pi i j w)) /\
  (i < snd (mergePair pi i j w))%nat /\
  forall qi, playerArea qi (fst (mergePair pi i j w)) = playerArea qi w.
Proof.
  intros Ho Hij.
  destruct (mergePair_cases pi i j w)
    as [->|(p & ra & rb & a & b & Hp & Hi & Hj & Ha & Hb & _ & _ & ->)].
  { simpl. split; [done|]. split; [lia|done]. }
  cbn [fst snd].
  set (a' := set_c_radius _ a).
  pose proof (owned_cells_NoDup w pi p Ho Hp) as Hnd.
  assert (Hne : ra <> rb).
  { intros ->. pose proof (NoDup_lookup _ _ _ _ Hnd Hi Hj). lia. }
  assert (Hin : ra ∈ p_cells p) by (by eapply list_elem_of_lookup_2).
  split; [|split; [done|]].
  - destruct Ho as [Hnd' Hall]. unfold owned. simpl. rewrite length_insert.
    replace (length (heap w)) with (length (heap w) + 0)%nat by lia.
    apply (owned_grow (players w) pi p _ (delete j (p_cells p)) (length (heap w)) 0);
      [done|simpl; by rewrite app_nil_r|apply sublist_delete|done].
  - intros qi. unfold playerArea. destruct (decide (qi = pi)) as [->|Hq].
    + rewrite Hp. erewrite players_set_player_eq by (by rewrite players_store).
      simpl p_cells.
      change (cellsArea (set_player pi (set_p_cells (delete j (p_cells p)) p)
                                    (store ra a' w)) (delete j (p_cells p)))
        with (cellsArea (store ra a' w) (delete j (p_cells p))).
      rewrite (cellsArea_delete (store ra a' w) (p_cells p) j rb b Hj)
        by (simpl; by rewrite list_lookup_insert_ne).
      rewrite (cellsArea_store_in ra a a' w (p_cells p) Hnd Hin Ha).
      subst a'. simpl. rewrite area_sum. lra.
    + rewrite players_set_player_ne by done. rewrite players_store.
      destruct (players w !! qi) as [q|] eqn:Hqp; [|done].
      change (cellsArea (set_player pi (set_p_cells (delete j (p_cells p)) p)
                                    (store ra a' w)) (p_cells q))
        with (cellsArea (store ra a' w) (p_cells q)).
      apply cellsArea_store_notin.
      apply (owned_other w pi qi p q ra Ho Hp Hqp); [by intros ->|done].
Qed.

Lemma mergeInner_area (fuel : nat) :
  forall (pi i j : nat) (w : World),
    owned w -> (i < j)%nat ->
    owned (mergeInner fuel pi i j w) /\
    forall qi, playerArea qi (mergeInner fuel pi i j w) = playerArea qi w.
Proof.
  induction fuel as [|fuel IH]; intros pi i j w Ho Hij; [done|].
  cbn [mergeInner]. destruct (j <? cellCount pi w)%nat; [|done].
  destruct (mergePair_area pi i j w Ho Hij) as (Ho1 & Hij1 & Harea).
  destruct (mergePair pi i j w) as [w' j']. cbn [fst snd] in *.
  destruct (IH pi i j' w' Ho1 Hij1) as [Ho2 Harea2].
  split; [done|]. intros qi. by rewrite Harea2.
Qed.

Lemma mergeOuter_area (fuel : nat) :
  forall (pi i : nat) (w : World),
    owned w ->
    owned (mergeOuter fuel pi i w) /\
    forall qi, playerArea qi (mergeOuter fuel pi i w) = playerArea qi w.
Proof.
  induction fuel as [|fuel IH]; intros pi i w Ho; [done|].
  cbn [mergeOuter]. destruct (i <? cellCount pi w)%nat; [|done].
  destruct (mergeInner_area (cellCount pi w) pi i (S i) w Ho) as [Ho1 Harea]; [lia|].
  destruct (IH pi (S i) _ Ho1) as [Ho2 Harea2].
  split; [done|]. intros qi. by rewrite Harea2.
Qed.

Lemma mergePass_area (w : World) :
  owned w ->
  owned (mergePass w) /\ forall qi, playerArea qi (mergePass w) = playerArea qi w.
Proof.
  intros Ho. unfold mergePass.
  apply (fold_left_inv (fun a => owned a /\ forall qi, playerArea qi a = playerArea qi w));
    [|done].
  intros a pi [Hoa Ha]. unfold mergePlayer.
  destruct (cellCount pi a <=? 1)%nat; [done|].
  destruct (mergeOuter_area (cellCount pi a) pi 0 a Hoa) as [Ho1 Harea].
  split; [done|]. intros qi. by rewrite Harea.
Qed.

(** X20. When no cell has two owners and every owned reference is live
    (as at every state the server reaches), the merge pass conserves the
    area of every player, whatever it merges: the area of a merged pair
    goes to the cell that stays, and no cell of another player is touched.
    So the pass changes no score, and it leaves the cells with one owner
    each. *)
Theorem X20_merge_conserves_area (w : World) :
  owned w ->
  owned (mergePass w) /\
  forall pi,
    playerArea pi (mergePass w) = playerArea pi w /\
    (forall p p', players w !! pi = Some p -> players (mergePass w) !! pi = Some p' ->
                  calculateScoreFromCells (mergePass w) (p_cells p')
                  = calculateScoreFromCells w (p_cells p)).
Proof.
  intros Ho. destruct (mergePass_area w Ho) as [Ho1 Harea].
  split; [done|]. intros pi. split; [apply Harea|].
  intros p p' Hp Hp'. specialize (Harea pi). unfold playerArea in Harea.
  rewrite Hp, Hp' in Harea.
  assert (Hscore : forall w0 cells0,
             calculateScoreFromCells w0 cells0 = floor (cellsArea w0 cells0 / 10)).
  { intros w0 cells0. unfold calculateScoreFromCells.
    destruct cells0 as [|r cells0].
    - simpl. symmetry. apply floor_unique. simpl. lra.
    - rewrite score_fold. f_equal. lra. }
  by rewrite !Hscore, Harea.
Qed.

Lemma X20_merge_conserves_area_witness :
  playerArea 0 (mergePass exWorldMerge) = playerArea 0 exWorldMerge.
Proof.
  refine (proj1 (proj2 (X20_merge_conserves_area exWorldMerge _) 0%nat)).
  unfold owned. simpl. split.
  - apply NoDup_cons. split; [|apply NoDup_singleton].
    intros Hin. apply list_elem_of_singleton in Hin. lia.
  - repeat constructor; simpl; lia.
Defined.

(** ** Spawning bots *)

Section SpawnBots.
Variable rnd : nat -> R.

Lemma spawnBot_spec (w : World) :
  (forall p, p ∈ players w -> (p_id p < nextBotId w)%N) ->
  spawnBot rnd w
  = mkWorld
      (players w ++
       [mkPlayer (nextBotId w) ("Bot_" ++ pretty (nextBotId w)) (-1)
                 [rnd (draws w); rnd (S (draws w)); rnd (S (S (draws w)))]
                 true [length (heap w)] (0, 0) 0 0 false])
      (heap w ++
       [mkCell ((rnd (S (S (S (draws w)))) - 0.5) * WORLD_SIZE)
               ((rnd (S (S (S (S (draws w))))) - 0.5) * WORLD_SIZE)
               40 0 0 MERGE_TIME])
      (foods w) (viruses w) (nextPlayerId w) (nextFoodId w)
      (nextVirusId w) (N.succ (nextBotId w)) (S (S (S (S (S (draws w)))))).
Proof.
  intros Hfresh.
  unfold spawnBot, createBot, firstCell, randPos, random, alloc. simpl.
  unfold players_set. rewrite players_index_none; [done|].
  intros p Hin Hid. specialize (Hfresh p Hin). lia.
Qed.

Lemma spawnBots_spec (n : nat) :
  forall w : World,
    (forall p, p ∈ players w -> (p_id p < nextBotId w)%N) ->
    let w' := Nat.iter n (spawnBot rnd) w in
    exists bots,
      players w' = players w ++ bots /\ length bots = n /\
      (forall k b, bots !! k = Some b ->
                   p_isBot b = true /\
                   p_id b = (nextBotId w + N.of_nat k)%N /\
                   p_name b = ("Bot_" ++ pretty (p_id b))%string /\
                   p_cells b = [(length (heap w) + k)%nat] /\
                   p_inputDir b = (0, 0) /\ p_hasMouseTarget b = false) /\
      (forall p, p ∈ players w' -> (p_id p < nextBotId w')%N) /\
      (exists cs, heap w' = heap w ++ cs /\ length cs = n /\
                  Forall (fun c => c_radius c = 40 /\ c_mergeTimer c = MERGE_TIME) cs) /\
      nextBotId w' = (nextBotId w + N.of_nat n)%N /\
      draws w' = (draws w + 5 * n)%nat /\
      foods w' = foods w /\ viruses w' = viruses w /\
      nextPlayerId w' = nextPlayerId w.
Proof.
  induction n as [|n IH]; intros w Hfresh; cbv zeta.
  - exists []. simpl. rewrite app_nil_r, N.add_0_r, Nat.add_0_r.
    split; [done|]. split; [done|]. split; [done|]. split; [done|].
    split; [exists []; by rewrite app_nil_r|]. done.
  - rewrite Nat.iter_succ.
    destruct (IH w Hfresh) as (bots & Hpl & Hlen & Hbots & Hfr & (cs & Hh & Hcl & Hcs)
                               & Hnb & Hd & Hf & Hv & Hnp).
    cbv zeta in *.
    set (w1 := Nat.iter n (spawnBot rnd) w) in *. clearbody w1.
    rewrite (spawnBot_spec w1 Hfr). simpl.
    eexists (bots ++ [_]). rewrite Hpl, <- app_assoc.
    split; [done|]. split; [rewrite length_app; simpl; lia|]. split; [|split].
    + intros k b Hk.
      destruct (decide (k < length bots)%nat) as [Hlt|Hge].
      * rewrite lookup_app_l in Hk by done. by apply Hbots.
      * rewrite lookup_app_r in Hk by lia.
        destruct (k - length bots)%nat as [|?] eqn:Hk0; [|done].
        injection Hk as <-. simpl.
        assert (k = n) as -> by lia.
        rewrite Hnb, Hh, length_app, Hcl. done.
    + intros p Hin. rewrite app_assoc, <- Hpl in Hin.
      apply elem_of_app in Hin as [Hin|Hin].
      * specialize (Hfr p Hin). lia.
      * apply list_elem_of_singleton in Hin. subst p. simpl. lia.
    + split.
      * exists (cs ++ [mkCell ((rnd (S (S (S (draws w1)))) - 0.5) * WORLD_SIZE)
                              ((rnd (S (S (S (S (draws w1))))) - 0.5) * WORLD_SIZE)
                              40 0 0 MERGE_TIME]).
        rewrite Hh, <- app_assoc. split; [done|].
        split; [rewrite length_app; simpl; lia|].
        apply Forall_app. split; [done|]. by constructor.
      * rewrite Hnb, Hd, Hf, Hv, Hnp. repeat split; try done; lia.
Qed.

(** X22. [spawnBots()], were it called on a world whose players all have
    ids below [nextBotId]: it adds [BOT_COUNT] bots at the end of the map
    and replaces nobody; bot [k] has the id [nextBotId + k], the name
    [Bot_] followed by its id, no direction, and one new cell of radius 40;
    every bot costs five random draws, and pellets and viruses are left
    alone. *)
Theorem X22_spawnBots (w : World) :
  (forall p, p ∈ players w -> (p_id p < nextBotId w)%N) ->
  let w' := spawnBots rnd w in
  exists bots,
    players w' = players w ++ bots /\ length bots = BOT_COUNT /\
    (forall k b, bots !! k = Some b ->
                 p_isBot b = true /\
                 p_id b = (nextBotId w + N.of_nat k)%N /\
                 p_name b = ("Bot_" ++ pretty (p_id b))%string /\
                 p_cells b = [(length (heap w) + k)%nat] /\
                 p_inputDir b = (0, 0) /\ p_hasMouseTarget b = false) /\
    (exists cs, heap w' = heap w ++ cs /\ length cs = BOT_COUNT /\
                Forall (fun c => c_radius c = 40 /\ c_mergeTimer c = MERGE_TIME) cs) /\
    nextBotId w' = (nextBotId w + N.of_nat BOT_COUNT)%N /\
    draws w' = (draws w + 5 * BOT_COUNT)%nat /\
    foods w' = foods w /\ viruses w' = viruses w.
Proof.
  intros Hfresh. cbv zeta. unfold spawnBots.
  destruct (spawnBots_spec BOT_COUNT w Hfresh)
    as (bots & H1 & H2 & H3 & _ & H5 & H6 & H7 & H8 & H9 & _).
  exists bots. done.
Qed.

End SpawnBots.

Lemma X22_spawnBots_witness :
  exists bots,
    players (spawnBots rndHalf emptyWorld) = players emptyWorld ++ bots /\
    length bots = BOT_COUNT.
Proof.
  destruct (X22_spawnBots rndHalf emptyWorld) as (bots & H1 & H2 & _).
  - intros p Hin. simpl in Hin. by apply elem_of_nil in Hin.
  - exists bots. split; [exact H1|exact H2].
Defined.

(** ** The loops come to an end *)

Section InsertDepth.
Context {A : Type} `{HasPos A}.

Lemma insert_more (fuel : nat) :
  forall (t : QuadTree A) (obj : A) (r : QuadTree A * bool),
    QT.insert fuel t obj = Some r ->
    forall fuel', (fuel <= fuel')%nat -> QT.insert fuel' t obj = Some r.
Proof.
  induction fuel as [|fuel IH]; intros t obj r Hins fuel' Hle; [done|].
  destruct fuel' as [|fuel']; [lia|].
  rewrite insert_unfold in *.
  destruct (QT.outside (QT.boundary t) obj); [done|].
  destruct ((length (QT.points t) <? QT.capacity t)%nat
            || (QT.maxDepth t <=? QT.depth t)%nat); [done|].
  destruct (divided t) as [|b c d m ps nw ne sw se]; [done|].
  assert (Hsub : forall q x, QT.insert fuel q obj = Some x ->
                             QT.insert fuel' q obj = Some x).
  { intros q x Hq. apply (IH q obj x Hq). lia. }
  destruct (QT.insert fuel nw obj) as [[nw' r1]|] eqn:E1; [|done].
  rewrite (Hsub _ _ E1). simpl in *. destruct r1; [done|].
  destruct (QT.insert fuel ne obj) as [[ne' r2]|] eqn:E2; [|done].
  rewrite (Hsub _ _ E2). simpl in *. destruct r2; [done|].
  destruct (QT.insert fuel sw obj) as [[sw' r3]|] eqn:E3; [|done].
  rewrite (Hsub _ _ E3). simpl in *. destruct r3; [done|].
  destruct (QT.insert fuel se obj) as [[se' r4]|] eqn:E4; [|done].
  rewrite (Hsub _ _ E4). simpl in *. done.
Qed.

End InsertDepth.

Section Termination.
Context {A : Type} `{HasPos A}.
Variable rnd : nat -> R.

Lemma refill_more (fuel : nat) :
  forall (w : World) (fuel' : nat),
    (FOOD_COUNT - length (foods w) <= fuel)%nat -> (fuel <= fuel')%nat ->
    refill rnd fuel' w = refill rnd fuel w.
Proof.
  induction fuel as [|fuel IH]; intros w fuel' Hm Hle.
  - destruct fuel' as [|fuel']; [done|]. cbn [refill].
    destruct (Nat.ltb_spec (length (foods w)) FOOD_COUNT); [lia|done].
  - destruct fuel' as [|fuel']; [lia|]. cbn [refill].
    destruct (Nat.ltb_spec (length (foods w)) FOOD_COUNT) as [Hlt|]; [|done].
    apply IH; [|lia].
    destruct (pushFood_foods rnd w) as (f & -> & _). rewrite length_app. simpl. lia.
Qed.

(** X23. The loops without a fixed bound come to an end, so that the
    rounds the model allows them are never used up. An insertion into a
    node at depth [d] of a tree with maximum depth [m] returns after at
    most [m - d + 1] nested calls. The top-up loop of a tick runs
    [FOOD_COUNT - foods.length] rounds and then finds [FOOD_COUNT] pellets
    or more. The inner merge loop ends within [cells.length - j] rounds
    and the outer one within [cells.length - i], as every round advances
    the index or shortens the array. With more rounds allowed, each of
    them gives the same result. *)
Theorem X23_loops_terminate :
  (forall (t : QuadTree A) (obj : A) (fuel : nat),
      qt_wf t -> (QT.maxDepth t - QT.depth t < fuel)%nat ->
      exists r, QT.insert (S (QT.maxDepth t - QT.depth t)) t obj = Some r /\
                QT.insert fuel t obj = Some r) /\
  (forall (w : World) (fuel : nat),
      (FOOD_COUNT - length (foods w) <= fuel)%nat ->
      refill rnd fuel w = refill rnd (FOOD_COUNT - length (foods w)) w /\
      (FOOD_COUNT <= length (foods (refill rnd fuel w)))%nat) /\
  (forall (pi i j : nat) (w : World) (fuel : nat),
      (cellCount pi w - j <= fuel)%nat ->
      mergeInner fuel pi i j w = mergeInner (cellCount pi w - j) pi i j w) /\
  (forall (pi i : nat) (w : World) (fuel : nat),
      (cellCount pi w - i <= fuel)%nat ->
      mergeOuter fuel pi i w = mergeOuter (cellCount pi w - i) pi i w).
Proof.
  split; [|split; [|split]].
  - intros t obj fuel Hwf Hfuel.
    destruct (insert_total (S (QT.maxDepth t - QT.depth t)) t obj Hwf) as [r Hr]; [lia|].
    exists r. split; [done|]. apply (insert_more _ _ _ _ Hr). lia.
  - intros w fuel Hfuel. split; [by apply refill_more|].
    destruct (refill_spec rnd fuel w Hfuel) as (Hlen & _). cbv zeta in Hlen.
    rewrite Hlen. lia.
  - intros pi i j w fuel Hfuel. by apply mergeInner_fuel.
  - intros pi i w fuel Hfuel. by apply mergeOuter_fuel.
Qed.

End Termination.

(** ** What a tick leaves of the player objects *)

Section Records.
Variable rnd : nat -> R.
Variable K : Player -> Player -> Prop.
Hypothesis K_refl : forall p, K p p.
Hypothesis K_trans : forall p1 p2 p3, K p1 p2 -> K p2 p3 -> K p1 p3.
Hypothesis K_cells : forall cs p, K p (set_p_cells cs p).
Hypothesis K_bot : forall d p, p_isBot p = true -> K p (set_p_inputDir d p).

Lemma kept_refl (w : World) : Forall2 K (players w) (players w).
Proof. apply Forall_Forall2_diag, Forall_forall. intros. apply K_refl. Qed.

Lemma kept_trans (w1 w2 w3 : World) :
  Forall2 K (players w1) (players w2) -> Forall2 K (players w2) (players w3) ->
  Forall2 K (players w1) (players w3).
Proof. intros H1 H2. eapply Forall2_trans; [|exact H1|exact H2]. exact K_trans. Qed.

Lemma kept_players (w w' : World) :
  players w' = players w -> Forall2 K (players w) (players w').
Proof. intros ->. apply kept_refl. Qed.

Lemma kept_set_player (pi : nat) (p p' : Player) (w : World) :
  players w !! pi = Some p -> K p p' ->
  Forall2 K (players w) (players (set_player pi p' w)).
Proof.
  intros Hp Hk. unfold set_player. simpl.
  rewrite <- (list_insert_id (players w) pi p) at 1 by done.
  apply Forall2_insert; [apply kept_refl|done].
Qed.

Lemma kept_fold {B} (f : World -> B -> World) (l : list B) :
  (forall a x, Forall2 K (players a) (players (f a x))) ->
  forall a, Forall2 K (players a) (players (fold_left f l a)).
Proof.
  intros Hstep.
  apply (fold_left_rel (fun a b => Forall2 K (players a) (players b)));
    [apply kept_refl|apply kept_trans|apply Hstep].
Qed.

Lemma splitPlayer_kept (pi : nat) (w : World) :
  Forall2 K (players w) (players (splitPlayer pi w)).
Proof.
  unfold splitPlayer. destruct (players w !! pi) as [p|] eqn:Hp; [|apply kept_refl].
  destruct (p_inputDir p) as [dx dy].
  pose proof (splitCells_frame dx dy (or_one (hypot dx dy)) (p_cells p) (w, [])) as Hfr.
  cbv zeta in Hfr. destruct (fold_left _ _ _) as [w1 news]. simpl in Hfr.
  destruct Hfr as (Hf & _ & _).
  assert (Hp1 : players w1 = players w) by (by rewrite Hf).
  destruct (0 <? length news)%nat; [|by apply kept_players].
  eapply kept_trans; [by apply (kept_players w w1)|].
  eapply kept_set_player; [by rewrite Hp1|apply K_cells].
Qed.

Lemma botThink_kept (pi : nat) (w : World) (p : Player) :
  players w !! pi = Some p -> p_isBot p = true ->
  Forall2 K (players w) (players (botThink rnd pi w)).
Proof.
  intros Hp Hbot. unfold botThink. rewrite Hp.
  destruct (p_cells p) as [|r0 ?]; [apply kept_refl|].
  destruct (heap w !! r0) as [my|]; [|apply kept_refl].
  destruct (fold_left _ (imap pair (players w)) _) as [target flee].
  destruct (match flee with Some _ => _ | None => _ end) as [vx vy].
  set (w1 := set_player pi _ w).
  assert (Hk : Forall2 K (players w) (players w1))
    by (eapply kept_set_player; [done|by apply K_bot]).
  destruct target as [t|]; [|done].
  unfold random. destruct (Rltb _ _); [|done].
  eapply kept_trans; [exact Hk|].
  apply (splitPlayer_kept pi (set_draws (S (draws w1)) w1)).
Qed.

Lemma thinkBots_kept (w : World) : Forall2 K (players w) (players (thinkBots rnd w)).
Proof.
  unfold thinkBots. apply kept_fold. intros a pi.
  destruct (players a !! pi) as [p|] eqn:Hp; [|apply kept_refl].
  destruct (p_isBot p) eqn:Hb; [by eapply botThink_kept|apply kept_refl].
Qed.

Lemma consume_kept (refA refB pB : nat) (cA cB : Cell) (w : World) :
  Forall2 K (players w) (players (consume refA refB pB cA cB w)).
Proof.
  unfold consume. rewrite players_store.
  destruct (players w !! pB) as [playerB|] eqn:Hp; [|by apply kept_players].
  destruct (indexOf refB (p_cells playerB)); [|by apply kept_players].
  eapply (kept_trans w (store refA _ w)); [by apply kept_players|].
  eapply kept_set_player; [by rewrite players_store|apply K_cells].
Qed.

Lemma eatCells_kept (w : World) : Forall2 K (players w) (players (eatCells w)).
Proof.
  unfold eatCells. apply kept_fold. intros a [k item]. unfold eatCellsItem.
  destruct (heap a !! i_cell item); [|apply kept_refl].
  apply kept_fold. intros b other. unfold eatCell.
  repeat case_match; try apply kept_refl. apply consume_kept.
Qed.

Lemma explode_kept (pi ref : nat) (w : World) :
  Forall2 K (players w) (players (explodeCellIntoMany rnd pi ref w)).
Proof.
  unfold explodeCellIntoMany.
  destruct (players w !! pi) as [p|] eqn:Hp; [|apply kept_refl].
  destruct (heap w !! ref) as [cell|]; [|apply kept_refl].
  match goal with
  | |- context [fold_left (explodePiece rnd cell ?n ?r ?d) (seq 0 ?k) _] =>
    destruct (explodePieces_spec rnd cell n r d k 0 w [])
      as (cs & _ & _ & _ & _ & Hpl & _ & _)
  end.
  destruct (fold_left _ _ _) as [w1 newCells]. simpl in Hpl.
  rewrite Hpl, Hp.
  eapply kept_trans; [by apply (kept_players w w1)|].
  eapply kept_set_player; [by rewrite Hpl|apply K_cells].
Qed.

Lemma virusPass_kept (w : World) : Forall2 K (players w) (players (virusPass rnd w)).
Proof.
  unfold virusPass. apply kept_fold. intros a pi. unfold virusesPlayer.
  destruct (players a !! pi) as [p|]; [|apply kept_refl].
  apply kept_fold. intros b ref. unfold hitViruses. apply kept_fold. intros d vi.
  unfold hitVirus. destruct (heap d !! ref) as [c|]; [|apply kept_refl].
  destruct (viruses d !! vi) as [v|]; [|apply kept_refl].
  destruct (Rltb _ _); [|apply kept_refl].
  destruct (Rgtb _ _); [|apply kept_refl].
  eapply kept_trans; [apply explode_kept|]. by apply kept_players.
Qed.

Lemma mergePair_kept (pi i j : nat) (w : World) :
  Forall2 K (players w) (players (fst (mergePair pi i j w))).
Proof.
  destruct (mergePair_cases pi i j w)
    as [->|(p & ra & rb & a & b & Hp & _ & _ & _ & _ & _ & _ & ->)];
    [apply kept_refl|]. cbn [fst].
  eapply (kept_trans w (store ra _ w)); [by apply kept_players|].
  eapply kept_set_player; [by rewrite players_store|apply K_cells].
Qed.

Lemma mergeInner_kept (pi i : nat) (fuel : nat) :
  forall (j : nat) (w : World),
    Forall2 K (players w) (players (mergeInner fuel pi i j w)).
Proof.
  induction fuel as [|fuel IH]; intros j w; cbn [mergeInner]; [apply kept_refl|].
  destruct (j <? cellCount pi w)%nat; [|apply kept_refl].
  pose proof (mergePair_kept pi i j w) as Hq.
  destruct (mergePair pi i j w) as [w' j']. cbn [fst] in Hq.
  eapply kept_trans; [exact Hq|apply IH].
Qed.

Lemma mergeOuter_kept (pi : nat) (fuel : nat) :
  forall (i : nat) (w : World),
    Forall2 K (players w) (players (mergeOuter fuel pi i w)).
Proof.
  induction fuel as [|fuel IH]; intros i w; cbn [mergeOuter]; [apply kept_refl|].
  destruct (i <? cellCount pi w)%nat; [|apply kept_refl].
  eapply kept_trans; [apply mergeInner_kept|apply IH].
Qed.

Lemma mergePass_kept (w : World) : Forall2 K (players w) (players (mergePass w)).
Proof.
  unfold mergePass. apply kept_fold. intros a pi. unfold mergePlayer.
  destruct (cellCount pi a <=? 1)%nat; [apply kept_refl|apply mergeOuter_kept].
Qed.

Lemma update_kept (dt : R) (w : World) :
  Forall2 K (players w) (players (update rnd dt w)).
Proof.
  unfold update. cbv zeta.
  set (w1 := thinkBots rnd w).
  set (w2 := moveFoods dt w1).
  set (w3 := movePlayers dt w2).
  set (w4 := eatFoods (buildFoodTree w3) w3).
  set (w5 := replenish rnd w4).
  set (w6 := eatCells w5).
  set (w7 := virusPass rnd w6).
  eapply kept_trans; [apply (thinkBots_kept w)|]. fold w1.
  eapply kept_trans; [by apply (kept_players w1 w2)|].
  eapply kept_trans; [apply (kept_players w2 w3), movePlayers_players|].
  eapply kept_trans;
    [apply (kept_players w3 w4), (eatFoods_keeps (buildFoodTree w3) w3)|].
  eapply kept_trans;
    [apply (kept_players w4 w5), (proj1 (proj2 (proj2 (replenish_spec rnd w4))))|].
  eapply kept_trans; [apply (eatCells_kept w5)|]. fold w6.
  eapply kept_trans; [apply (virusPass_kept w6)|]. fold w7.
  apply (mergePass_kept w7).
Qed.

End Records.

Lemma keepsRecord_refl (p : Player) : keepsRecord p p.
Proof. unfold keepsRecord. by destruct p as [? ? ? ? [] ? ? ? ? ?]. Qed.

Lemma keepsRecord_bot (p p' : Player) :
  keepsRecord p p' -> p_isBot p' = p_isBot p.
Proof.
  unfold keepsRecord. intros Hk. rewrite Hk. by destruct (p_isBot p) eqn:Hb.
Qed.

Lemma keepsRecord_trans (p1 p2 p3 : Player) :
  keepsRecord p1 p2 -> keepsRecord p2 p3 -> keepsRecord p1 p3.
Proof.
  intros H12 H23. pose proof (keepsRecord_bot _ _ H12) as Hb.
  unfold keepsRecord in *. rewrite Hb in H23. rewrite H23.
  destruct (p_isBot p1); rewrite H12; by destruct (p_isBot p1).
Qed.

(** X24. A tick keeps the players map entry by entry, and of a player
    object it changes nothing but the cells array and, for a bot, the
    direction: id, name, skin, color, bot flag and mouse target of every
    player, and the direction of every human player, are the same after
    [update(dt)] as before. *)
Theorem X24_tick_keeps_records (rnd : nat -> R) (dt : R) (w : World) :
  Forall2 keepsRecord (players w) (players (update rnd dt w)) /\
  length (players (update rnd dt w)) = length (players w) /\
  (forall pi p, players w !! pi = Some p ->
     exists p', players (update rnd dt w) !! pi = Some p' /\
                p_id p' = p_id p /\ p_name p' = p_name p /\ p_skin p' = p_skin p /\
                p_color p' = p_color p /\ p_isBot p' = p_isBot p /\
                p_mouseX p' = p_mouseX p /\ p_mouseY p' = p_mouseY p /\
                p_hasMouseTarget p' = p_hasMouseTarget p /\
                (p_isBot p = false -> p_inputDir p' = p_inputDir p)).
Proof.
  assert (Hk : Forall2 keepsRecord (players w) (players (update rnd dt w))).
  { apply update_kept.
    - apply keepsRecord_refl.
    - apply keepsRecord_trans.
    - intros cs p. unfold keepsRecord. by destruct p as [? ? ? ? [] ? ? ? ? ?].
    - intros d p Hb. unfold keepsRecord. rewrite Hb. by destruct p. }
  split; [done|]. split; [symmetry; by eapply Forall2_length|].
  intros pi p Hp. destruct (Forall2_lookup_l _ _ _ _ _ Hk Hp) as (p' & Hp' & Hrec).
  exists p'. split; [done|]. unfold keepsRecord in Hrec. rewrite Hrec.
  destruct (p_isBot p) eqn:Hb; simpl; rewrite ?Hb; repeat split; done.
Qed.

(** ** Steering by the mouse target *)

(** *** The movement pass, cell by cell *)





(** *** The passes after the movement *)

Lemma samePlace_refl (c : Cell) : samePlace c c.
Proof. done. Qed.









Section Places.
Variable rnd : nat -> R.





(** *** A run of messages and ticks *)






End Places.

